(** * The VQ-VAE and SG-VAE models of [vae]: graph construction, execution
      and gradient routing.

    The Python classes [VQ_VAE] ([vq_vae_conv.py]) and [SG_VAE]
    ([sg_vae_conv.py]) build a TensorFlow graph once and then execute it with
    [session.run].  The development follows that split:

    - [tensor], [value] and the functions of the first part give the meaning
      of the TensorFlow operations the two classes call (reshape, slicing
      with [tf.newaxis], broadcasting subtraction, [tf.norm], [tf.argmin],
      [tf.gather], ...), on nested lists in row-major order;
    - [node] is the graph the Python code builds; [eval] is [session.run]
      with a feed dictionary; [gradients] is [tf.gradients];
    - the [build_*] functions and the methods ([encode], [decode],
      [predict]) are transcribed from the Python methods of the same name.

    Scalars are real numbers: float32 rounding, overflow and NaN are outside
    the model.  So are the checks TensorFlow makes on static shapes while a
    graph is built: what is proved of a graph is proved of one that
    [build_all] returned. *)

From Stdlib Require Import String Ascii DecimalString.
From Stdlib Require Import ZArith QArith Reals Lra.
From Stdlib Require Import Bool Arith Lia List Permutation.
Import ListNotations.

Close Scope Q_scope.
Close Scope R_scope.
Open Scope string_scope.
Open Scope list_scope.
Open Scope nat_scope.

Set Implicit Arguments.
Set Warnings "-register-all".

(* ================================================================== *)
(** * Part 1: tensors and the TensorFlow operations used by the models *)
(* ================================================================== *)

(** A dense tensor in row-major order: a scalar, or an array along the
    outermost axis. *)
Inductive tensor (A : Type) : Type :=
| Sc (x : A)
| Arr (xs : list (tensor A)).

Arguments Sc {A} x.
Arguments Arr {A} xs.

(** What a TensorFlow tensor evaluates to: a float tensor, an integer
    (index) tensor or a boolean scalar. *)
Inductive value : Type :=
| VF (t : tensor R)
| VI (t : tensor nat)
| VB (b : bool).

Section TensorInduction.
Variable A : Type.
Variable P : tensor A -> Prop.
Hypothesis HSc : forall x, P (Sc x).
Hypothesis HArr : forall xs, Forall P xs -> P (Arr xs).

Fixpoint tensor_ind' (t : tensor A) : P t :=
  match t with
  | Sc x => HSc x
  | Arr xs =>
      HArr ((fix go (l : list (tensor A)) : Forall P l :=
               match l with
               | [] => Forall_nil P
               | y :: l' => Forall_cons y (tensor_ind' y) (go l')
               end) xs)
  end.
End TensorInduction.

(** Option-valued traversals: an operation on a list fails as soon as one
    element fails. *)
Fixpoint mapM {A B : Type} (f : A -> option B) (l : list A) : option (list B) :=
  match l with
  | [] => Some []
  | x :: l' =>
      match f x, mapM f l' with
      | Some y, Some ys => Some (y :: ys)
      | _, _ => None
      end
  end.

Fixpoint zipM {A B C : Type} (f : A -> B -> option C) (xs : list A) (ys : list B)
  : option (list C) :=
  match xs, ys with
  | [], [] => Some []
  | x :: xs', y :: ys' =>
      match f x y, zipM f xs' ys' with
      | Some z, Some zs => Some (z :: zs)
      | _, _ => None
      end
  | _, _ => None
  end.

(** ** Constructors of vectors, matrices and rank-3 tensors *)

Definition vec {A} (l : list A) : tensor A := Arr (map Sc l).
Definition mat {A} (m : list (list A)) : tensor A := Arr (map vec m).
Definition cube {A} (c : list (list (list A))) : tensor A := Arr (map mat c).

(** All the scalars of a tensor, in row-major order. *)
Fixpoint scalars {A} (t : tensor A) : list A :=
  match t with
  | Sc x => [x]
  | Arr xs => flat_map scalars xs
  end.

Definition rows {A} (t : tensor A) : list (tensor A) :=
  match t with
  | Sc _ => []
  | Arr xs => xs
  end.

(** The entries of a vector; [None] when an entry is itself an array. *)
Definition as_scalar {A} (t : tensor A) : option A :=
  match t with
  | Sc x => Some x
  | Arr _ => None
  end.

Definition as_vec {A} (t : tensor A) : option (list A) :=
  match t with
  | Sc _ => None
  | Arr xs => mapM as_scalar xs
  end.

(** ** Reshape *)

Fixpoint chunks_n {A} (k n : nat) (l : list A) : list (list A) :=
  match k with
  | 0 => []
  | S k' => firstn n l :: chunks_n k' n (skipn n l)
  end.

Definition chunks {A} (n : nat) (l : list A) : list (list A) :=
  chunks_n (length l / n) n l.

Definition prod (ds : list nat) : nat := fold_right Nat.mul 1 ds.

(** The tensor of shape [d :: ds] holding [data]. *)
Fixpoint build {A} (d : nat) (ds : list nat) (data : list A) : tensor A :=
  match ds with
  | [] => vec data
  | d' :: ds' => Arr (map (build d' ds') (chunks_n d (d' * prod ds') data))
  end.

(** The leading dimension of a reshape: [-1] (inferred from the number of
    elements) or [tf.shape(x)[0]], the batch size of the reshaped tensor. *)
Inductive lead_dim : Type := Infer | SameBatch.

(** [tf.reshape(t, (lead, d, *ds))]. *)
Definition reshape {A} (lead : lead_dim) (d : nat) (ds : list nat) (t : tensor A)
  : option (tensor A) :=
  let data := scalars t in
  let p := d * prod ds in
  if p =? 0 then None
  else if negb (length data mod p =? 0) then None
  else
    match lead with
    | Infer => Some (Arr (map (build d ds) (chunks p data)))
    | SameBatch =>
        if length data / p =? length (rows t)
        then Some (Arr (map (build d ds) (chunks p data)))
        else None
    end.

(** [tf.layers.flatten]: keeps the batch axis, flattens every sample. *)
Definition flatten {A} (t : tensor A) : tensor A :=
  Arr (map (fun s => vec (scalars s)) (rows t)).

(** ** Indexing *)

(** [t[spec]] where every entry of [spec] is [:] ([false]) or [tf.newaxis]
    ([true]): [predictions[:, :, tf.newaxis, :]] is
    [slice_newaxis [false; false; true; false]]. *)
Fixpoint slice_newaxis {A} (spec : list bool) (t : tensor A) : tensor A :=
  match spec with
  | [] => t
  | true :: s => Arr [slice_newaxis s t]
  | false :: s =>
      match t with
      | Sc x => Sc x
      | Arr xs => Arr (map (slice_newaxis s) xs)
      end
  end.

(** [tf.expand_dims(t, axis=-1)] for a tensor of rank [rank]. *)
Definition expand_dims_last {A} (rank : nat) (t : tensor A) : tensor A :=
  slice_newaxis (repeat false rank ++ [true]) t.

(** [t[:, ..., :, i]] with [depth] leading [:]: the numpy indexing
    [outputs[:, :, :, 0]] is [index_at 3 0]. *)
Fixpoint index_at {A} (depth i : nat) (t : tensor A) : option (tensor A) :=
  match depth, t with
  | _, Sc _ => None
  | 0, Arr xs => nth_error xs i
  | S d, Arr xs => option_map Arr (mapM (index_at d i) xs)
  end.

Fixpoint tmap {A B} (f : A -> B) (t : tensor A) : tensor B :=
  match t with
  | Sc x => Sc (f x)
  | Arr xs => Arr (map (tmap f) xs)
  end.

(** ** Element-wise binary operations with broadcasting

    Two tensors of the same rank; along every axis the sizes agree or one
    of them is 1. *)
Definition bzip {A B C} (f : A -> B -> option C) (xs : list A) (ys : list B)
  : option (list C) :=
  match xs, ys with
  | [x], _ => mapM (fun y => f x y) ys
  | _, [y] => mapM (fun x => f x y) xs
  | _, _ => zipM f xs ys
  end.

Fixpoint tbin (f : R -> R -> R) (a b : tensor R) {struct a} : option (tensor R) :=
  match a, b with
  | Sc x, Sc y => Some (Sc (f x y))
  | Arr xs, Arr ys => option_map Arr (bzip (tbin f) xs ys)
  | _, _ => None
  end.

(** The gradient of a broadcasting operation with respect to one operand:
    the upstream gradient [g] summed over the axes along which the operand
    [t] was broadcast, so that the result has the shape of [t]. *)
Definition tsum (gs : list (tensor R)) (like : tensor R) : option (tensor R) :=
  fold_left (fun acc g => match acc with
                          | Some a => tbin Rplus a g
                          | None => None
                          end)
            gs (Some (tmap (fun _ => 0%R) like)).

Fixpoint sum_to_shape (g t : tensor R) {struct t} : option (tensor R) :=
  match g, t with
  | Sc x, Sc _ => Some (Sc x)
  | Arr gs, Arr ts =>
      match gs, ts with
      | _ :: _ :: _, [t1] =>
          match gs with
          | g1 :: _ =>
              match tsum gs g1 with
              | Some s => option_map (fun r => Arr [r]) (sum_to_shape s t1)
              | None => None
              end
          | [] => None
          end
      | _, _ => option_map Arr (zipM (fun t' g' => sum_to_shape g' t') ts gs)
      end
  | _, _ => None
  end.

(** ** Reductions over the last axis

    [reduce_last f axis t] applies [f] to every vector found at depth
    [axis]; the reductions of the two models are all over the last axis of
    their argument ([tf.norm(diff, axis=3)] on a rank-4 tensor,
    [tf.argmin(norm, axis=2)] on a rank-3 tensor, ...). *)
Fixpoint reduce_last {A B} (f : list A -> option B) (axis : nat) (t : tensor A)
  : option (tensor B) :=
  match axis with
  | 0 =>
      match as_vec t with
      | Some l => option_map Sc (f l)
      | None => None
      end
  | S k =>
      match t with
      | Sc _ => None
      | Arr xs => option_map Arr (mapM (reduce_last f k) xs)
      end
  end.

Definition Rsum (l : list R) : R := fold_right Rplus 0%R l.

Definition Rmean (l : list R) : R := (Rsum l / INR (length l))%R.

(** [tf.norm] (Euclidean): [sqrt(reduce_sum(x * x))]. *)
Definition euclidean (l : list R) : R := sqrt (Rsum (map (fun x => (x * x)%R) l)).

(** [tf.argmin] along one vector: the first position holding the least
    value.  An empty axis is an error. *)
Fixpoint argmin_from (best_i : nat) (best : R) (i : nat) (l : list R) : nat :=
  match l with
  | [] => best_i
  | x :: l' =>
      if Rlt_dec x best then argmin_from i x (S i) l'
      else argmin_from best_i best (S i) l'
  end.

Definition argmin (l : list R) : option nat :=
  match l with
  | [] => None
  | x :: l' => Some (argmin_from 0 x 1 l')
  end.

Fixpoint argmax_from (best_i : nat) (best : R) (i : nat) (l : list R) : nat :=
  match l with
  | [] => best_i
  | x :: l' =>
      if Rlt_dec best x then argmax_from i x (S i) l'
      else argmax_from best_i best (S i) l'
  end.

Definition argmax (l : list R) : option nat :=
  match l with
  | [] => None
  | x :: l' => Some (argmax_from 0 x 1 l')
  end.

(** [tf.one_hot(i, depth)]. *)
Definition one_hot (depth i : nat) : list R :=
  map (fun j => if j =? i then 1%R else 0%R) (seq 0 depth).

Fixpoint tone_hot (depth : nat) (t : tensor nat) : tensor R :=
  match t with
  | Sc i => vec (one_hot depth i)
  | Arr xs => Arr (map (tone_hot depth) xs)
  end.

(** [tf.gather(params, indices)] on the first axis of [params]; an index
    out of range is an error. *)
Fixpoint gather {A} (params : list (tensor A)) (indices : tensor nat)
  : option (tensor A) :=
  match indices with
  | Sc i => nth_error params i
  | Arr xs => option_map Arr (mapM (gather params) xs)
  end.

(* ================================================================== *)
(** * Part 2: the computation graph *)
(* ================================================================== *)

(** The operations of the two graphs.  Attributes that the Python code
    passes as Python numbers (a layer size, an axis, [beta1]) are part of
    the operation. *)
Inductive opkind : Type :=
| kReshape (lead : lead_dim) (d : nat) (ds : list nat)
| kSlice (spec : list bool)
| kExpandDims (rank : nat)
| kFlatten
| kConv2D (filters size stride : nat) (relu : bool)
| kConv2DTranspose (filters size stride : nat) (relu : bool)
| kDense (units : nat) (relu : bool)
| kSigmoid
| kAdd
| kSub
| kNeg
| kMulConst (c : Q)
| kDivConst (n : nat)
| kPowConst (n : nat)
| kSquare
| kNorm (axis : nat)
| kArgMin (axis : nat)
| kArgMax (axis : nat)
| kOneHot (depth : nat)
| kCast (from_float : bool)
| kGather
| kStopGradient
| kReduceMean (axis : option nat)
| kReduceSum (axis : nat)
| kAddN
| kZero
| kOnesLike
| kSigmoidCrossEntropy
| kSquaredError
| kRegularizer (scale : Q)
| kRelaxedSample
| kCatSample
| kKLCategorical
| kRelaxedLogProb
| kWhere
| kSumToShape
| kGrad (k : opkind) (i : nat).

(** A tensor of the graph: a placeholder, a variable (known by its scoped
    name) or the output of an operation. *)
Inductive node : Type :=
| Placeholder (name : string)
| Var (name : string)
| Op (k : opkind) (ins : list node).

Section NodeInduction.
Variable P : node -> Prop.
Hypothesis HP : forall n, P (Placeholder n).
Hypothesis HV : forall n, P (Var n).
Hypothesis HO : forall k ins, Forall P ins -> P (Op k ins).

Fixpoint node_ind' (y : node) : P y :=
  match y with
  | Placeholder n => HP n
  | Var n => HV n
  | Op k ins =>
      HO k ((fix go (l : list node) : Forall P l :=
               match l with
               | [] => Forall_nil P
               | a :: l' => Forall_cons a (node_ind' a) (go l')
               end) ins)
  end.
End NodeInduction.

(** ** Identity of tensors

    A feed dictionary and [tf.gradients] refer to tensors of the graph;
    two tensors are the same when they were built the same way. *)
Definition lead_eqb (a b : lead_dim) : bool :=
  match a, b with
  | Infer, Infer | SameBatch, SameBatch => true
  | _, _ => false
  end.

Definition Q_eqb (p q : Q) : bool :=
  Z.eqb (Qnum p) (Qnum q) && Pos.eqb (Qden p) (Qden q).

Definition list_eqb {A} (eqb : A -> A -> bool) : list A -> list A -> bool :=
  fix go (xs ys : list A) : bool :=
    match xs, ys with
    | [], [] => true
    | x :: xs', y :: ys' => eqb x y && go xs' ys'
    | _, _ => false
    end.

Definition option_eqb {A} (eqb : A -> A -> bool) (a b : option A) : bool :=
  match a, b with
  | None, None => true
  | Some x, Some y => eqb x y
  | _, _ => false
  end.

Fixpoint opkind_eqb (a b : opkind) : bool :=
  match a, b with
  | kReshape l d ds, kReshape l' d' ds' =>
      lead_eqb l l' && (d =? d') && list_eqb Nat.eqb ds ds'
  | kSlice s, kSlice s' => list_eqb Bool.eqb s s'
  | kExpandDims r, kExpandDims r' => r =? r'
  | kFlatten, kFlatten => true
  | kConv2D f s t r, kConv2D f' s' t' r' =>
      (f =? f') && (s =? s') && (t =? t') && Bool.eqb r r'
  | kConv2DTranspose f s t r, kConv2DTranspose f' s' t' r' =>
      (f =? f') && (s =? s') && (t =? t') && Bool.eqb r r'
  | kDense u r, kDense u' r' => (u =? u') && Bool.eqb r r'
  | kSigmoid, kSigmoid => true
  | kAdd, kAdd => true
  | kSub, kSub => true
  | kNeg, kNeg => true
  | kMulConst c, kMulConst c' => Q_eqb c c'
  | kDivConst n, kDivConst n' => n =? n'
  | kPowConst n, kPowConst n' => n =? n'
  | kSquare, kSquare => true
  | kNorm x, kNorm x' => x =? x'
  | kArgMin x, kArgMin x' => x =? x'
  | kArgMax x, kArgMax x' => x =? x'
  | kOneHot n, kOneHot n' => n =? n'
  | kCast f, kCast f' => Bool.eqb f f'
  | kGather, kGather => true
  | kStopGradient, kStopGradient => true
  | kReduceMean x, kReduceMean x' => option_eqb Nat.eqb x x'
  | kReduceSum x, kReduceSum x' => x =? x'
  | kAddN, kAddN => true
  | kZero, kZero => true
  | kOnesLike, kOnesLike => true
  | kSigmoidCrossEntropy, kSigmoidCrossEntropy => true
  | kSquaredError, kSquaredError => true
  | kRegularizer c, kRegularizer c' => Q_eqb c c'
  | kRelaxedSample, kRelaxedSample => true
  | kCatSample, kCatSample => true
  | kKLCategorical, kKLCategorical => true
  | kRelaxedLogProb, kRelaxedLogProb => true
  | kWhere, kWhere => true
  | kSumToShape, kSumToShape => true
  | kGrad k i, kGrad k' i' => opkind_eqb k k' && (i =? i')
  | _, _ => false
  end.

Fixpoint node_eqb (a b : node) : bool :=
  match a, b with
  | Placeholder n, Placeholder m => String.eqb n m
  | Var n, Var m => String.eqb n m
  | Op k xs, Op l ys =>
      opkind_eqb k l &&
      (fix go (xs ys : list node) : bool :=
         match xs, ys with
         | [], [] => true
         | x :: xs', y :: ys' => node_eqb x y && go xs' ys'
         | _, _ => false
         end) xs ys
  | _, _ => false
  end.

(** ** [tf.gradients]

    [differentiable k i]: the gradient registered for operation [k]
    propagates to its [i]-th input.  [tf.stop_gradient], [tf.argmin],
    [tf.argmax], [tf.one_hot], [tf.ones_like], the indices of [tf.gather],
    the condition of [tf.where], a cast from an integer type and the draw
    from a discrete categorical have no gradient. *)
Definition differentiable (k : opkind) (i : nat) : bool :=
  match k with
  | kStopGradient | kArgMin _ | kArgMax _ | kOneHot _ | kOnesLike
  | kZero | kCatSample => false
  | kCast from_float => from_float
  | kGather => i =? 0
  | kWhere => negb (i =? 0)
  | kSumToShape => i =? 0
  | _ => true
  end.

(** The gradient flowing into input [i] of [Op k ins] when [g] flows into
    its output.  Addition and subtraction pass [g] (or its opposite) on,
    summed back to the shape of the operand; [a * x] passes [a * g]; the
    other operations are left as [kGrad] operations. *)
Definition vjp (k : opkind) (i : nat) (ins : list node) (g : node) : node :=
  match k with
  | kAdd => Op kSumToShape [g; nth i ins g]
  | kSub =>
      if i =? 0 then Op kSumToShape [g; nth i ins g]
      else Op kSumToShape [Op kNeg [g]; nth i ins g]
  | kAddN => g
  | kMulConst c => Op (kMulConst c) [g]
  | _ => Op (kGrad k i) (g :: ins)
  end.

(** Several gradients reaching the same tensor are added. *)
Definition sum_grads (gs : list (option node)) : option node :=
  match flat_map (fun o => match o with Some g => [g] | None => [] end) gs with
  | [] => None
  | [g] => Some g
  | gs' => Some (Op kAddN gs')
  end.

(** [tf.gradients(y, x, grad_ys=g)[0]]: [None] when no differentiable path
    leads from [x] to [y]. *)
Fixpoint gradients_from (y x g : node) {struct y} : option node :=
  if node_eqb y x then Some g
  else
    match y with
    | Op k ins =>
        sum_grads
          ((fix go (i : nat) (l : list node) : list (option node) :=
              match l with
              | [] => []
              | a :: l' =>
                  (if differentiable k i then gradients_from a x (vjp k i ins g)
                   else None) :: go (S i) l'
              end) 0 ins)
    | _ => None
    end.

(** [tf.gradients(y, x)[0]]: the initial gradient is [tf.ones_like(y)]. *)
Definition gradients (y x : node) : option node :=
  gradients_from y x (Op kOnesLike [y]).

(** The learning rate handed to the optimizer: a Python number, or the
    tensor made by [tf.train.exponential_decay]. *)
Inductive learning_rate_t : Type :=
| ConstantRate (lr : Q)
| ExponentialDecay (lr : Q) (global_step : node) (decay_steps : nat) (decay_rate : Q).

(** An optimizer step:
    [tf.train.AdamOptimizer(learning_rate).apply_gradients(grads_and_vars)]. *)
Inductive train_op : Type :=
| ApplyGradients (rate : learning_rate_t) (grads_and_vars : list (option node * node)).

(* ================================================================== *)
(** * Part 3: executing the graph *)
(* ================================================================== *)

Definition indexed {A} (l : list A) : list (nat * A) :=
  combine (seq 0 (length l)) l.

(** One draw per sample [b] and per distribution [d] from logits of shape
    [(batch, num_distributions, num_classes)]. *)
Definition draw_each {X} (draw : nat -> nat -> list R -> tensor X) (logits : tensor R)
  : option (tensor X) :=
  match logits with
  | Sc _ => None
  | Arr bs =>
      option_map Arr
        (mapM (fun bt =>
                 match snd bt with
                 | Sc _ => None
                 | Arr ds =>
                     option_map Arr
                       (mapM (fun dt => option_map (draw (fst bt) (fst dt))
                                                   (as_vec (snd dt)))
                             (indexed ds))
                 end)
              (indexed bs))
  end.

(** A function of two vectors applied along the last axis of two tensors
    of the same shape. *)
Fixpoint reduce_last2 (f : list R -> list R -> R) (axis : nat) (a b : tensor R)
  : option (tensor R) :=
  match axis with
  | 0 =>
      match as_vec a, as_vec b with
      | Some l, Some m => Some (Sc (f l m))
      | _, _ => None
      end
  | S k =>
      match a, b with
      | Arr xs, Arr ys => option_map Arr (zipM (reduce_last2 f k) xs ys)
      | _, _ => None
      end
  end.

Definition sigmoid (x : R) : R := (1 / (1 + exp (- x)))%R.

(** [tf.nn.sigmoid_cross_entropy_with_logits(labels=z, logits=x)]. *)
Definition sigmoid_cross_entropy (z x : R) : R :=
  (Rmax x 0 - x * z + ln (1 + exp (- Rabs x)))%R.

Definition softmax (l : list R) : list R :=
  map (fun x => (exp x / Rsum (map exp l))%R) l.

Definition log_softmax (l : list R) : list R :=
  map (fun x => (x - ln (Rsum (map exp l)))%R) l.

(** The closed form registered for two (one-hot) categoricals:
    [sum(softmax(a) * (log_softmax(a) - log_softmax(b)))]. *)
Definition kl_categorical (a b : list R) : R :=
  Rsum (map (fun t => (fst t * (fst (snd t) - snd (snd t)))%R)
            (combine (softmax a) (combine (log_softmax a) (log_softmax b)))).

(** The state of the random generators of the session. *)
Inductive rng : Type := Rng (state : nat).

Definition next_rng (r : rng) : rng :=
  match r with Rng n => Rng (S n) end.

(** A session: the values of the variables and the random state. *)
Record session : Type := {
  variables : string -> tensor R;
  noise : rng
}.

Definition floats (vs : list value) : option (list (tensor R)) :=
  mapM (fun v => match v with VF t => Some t | _ => None end) vs.

Definition lookup_feed (feed : list (node * value)) (y : node) : option value :=
  option_map snd (find (fun kv => node_eqb (fst kv) y) feed).

(** The arithmetic of the layers and of the library distributions is taken
    as given. *)
Record library : Type := {
  (** A layer ([tf.layers.conv2d], [tf.layers.conv2d_transpose],
      [tf.layers.dense], with its activation) maps every sample of the
      batch on its own, from its kernel and bias. *)
  layer_sample : opkind -> tensor R -> tensor R -> tensor R -> tensor R;
  (** The penalty computed by the weight regularizer of a given scale on a
      kernel. *)
  regularizer_value : Q -> tensor R -> R;
  (** [RelaxedOneHotCategorical(temperature, logits).sample()] for the
      distribution [d] of sample [b], and its [log_prob]. *)
  relaxed_draw : rng -> nat -> nat -> R -> list R -> list R;
  relaxed_log_prob : R -> list R -> list R -> R;
  (** The class drawn by [OneHotCategorical(logits).sample()]. *)
  categorical_draw : rng -> nat -> nat -> list R -> nat;
  (** The registered gradient functions not spelled out in [vjp]. *)
  grad_value : opkind -> nat -> list value -> option value;
  (** The raw integer numpy's generator draws for the entry [(i, j)] of an
      array. *)
  random_integer : rng -> nat -> nat -> nat
}.

Definition float1 (f : tensor R -> option value) (vs : list value) : option value :=
  match vs with
  | [VF t] => f t
  | _ => None
  end.

Definition float2 (f : tensor R -> tensor R -> option value) (vs : list value)
  : option value :=
  match vs with
  | [VF a; VF b] => f a b
  | _ => None
  end.

Definition some_float (t : tensor R) : option value := Some (VF t).

Definition opt_float (t : option (tensor R)) : option value := option_map VF t.

Definition add_n (ts : list (tensor R)) : option (tensor R) :=
  match ts with
  | [] => None
  | t :: ts' =>
      fold_left (fun acc x => match acc with
                              | Some a => tbin Rplus a x
                              | None => None
                              end) ts' (Some t)
  end.

(** The value computed by an operation from the values of its inputs;
    [None] is a run-time error of the operation. *)
Definition op_value (tf : library) (rn : rng) (k : opkind) (vs : list value) : option value :=
  match k with
  | kReshape lead d ds =>
      match vs with
      | [VF t] => option_map VF (reshape lead d ds t)
      | [VI t] => option_map VI (reshape lead d ds t)
      | _ => None
      end
  | kSlice spec => float1 (fun t => some_float (slice_newaxis spec t)) vs
  | kExpandDims r => float1 (fun t => some_float (expand_dims_last r t)) vs
  | kFlatten => float1 (fun t => some_float (flatten t)) vs
  | kConv2D _ _ _ _ | kConv2DTranspose _ _ _ _ | kDense _ _ =>
      match vs with
      | [VF x; VF kernel; VF bias] =>
          Some (VF (Arr (map (layer_sample tf k kernel bias) (rows x))))
      | _ => None
      end
  | kSigmoid => float1 (fun t => some_float (tmap sigmoid t)) vs
  | kAdd => float2 (fun a b => opt_float (tbin Rplus a b)) vs
  | kSub => float2 (fun a b => opt_float (tbin Rminus a b)) vs
  | kNeg => float1 (fun t => some_float (tmap Ropp t)) vs
  | kMulConst c => float1 (fun t => some_float (tmap (Rmult (Q2R c)) t)) vs
  | kDivConst n => float1 (fun t => some_float (tmap (fun x => (x / INR n)%R) t)) vs
  | kPowConst n => float1 (fun t => some_float (tmap (fun x => pow x n) t)) vs
  | kSquare => float1 (fun t => some_float (tmap (fun x => (x * x)%R) t)) vs
  | kNorm axis =>
      float1 (fun t => opt_float (reduce_last (fun l => Some (euclidean l)) axis t)) vs
  | kArgMin axis => float1 (fun t => option_map VI (reduce_last argmin axis t)) vs
  | kArgMax axis => float1 (fun t => option_map VI (reduce_last argmax axis t)) vs
  | kOneHot depth =>
      match vs with
      | [VI t] => Some (VF (tone_hot depth t))
      | _ => None
      end
  | kCast _ =>
      match vs with
      | [VF t] => Some (VF t)
      | [VI t] => Some (VF (tmap INR t))
      | _ => None
      end
  | kGather =>
      match vs with
      | [VF params; VI indices] => option_map VF (gather (rows params) indices)
      | _ => None
      end
  | kStopGradient =>
      match vs with
      | [v] => Some v
      | _ => None
      end
  | kReduceMean None => float1 (fun t => some_float (Sc (Rmean (scalars t)))) vs
  | kReduceMean (Some axis) =>
      float1 (fun t => opt_float (reduce_last (fun l => Some (Rmean l)) axis t)) vs
  | kReduceSum axis =>
      float1 (fun t => opt_float (reduce_last (fun l => Some (Rsum l)) axis t)) vs
  | kAddN =>
      match floats vs with
      | Some ts => opt_float (add_n ts)
      | None => None
      end
  | kZero =>
      match vs with
      | [] => Some (VF (Sc 0%R))
      | _ => None
      end
  | kOnesLike => float1 (fun t => some_float (tmap (fun _ => 1%R) t)) vs
  | kSigmoidCrossEntropy =>
      float2 (fun labels logits => opt_float (tbin sigmoid_cross_entropy labels logits)) vs
  | kSquaredError =>
      float2 (fun labels predictions =>
                opt_float (tbin (fun a b => ((b - a) * (b - a))%R) labels predictions)) vs
  | kRegularizer c => float1 (fun w => some_float (Sc (regularizer_value tf c w))) vs
  | kRelaxedSample =>
      match vs with
      | [VF (Sc temperature); VF logits] =>
          opt_float (draw_each (fun b d l => vec (relaxed_draw tf rn b d temperature l))
                               logits)
      | _ => None
      end
  | kCatSample =>
      float1 (fun logits =>
                option_map VI
                  (draw_each (fun b d l =>
                                vec (map (fun j => if j =? categorical_draw tf rn b d l
                                                   then 1 else 0)
                                         (seq 0 (length l))))
                             logits)) vs
  | kKLCategorical => float2 (fun a b => opt_float (reduce_last2 kl_categorical 2 a b)) vs
  | kRelaxedLogProb =>
      match vs with
      | [VF (Sc temperature); VF logits; VF x] =>
          opt_float (reduce_last2 (relaxed_log_prob tf temperature) 2 logits x)
      | _ => None
      end
  | kWhere =>
      match vs with
      | [VB c; x; y] => Some (if c then x else y)
      | _ => None
      end
  | kSumToShape => float2 (fun g t => opt_float (sum_to_shape g t)) vs
  | kGrad k' i => grad_value tf k' i vs
  end.

(** [session.run(y, feed_dict=feed)]: a fed tensor takes the fed value;
    a placeholder that is needed and not fed is an error. *)
Fixpoint eval (tf : library) (s : session) (feed : list (node * value)) (y : node)
  : option value :=
  match lookup_feed feed y with
  | Some v => Some v
  | None =>
      match y with
      | Placeholder _ => None
      | Var n => Some (VF (variables s n))
      | Op k ins =>
          match mapM (eval tf s feed) ins with
          | Some vs => op_value tf (noise s) k vs
          | None => None
          end
      end
  end.

(* ================================================================== *)
(** * Part 4: the Python side *)
(* ================================================================== *)

(** Exceptions raised by the Python code or by the libraries it calls. *)
Inductive exn : Type :=
| AssertionError
| IndexError
| TypeError
| ValueError
| ZeroDivisionError
| InvalidArgumentError.

Inductive result (A : Type) : Type :=
| Ok (a : A)
| Raise (e : exn).

Arguments Ok {A} a.
Arguments Raise {A} e.

Definition rbind {A B} (r : result A) (f : A -> result B) : result B :=
  match r with
  | Ok a => f a
  | Raise e => Raise e
  end.

(** [assert c]. *)
Definition assert (c : bool) : result unit :=
  if c then Ok tt else Raise AssertionError.

(** Arguments passed where an enumeration member is expected. *)
Inductive pyval : Type :=
| PyNone
| PyInt (z : Z)
| PyStr (s : string)
| PyEnum (cls : string) (value : nat).

Definition pyval_eqb (a b : pyval) : bool :=
  match a, b with
  | PyNone, PyNone => true
  | PyInt x, PyInt y => Z.eqb x y
  | PyStr x, PyStr y => String.eqb x y
  | PyEnum c x, PyEnum d y => String.eqb c d && (x =? y)
  | _, _ => false
  end.

(** An [Enum] class: its name and the values of its members. *)
Record enum_class : Type := {
  enum_name : string;
  enum_values : list nat
}.

(** [x in cls]: [x] is a member of the enumeration [cls]. *)
Definition py_in (x : pyval) (cls : enum_class) : bool :=
  match x with
  | PyEnum c v => String.eqb c (enum_name cls) && existsb (Nat.eqb v) (enum_values cls)
  | _ => false
  end.

(** ** The graph under construction

    The layers register their variables and regularization losses in the
    collections of the default graph; a construction step may raise. *)
Record collections : Type := {
  trainable_variables : list string;
  regularization_losses : list node
}.

Definition empty_collections : collections :=
  {| trainable_variables := []; regularization_losses := [] |}.

Definition Graph (A : Type) : Type := collections -> result (A * collections).

Definition ret {A} (a : A) : Graph A := fun c => Ok (a, c).

Definition bind {A B} (m : Graph A) (f : A -> Graph B) : Graph B :=
  fun c =>
    match m c with
    | Ok (a, c') => f a c'
    | Raise e => Raise e
    end.

Definition raise {A} (e : exn) : Graph A := fun _ => Raise e.

Declare Scope graph_scope.
Delimit Scope graph_scope with graph.
Notation "x <- m ;; k" := (bind m (fun x => k))
  (at level 61, m at next level, right associativity) : graph_scope.
Notation "m ;;; k" := (bind m (fun _ => k))
  (at level 61, right associativity) : graph_scope.

Definition get_collections : Graph collections := fun c => Ok (c, c).

Definition add_trainable (name : string) : Graph unit :=
  fun c => Ok (tt, {| trainable_variables := trainable_variables c ++ [name];
                      regularization_losses := regularization_losses c |}).

Definition add_regularization_loss (l : node) : Graph unit :=
  fun c => Ok (tt, {| trainable_variables := trainable_variables c;
                      regularization_losses := regularization_losses c ++ [l] |}).

(** [l[i]]. *)
Definition index {A} (l : list A) (i : nat) : Graph A :=
  match nth_error l i with
  | Some x => ret x
  | None => raise IndexError
  end.

(** [for i in items: x = body(x, i)]. *)
Fixpoint for_each {A X} (items : list X) (body : A -> X -> Graph A) (x : A) : Graph A :=
  match items with
  | [] => ret x
  | i :: items' => bind (body x i) (for_each items' body)
  end.

(** [[body(i) for i in items]]. *)
Fixpoint for_list {X B} (body : X -> Graph B) (items : list X) : Graph (list B) :=
  match items with
  | [] => ret []
  | i :: items' =>
      bind (body i) (fun b => bind (for_list body items') (fun bs => ret (b :: bs)))
  end.

(** ["{:d}".format(n)]. *)
Definition format_d (n : nat) : string := NilEmpty.string_of_uint (Nat.to_uint n).

(** [tf.get_collection(tf.GraphKeys.TRAINABLE_VARIABLES, scope)]: the
    variables whose name starts with [scope]. *)
Definition trainable_in (scope : string) (c : collections) : list node :=
  map Var (filter (String.prefix scope) (trainable_variables c)).

(** The losses a layer registers for its kernel: what the regularizer
    returns for it, nothing when there is no regularizer or when the
    regularizer returns [None] (as [l2_regularizer] does for the scale
    0.0). *)
Definition kernel_losses (kernel_regularizer : option (node -> option node))
    (kernel : node) : list node :=
  match kernel_regularizer with
  | Some r =>
      match r kernel with
      | Some l => [l]
      | None => []
      end
  | None => []
  end.

(** ** Layers of [tf.layers]

    A layer called inside [tf.variable_scope(scope)] creates its kernel and
    bias under that scope, registers both as trainable and registers the
    penalty of its kernel when a regularizer is given and returns one.

    The checks [tf.layers] makes on static shapes and attributes when a
    layer is created (the rank of the input of a convolution, a stride
    of 0) are not part of this model, and neither are those of the
    operations and loss functions of [build_training] on the shapes of
    their two inputs: a graph can be built here that TensorFlow refuses
    to build.  The properties of built graphs are therefore stated for a
    [build_all] that returned. *)
Definition layer (scope type_name : string) (k : opkind) (x : node)
    (kernel_regularizer : option (node -> option node)) : Graph node :=
  let kernel := (scope ++ "/" ++ type_name ++ "/kernel")%string in
  let bias := (scope ++ "/" ++ type_name ++ "/bias")%string in
  (add_trainable kernel ;;;
   match kernel_regularizer with
   | Some r =>
       match r (Var kernel) with
       | Some l => add_regularization_loss l
       | None => ret tt
       end
   | None => ret tt
   end ;;;
   add_trainable bias ;;;
   ret (Op k [x; Var kernel; Var bias]))%graph.

Definition conv2d (scope : string) (x : node) (filters size stride : nat)
    (relu : bool) (reg : option (node -> option node)) : Graph node :=
  layer scope "conv2d" (kConv2D filters size stride relu) x reg.

Definition conv2d_transpose (scope : string) (x : node) (filters size stride : nat)
    (relu : bool) (reg : option (node -> option node)) : Graph node :=
  layer scope "conv2d_transpose" (kConv2DTranspose filters size stride relu) x reg.

Definition dense (scope : string) (x : node) (units : nat) (relu : bool)
    (reg : option (node -> option node)) : Graph node :=
  layer scope "dense" (kDense units relu) x reg.

(** [optimizer.apply_gradients]: it refuses a list without any gradient. *)
Definition apply_gradients (rate : learning_rate_t) (gvs : list (option node * node))
  : result train_op :=
  if existsb (fun gv => match fst gv with Some _ => true | None => false end) gvs
  then Ok (ApplyGradients rate gvs)
  else Raise ValueError.

(** [optimizer.minimize(loss)]: the gradient of [loss] for every trainable
    variable, then [apply_gradients]. *)
Definition minimize (rate : learning_rate_t) (loss : node) (c : collections)
  : result train_op :=
  apply_gradients rate (map (fun v => (gradients loss v, v)) (trainable_in "" c)).

(** [np.concatenate(parts, axis=0)]. *)
Definition concatenate {A} (parts : list (tensor A)) : result (tensor A) :=
  match parts with
  | [] => Raise ValueError
  | _ => Ok (Arr (flat_map rows parts))
  end.

(** [int(np.ceil(n / batch_size))]. *)
Definition num_steps_of (n batch_size : nat) : result nat :=
  if batch_size =? 0 then Raise ZeroDivisionError
  else Ok (if n mod batch_size =? 0 then n / batch_size else S (n / batch_size)).

(** [session.run(fetch, feed_dict=feed)]. *)
Definition run (tf : library) (s : session) (fetch : node) (feed : list (node * value))
  : result value :=
  match eval tf s feed fetch with
  | Some v => Ok v
  | None => Raise InvalidArgumentError
  end.

(** [np.random.randint(low, high, size=(rows, cols))]: an empty range is
    refused, unless no entry is asked for. *)
Definition randint (tf : library) (st : rng) (low high rows cols : nat)
  : result (list (list nat)) :=
  if (high <=? low) && negb (rows * cols =? 0) then Raise ValueError
  else Ok (map (fun i => map (fun j => low + random_integer tf st i j mod (high - low))
                             (seq 0 cols))
               (seq 0 rows)).

(** [np.zeros((n, l, e))]. *)
Definition zeros (n l e : nat) : tensor R := cube (repeat (repeat (repeat 0%R e) l) n).


(** [inputs[start:stop]] on the first axis. *)
Definition slice {A} (start stop : nat) (l : list A) : list A :=
  firstn (stop - start) (skipn start l).

(* ================================================================== *)
(** * Part 5: [VQ_VAE] ([vq_vae_conv.py]) *)
(* ================================================================== *)

Module VQ_VAE.

Definition LossType : enum_class :=
  {| enum_name := "VQ_VAE.LossType"; enum_values := [1; 2; 3] |}.
Definition SIGMOID_CROSS_ENTROPY : pyval := PyEnum "VQ_VAE.LossType" 1.
Definition L2 : pyval := PyEnum "VQ_VAE.LossType" 2.
Definition L2_WITH_SIGMOID : pyval := PyEnum "VQ_VAE.LossType" 3.

(** The arguments of the constructor, which become the attributes of the
    object. *)
Record config : Type := {
  input_shape : list nat;
  encoder_filters : list nat;
  encoder_filter_sizes : list nat;
  encoder_strides : list nat;
  encoder_neurons : list nat;
  decoder_neurons : list nat;
  decoder_filters : list nat;
  decoder_filter_sizes : list nat;
  decoder_strides : list nat;
  latent_size : nat;
  num_embeddings : nat;
  embedding_size : nat;
  loss_type : pyval;
  weight_decay : Q;
  learning_rate : Q;
  beta1 : Q;
  beta2 : Q;
  lr_decay_val : option Q;
  lr_decay_steps : option nat
}.

(** [VQ_VAE.__init__]: the three assertions, then the attributes. *)
Definition init (args : config) : result config :=
  rbind (assert (py_in (loss_type args) LossType)) (fun _ =>
  rbind (assert ((length (encoder_filters args) =? length (encoder_filter_sizes args))
                 && (length (encoder_filter_sizes args) =? length (encoder_strides args))))
        (fun _ =>
  rbind (assert ((length (decoder_filters args) =? length (decoder_filter_sizes args))
                 && (length (decoder_filter_sizes args) =? length (decoder_strides args))))
        (fun _ =>
  Ok args))).

(** The tensors the object keeps after [build_all]. *)
Record graph : Type := {
  input_pl : node;
  input_flat_t : node;
  pred_embeds : node;
  embeds : node;
  diff : node;
  norm : node;
  classes : node;
  collected_embeds : node;
  flat_collected_embeds : node;
  logits_t : node;
  flat_logits_t : node;
  output_t : node;
  full_output_loss_t : node;
  output_loss_t : node;
  left_loss_t : node;
  right_loss_t : node;
  reg_loss_t : node;
  loss_t : node;
  global_step : node;
  step_op : train_op
}.

Section Build.

(** [utils.get_weight_regularizer] is not among the sources: the
    regularizer it returns for a weight decay (a function from a kernel
    to its penalty, or [None]) is a parameter. *)
Variable get_weight_regularizer : Q -> option (node -> option node).

Variable self : config.

Definition flat_input_shape : nat := prod (input_shape self).

(** [build_placeholders]. *)
Definition build_placeholders : node * node :=
  let input_pl := Placeholder "input_pl" in
  (input_pl, Op (kReshape SameBatch flat_input_shape []) [input_pl]).

(** [build_encoder]. *)
Definition build_encoder (input_t : node) : Graph node :=
  (let x := Op (kExpandDims (S (length (input_shape self)))) [input_t] in
   x <- for_each (seq 0 (length (encoder_filters self)))
          (fun x idx =>
             f <- index (encoder_filters self) idx ;;
             s <- index (encoder_filter_sizes self) idx ;;
             t <- index (encoder_strides self) idx ;;
             conv2d ("model/encoder/conv" ++ format_d (idx + 1)) x f s t true
                    (get_weight_regularizer (weight_decay self))) x ;;
   let x := Op kFlatten [x] in
   x <- for_each (indexed (encoder_neurons self))
          (fun x i_n =>
             dense ("model/encoder/fc" ++ format_d (fst i_n + 1)) x (snd i_n) true
                   (get_weight_regularizer (weight_decay self))) x ;;
   dense "model/encoder/final_fc" x (latent_size self * embedding_size self) true
         (get_weight_regularizer (weight_decay self)))%graph.

(** [embedding_difference]. *)
Definition embedding_difference (predictions actual : node) : node :=
  Op kSub [Op (kSlice [false; false; true; false]) [predictions];
           Op (kSlice [true; true; false; false]) [actual]].

(** What [build_middle] stores in the object. *)
Record middle : Type := {
  m_embeds : node;
  m_pred_embeds : node;
  m_diff : node;
  m_norm : node;
  m_classes : node;
  m_collected_embeds : node;
  m_flat_collected_embeds : node
}.

(** [build_middle], from the [pred_embeds] left by [build_encoder]. *)
Definition build_middle (pred_embeds0 : node) : Graph middle :=
  (add_trainable "model/middle/embeddings" ;;;
   let embeds := Var "model/middle/embeddings" in
   let pred_embeds :=
     Op (kReshape Infer (latent_size self) [embedding_size self]) [pred_embeds0] in
   let diff := embedding_difference pred_embeds embeds in
   let norm := Op (kNorm 3) [diff] in
   let classes := Op (kArgMin 2) [norm] in
   let collected_embeds := Op kGather [embeds; classes] in
   let flat_collected_embeds :=
     Op (kReshape Infer (latent_size self * embedding_size self) [])
        [collected_embeds] in
   ret {| m_embeds := embeds; m_pred_embeds := pred_embeds; m_diff := diff;
          m_norm := norm; m_classes := classes;
          m_collected_embeds := collected_embeds;
          m_flat_collected_embeds := flat_collected_embeds |})%graph.

(** [build_decoder]: [(logits_t, flat_logits_t, output_t)]. *)
Definition build_decoder (input_t : node) : Graph (node * node * node) :=
  (x <- for_each (indexed (decoder_neurons self))
          (fun x i_n =>
             dense ("model/decoder/fc" ++ format_d (fst i_n + 1)) x (snd i_n) true
                   (get_weight_regularizer (weight_decay self))) input_t ;;
   let x := Op (kSlice [false; true; true; false]) [x] in
   x <- for_each (seq 0 (length (decoder_filters self)))
          (fun x idx =>
             f <- index (decoder_filters self) idx ;;
             s <- index (decoder_filter_sizes self) idx ;;
             t <- index (decoder_strides self) idx ;;
             conv2d_transpose ("model/decoder/conv" ++ format_d (idx + 1)) x f s t
               (negb (idx =? length (decoder_filters self) - 1))
               (get_weight_regularizer (weight_decay self))) x ;;
   let logits_t := x in
   if pyval_eqb (loss_type self) SIGMOID_CROSS_ENTROPY then
     ret (logits_t, Op kFlatten [logits_t], Op kSigmoid [logits_t])
   else if pyval_eqb (loss_type self) L2 then
     ret (logits_t, Op kFlatten [logits_t], logits_t)
   else
     let logits_t := Op kSigmoid [logits_t] in
     ret (logits_t, Op kFlatten [logits_t], logits_t))%graph.

(** [build_network]: encoder, middle and decoder under the scope
    ["model"]. *)
Definition build_network (input_pl : node) : Graph (middle * (node * node * node)) :=
  (pe <- build_encoder input_pl ;;
   m <- build_middle pe ;;
   d <- build_decoder (m_flat_collected_embeds m) ;;
   ret (m, d))%graph.

(** The learning rate of [build_training]. *)
Definition training_rate (global_step : node) : learning_rate_t :=
  match lr_decay_val self, lr_decay_steps self with
  | Some val, Some steps =>
      ExponentialDecay (learning_rate self) global_step steps val
  | _, _ => ConstantRate (learning_rate self)
  end.

(** One element of the comprehension that makes [encoder_grads]: a
    missing gradient makes [+] or [*] raise. *)
Definition encoder_grad (pred_embeds right_loss_t : node) (grad_z : option node)
    (var : node) : Graph (option node * node) :=
  match gradients_from pred_embeds var
                       (match grad_z with
                        | Some g => g
                        | None => Op kOnesLike [pred_embeds]
                        end),
        gradients right_loss_t var with
  | Some a, Some b => ret (Some (Op kAdd [a; Op (kMulConst (beta2 self)) [b]]), var)
  | _, _ => raise TypeError
  end.

(** The losses of [build_training]. *)
Definition full_output_loss (input_flat_t flat_logits_t : node) : node :=
  if pyval_eqb (loss_type self) SIGMOID_CROSS_ENTROPY then
    Op (kReduceMean (Some 1)) [Op kSigmoidCrossEntropy [input_flat_t; flat_logits_t]]
  else
    Op (kReduceMean (Some 1)) [Op kSquare [Op kSub [input_flat_t; flat_logits_t]]].

Definition output_loss (input_flat_t flat_logits_t : node) : node :=
  Op (kReduceMean (Some 0)) [full_output_loss input_flat_t flat_logits_t].

Definition left_loss (pred_embeds collected_embeds : node) : node :=
  Op (kReduceMean None)
     [Op (kPowConst 2)
         [Op (kNorm 2) [Op kSub [Op kStopGradient [pred_embeds]; collected_embeds]]]].

Definition right_loss (pred_embeds collected_embeds : node) : node :=
  Op (kReduceMean None)
     [Op (kPowConst 2)
         [Op (kNorm 2) [Op kSub [pred_embeds; Op kStopGradient [collected_embeds]]]]].

Definition reg_loss (reg_losses : list node) : node :=
  if 0 <? length reg_losses then Op kAddN reg_losses else Op kZero [].

Definition total_loss (output_loss_t left_loss_t right_loss_t reg_loss_t : node)
  : node :=
  Op kAdd [Op kAdd [Op kAdd [output_loss_t; Op (kMulConst (beta1 self)) [left_loss_t]];
                    Op (kMulConst (beta2 self)) [right_loss_t]];
           reg_loss_t].

(** [build_training]. *)
Definition build_training (input_pl input_flat_t : node) (m : middle)
    (d : node * node * node) : Graph graph :=
  (let '(logits_t, flat_logits_t, output_t) := d in
   let full_output_loss_t := full_output_loss input_flat_t flat_logits_t in
   let output_loss_t := output_loss input_flat_t flat_logits_t in
   let left_loss_t := left_loss (m_pred_embeds m) (m_collected_embeds m) in
   let right_loss_t := right_loss (m_pred_embeds m) (m_collected_embeds m) in
   c <- get_collections ;;
   let reg_loss_t := reg_loss (regularization_losses c) in
   let loss_t := total_loss output_loss_t left_loss_t right_loss_t reg_loss_t in
   let global_step := Var "global_step" in
   let rate := training_rate global_step in
   let decoder_vars := trainable_in "model/decoder" c in
   let decoder_grads := map (fun v => (gradients loss_t v, v)) decoder_vars in
   let encoder_vars := trainable_in "model/encoder" c in
   let grad_z := gradients output_loss_t (m_collected_embeds m) in
   encoder_grads <- for_list (encoder_grad (m_pred_embeds m) right_loss_t grad_z)
                             encoder_vars ;;
   let embed_grads := [(gradients left_loss_t (m_embeds m), m_embeds m)] in
   match apply_gradients rate (decoder_grads ++ encoder_grads ++ embed_grads) with
   | Raise e => raise e
   | Ok step_op =>
       ret {| input_pl := input_pl; input_flat_t := input_flat_t;
              pred_embeds := m_pred_embeds m; embeds := m_embeds m;
              diff := m_diff m; norm := m_norm m; classes := m_classes m;
              collected_embeds := m_collected_embeds m;
              flat_collected_embeds := m_flat_collected_embeds m;
              logits_t := logits_t; flat_logits_t := flat_logits_t;
              output_t := output_t; full_output_loss_t := full_output_loss_t;
              output_loss_t := output_loss_t; left_loss_t := left_loss_t;
              right_loss_t := right_loss_t; reg_loss_t := reg_loss_t;
              loss_t := loss_t; global_step := global_step; step_op := step_op |}
   end)%graph.

(** [build_all], in a fresh default graph. *)
Definition build_all : result graph :=
  let '(input_pl, input_flat_t) := build_placeholders in
  match (md <- build_network input_pl ;;
         build_training input_pl input_flat_t (fst md) (snd md))%graph
          empty_collections with
  | Ok (g, _) => Ok g
  | Raise e => Raise e
  end.

End Build.

Section Run.

Variable tf : library.
Variable self : config.
Variable g : graph.

(** The loop of [encode]: one [session.run] per step, appended to
    [encodings]. *)
Fixpoint encode_steps (s : session) (inputs : list (tensor R)) (batch_size : nat)
    (steps : list nat) : result (list (tensor nat)) :=
  match steps with
  | [] => Ok []
  | step_idx :: steps' =>
      let batch := slice (step_idx * batch_size) ((step_idx + 1) * batch_size) inputs in
      rbind (run tf s (classes g) [(input_pl g, VF (Arr batch))]) (fun tmp_encoding =>
      match tmp_encoding with
      | VI t => rbind (encode_steps s inputs batch_size steps') (fun ts => Ok (t :: ts))
      | _ => Raise TypeError
      end)
  end.

(** [encode(inputs, batch_size)]. *)
Definition encode (s : session) (inputs : list (tensor R)) (batch_size : nat)
  : result (tensor nat) :=
  rbind (num_steps_of (length inputs) batch_size) (fun num_steps =>
  rbind (encode_steps s inputs batch_size (seq 0 num_steps)) (fun encodings =>
  concatenate encodings)).

(** The feed dictionary shared by [decode] and [predict]. *)
Definition classes_feed (cls : list (list nat)) (n : nat) : list (node * value) :=
  [(classes g, VI (mat cls));
   (pred_embeds g, VF (zeros n (latent_size self) (embedding_size self)))].

(** [outputs[:, :, :, 0]]. *)
Definition first_channel (outputs : value) : result (tensor R) :=
  match outputs with
  | VF t =>
      match index_at 3 0 t with
      | Some o => Ok o
      | None => Raise IndexError
      end
  | _ => Raise TypeError
  end.

(** [decode(classes)]. *)
Definition decode (s : session) (cls : list (list nat)) : result (tensor R) :=
  rbind (run tf s (output_t g) (classes_feed cls (length cls))) first_channel.

(** [predict(num_samples)], from the state [np] of numpy's generator. *)
Definition predict (s : session) (np : rng) (num_samples : nat)
  : result (tensor R * list (list nat)) :=
  rbind (randint tf np 0 (num_embeddings self) num_samples (latent_size self))
        (fun cls =>
  rbind (run tf s (output_t g) (classes_feed cls num_samples)) (fun outputs =>
  rbind (first_channel outputs) (fun o => Ok (o, cls)))).

End Run.

End VQ_VAE.

(* ================================================================== *)
(** * Part 6: [SG_VAE] ([sg_vae_conv.py]) *)
(* ================================================================== *)

Module SG_VAE.

Definition LossType : enum_class :=
  {| enum_name := "SG_VAE.LossType"; enum_values := [1; 2] |}.
Definition SIGMOID_CROSS_ENTROPY : pyval := PyEnum "SG_VAE.LossType" 1.
Definition L2 : pyval := PyEnum "SG_VAE.LossType" 2.

Definition KLType : enum_class :=
  {| enum_name := "SG_VAE.KLType"; enum_values := [1; 2] |}.
Definition CATEGORICAL : pyval := PyEnum "SG_VAE.KLType" 1.
Definition RELAXED : pyval := PyEnum "SG_VAE.KLType" 2.

Record config : Type := {
  input_shape : list nat;
  encoder_filters : list nat;
  encoder_filter_sizes : list nat;
  encoder_strides : list nat;
  encoder_neurons : list nat;
  decoder_neurons : list nat;
  decoder_filters : list nat;
  decoder_filter_sizes : list nat;
  decoder_strides : list nat;
  num_distributions : nat;
  num_classes : nat;
  loss_type : pyval;
  weight_decay : Q;
  learning_rate : Q;
  kl_type : pyval;
  disable_kl_loss : bool;
  straight_through : bool
}.

(** [SG_VAE.__init__]: the three assertions, then the attributes. *)
Definition init (args : config) : result config :=
  rbind (assert (py_in (loss_type args) LossType)) (fun _ =>
  rbind (assert ((length (encoder_filters args) =? length (encoder_filter_sizes args))
                 && (length (encoder_filter_sizes args) =? length (encoder_strides args))))
        (fun _ =>
  rbind (assert ((length (decoder_filters args) =? length (decoder_filter_sizes args))
                 && (length (decoder_filter_sizes args) =? length (decoder_strides args))))
        (fun _ =>
  Ok args))).

(** The tensors the object keeps after [build_all]. *)
Record graph : Type := {
  input_pl : node;
  input_flat_t : node;
  temperature_pl : node;
  is_training_pl : node;
  sample_t : node;
  kl_divergence_t : node;
  probs_t : node;
  logits_t : node;
  flat_logits_t : node;
  output_t : node;
  full_output_loss_t : node;
  output_loss_t : node;
  kl_loss_t : node;
  reg_loss_t : node;
  loss_t : node;
  step_op : train_op
}.

Section Build.

(** [utils.get_weight_regularizer], as for [VQ_VAE]. *)
Variable get_weight_regularizer : Q -> option (node -> option node).

Variable self : config.

Definition flat_input_shape : nat := prod (input_shape self).

(** The placeholders of [build_placeholders]. *)
Definition the_input_pl : node := Placeholder "input_pl".
Definition the_temperature_pl : node := Placeholder "temperature_pl".
Definition the_is_training_pl : node := Placeholder "is_training_pl".
Definition the_input_flat_t : node :=
  Op (kReshape SameBatch flat_input_shape []) [the_input_pl].

(** [build_encoder]. *)
Definition build_encoder (input_t : node) : Graph node :=
  (let x := Op (kExpandDims (S (length (input_shape self)))) [input_t] in
   x <- for_each (seq 0 (length (encoder_filters self)))
          (fun x idx =>
             f <- index (encoder_filters self) idx ;;
             s <- index (encoder_filter_sizes self) idx ;;
             t <- index (encoder_strides self) idx ;;
             conv2d ("model/encoder/conv" ++ format_d (idx + 1)) x f s t true
                    (get_weight_regularizer (weight_decay self))) x ;;
   let x := Op kFlatten [x] in
   for_each (indexed (encoder_neurons self))
     (fun x i_n =>
        dense ("model/encoder/fc" ++ format_d (fst i_n + 1)) x (snd i_n) true
              (get_weight_regularizer (weight_decay self))) x)%graph.

(** The relaxed sample of [build_middle], before the straight-through
    correction. *)
Definition relaxed_sample (logits_reshaped_t : node) : node :=
  Op kRelaxedSample [the_temperature_pl; logits_reshaped_t].

(** The two lines guarded by [if self.straight_through]. *)
Definition hard_sample (sg_sample_t : node) : node :=
  Op (kCast true) [Op (kOneHot (num_classes self)) [Op (kArgMax 2) [sg_sample_t]]].

Definition straight_through_sample (sg_sample_t : node) : node :=
  Op kAdd [Op kStopGradient [Op kSub [hard_sample sg_sample_t; sg_sample_t]];
           sg_sample_t].

(** The tensors of [build_middle], from [logits_reshaped_t]. *)
Definition sg_sample (logits_reshaped_t : node) : node :=
  let sg_sample_t := relaxed_sample logits_reshaped_t in
  if straight_through self then straight_through_sample sg_sample_t
  else sg_sample_t.

Definition cat_sample (logits_reshaped_t : node) : node :=
  Op (kCast false) [Op kCatSample [logits_reshaped_t]].

Definition flat_sample (sample_t : node) : node :=
  Op (kReshape SameBatch (num_distributions self * num_classes self) []) [sample_t].

Definition prior_logits (logits_reshaped_t : node) : node :=
  Op (kDivConst (num_classes self)) [Op kOnesLike [logits_reshaped_t]].

Definition kl_divergence (logits_reshaped_t : node) : node :=
  if pyval_eqb (kl_type self) CATEGORICAL || straight_through self then
    Op kKLCategorical [logits_reshaped_t; prior_logits logits_reshaped_t]
  else
    Op kSub [Op kRelaxedLogProb [the_temperature_pl; logits_reshaped_t;
                                 sg_sample logits_reshaped_t];
             Op kRelaxedLogProb [the_temperature_pl; prior_logits logits_reshaped_t;
                                 sg_sample logits_reshaped_t]].

Definition selected_sample (logits_reshaped_t : node) : node :=
  Op kWhere [the_is_training_pl;
             flat_sample (sg_sample logits_reshaped_t);
             flat_sample (cat_sample logits_reshaped_t)].

(** [build_middle]: [(sample_reshaped_t, kl_divergence_t,
    logits_reshaped_t)]. *)
Definition build_middle (input_t : node) : Graph (node * node * node) :=
  (logits_t <- dense "model/middle" input_t
                 (num_distributions self * num_classes self) false
                 (get_weight_regularizer (weight_decay self)) ;;
   let logits_reshaped_t :=
     Op (kReshape SameBatch (num_distributions self) [num_classes self]) [logits_t] in
   ret (selected_sample logits_reshaped_t, kl_divergence logits_reshaped_t,
        logits_reshaped_t))%graph.

(** [build_decoder]: [(logits_t, flat_logits_t, output_t)]. *)
Definition build_decoder (input_t : node) : Graph (node * node * node) :=
  (x <- for_each (indexed (decoder_neurons self))
          (fun x i_n =>
             dense ("model/decoder/fc" ++ format_d (fst i_n + 1)) x (snd i_n) true
                   (get_weight_regularizer (weight_decay self))) input_t ;;
   let x := Op (kSlice [false; true; true; false]) [x] in
   x <- for_each (seq 0 (length (decoder_filters self)))
          (fun x idx =>
             f <- index (decoder_filters self) idx ;;
             s <- index (decoder_filter_sizes self) idx ;;
             t <- index (decoder_strides self) idx ;;
             conv2d_transpose ("model/decoder/conv" ++ format_d (idx + 1)) x f s t
               (negb (idx =? length (decoder_filters self) - 1))
               (get_weight_regularizer (weight_decay self))) x ;;
   let logits_t := x in
   let flat_logits_t := Op kFlatten [x] in
   if pyval_eqb (loss_type self) SIGMOID_CROSS_ENTROPY then
     ret (logits_t, flat_logits_t, Op kSigmoid [logits_t])
   else
     ret (logits_t, flat_logits_t, logits_t))%graph.

(** [build_network]: the sample of the middle layer is the input of
    the decoder. *)
Definition build_network : Graph ((node * node * node) * (node * node * node)) :=
  (x <- build_encoder the_input_pl ;;
   m <- build_middle x ;;
   d <- build_decoder (fst (fst m)) ;;
   ret (m, d))%graph.

(** [build_training]. *)
Definition build_training (m d : node * node * node) : Graph graph :=
  (let '(sample_t, kl_divergence_t, probs_t) := m in
   let '(logits_t, flat_logits_t, output_t) := d in
   let full_output_loss_t :=
     if pyval_eqb (loss_type self) SIGMOID_CROSS_ENTROPY then
       Op (kReduceSum 1) [Op kSigmoidCrossEntropy [the_input_flat_t; flat_logits_t]]
     else
       Op (kReduceSum 1) [Op kSquaredError [the_input_flat_t; flat_logits_t]] in
   let output_loss_t := Op (kReduceMean (Some 0)) [full_output_loss_t] in
   let kl_loss_t := Op (kReduceMean None) [Op (kReduceSum 1) [kl_divergence_t]] in
   c <- get_collections ;;
   reg_loss_t <- match regularization_losses c with
                 | [] => raise ValueError
                 | ls => ret (Op kAddN ls)
                 end ;;
   let loss_t :=
     if disable_kl_loss self then Op kAdd [output_loss_t; reg_loss_t]
     else Op kAdd [Op kAdd [output_loss_t; kl_loss_t]; reg_loss_t] in
   match minimize (ConstantRate (learning_rate self)) loss_t c with
   | Raise e => raise e
   | Ok step_op =>
       ret {| input_pl := the_input_pl; input_flat_t := the_input_flat_t;
              temperature_pl := the_temperature_pl;
              is_training_pl := the_is_training_pl;
              sample_t := sample_t; kl_divergence_t := kl_divergence_t;
              probs_t := probs_t; logits_t := logits_t;
              flat_logits_t := flat_logits_t; output_t := output_t;
              full_output_loss_t := full_output_loss_t;
              output_loss_t := output_loss_t; kl_loss_t := kl_loss_t;
              reg_loss_t := reg_loss_t; loss_t := loss_t; step_op := step_op |}
   end)%graph.

(** [build_all], in a fresh default graph. *)
Definition build_all : result graph :=
  match (md <- build_network ;; build_training (fst md) (snd md))%graph
          empty_collections with
  | Ok (g, _) => Ok g
  | Raise e => Raise e
  end.

End Build.

Section Run.

Variable tf : library.
Variable g : graph.

(** The feed dictionary of [encode] for one batch; [encode] feeds the
    temperature 1.0. *)
Definition encode_feed (batch : list (tensor R)) (temperature : R)
  : list (node * value) :=
  [(input_pl g, VF (Arr batch));
   (is_training_pl g, VB false);
   (temperature_pl g, VF (Sc temperature))].

(** The loop of [encode], with the value fed for the temperature as a
    parameter.  Every [session.run] draws from the random generators
    and moves them on. *)
Fixpoint encode_steps (temperature : R) (s : session) (inputs : list (tensor R))
    (batch_size : nat) (steps : list nat) : result (list (tensor R)) :=
  match steps with
  | [] => Ok []
  | step_idx :: steps' =>
      let batch := slice (step_idx * batch_size) ((step_idx + 1) * batch_size) inputs in
      rbind (run tf s (sample_t g) (encode_feed batch temperature)) (fun tmp_encoding =>
      match tmp_encoding with
      | VF t =>
          rbind (encode_steps temperature
                   {| variables := variables s; noise := next_rng (noise s) |}
                   inputs batch_size steps')
                (fun ts => Ok (t :: ts))
      | _ => Raise TypeError
      end)
  end.

Definition encode_with (temperature : R) (s : session) (inputs : list (tensor R))
    (batch_size : nat) : result (tensor R) :=
  rbind (num_steps_of (length inputs) batch_size) (fun num_steps =>
  rbind (encode_steps temperature s inputs batch_size (seq 0 num_steps))
        (fun encodings => concatenate encodings)).

(** [encode(inputs, batch_size)]. *)
Definition encode : session -> list (tensor R) -> nat -> result (tensor R) :=
  encode_with 1%R.

End Run.

Section Sampling.

Variable tf : library.
Variable self : config.
Variable g : graph.

(** [np.ones((num_samples, num_distributions, num_classes)) / num_classes]. *)
Definition uniform_probs (num_samples : nat) : tensor R :=
  cube (repeat (repeat (repeat (1 / INR (num_classes self))%R (num_classes self))
                       (num_distributions self))
               num_samples).

(** The feed dictionary of [predict]; [predict] feeds the temperature
    1.0. *)
Definition predict_feed (num_samples : nat) (temperature : R) : list (node * value) :=
  [(probs_t g, VF (uniform_probs num_samples));
   (is_training_pl g, VB false);
   (temperature_pl g, VF (Sc temperature))].

Definition predict_with (temperature : R) (s : session) (num_samples : nat)
  : result (tensor R) :=
  rbind (run tf s (output_t g) (predict_feed num_samples temperature))
        VQ_VAE.first_channel.

(** [predict(num_samples)]. *)
Definition predict : session -> nat -> result (tensor R) := predict_with 1%R.

(** The loop of [get_log_likelihood]: one [session.run] of
    [full_output_loss_t] per step. *)
Fixpoint log_likelihood_steps (s : session) (data : list (tensor R)) (batch_size : nat)
    (steps : list nat) : result (list (tensor R)) :=
  match steps with
  | [] => Ok []
  | idx :: steps' =>
      let batch := slice (idx * batch_size) ((idx + 1) * batch_size) data in
      rbind (run tf s (full_output_loss_t g) (encode_feed g batch 1%R)) (fun ll =>
      match ll with
      | VF t =>
          rbind (log_likelihood_steps
                   {| variables := variables s; noise := next_rng (noise s) |}
                   data batch_size steps')
                (fun ts => Ok (t :: ts))
      | _ => Raise TypeError
      end)
  end.

(** [get_log_likelihood(data, batch_size)]: [- np.concatenate(lls)]. *)
Definition get_log_likelihood (s : session) (data : list (tensor R)) (batch_size : nat)
  : result (tensor R) :=
  rbind (num_steps_of (length data) batch_size) (fun num_steps =>
  rbind (log_likelihood_steps s data batch_size (seq 0 num_steps)) (fun lls =>
  rbind (concatenate lls) (fun t => Ok (tmap Ropp t)))).

End Sampling.

End SG_VAE.

(* ================================================================== *)
(** * Part 7: functions used to state the properties *)
(* ================================================================== *)

(** The difference of two vectors of the same length. *)
Definition vsub (p c : list R) : list R :=
  map (fun t => (fst t - snd t)%R) (combine p c).

(** The Euclidean distance between a predicted embedding and a codebook
    vector. *)
Definition distance (p c : list R) : R := euclidean (vsub p c).

(** The distances from [p] to every codebook vector, and the position
    [tf.argmin] picks among them. *)
Definition distances (codebook : list (list R)) (p : list R) : list R :=
  map (distance p) codebook.

Definition nearest (codebook : list (list R)) (p : list R) : nat :=
  match argmin (distances codebook p) with
  | Some a => a
  | None => 0
  end.

(** A feed dictionary that feeds placeholders only. *)
Definition is_placeholder (y : node) : bool :=
  match y with
  | Placeholder _ => true
  | _ => false
  end.

Definition feeds_placeholders (feed : list (node * value)) : bool :=
  forallb (fun kv => is_placeholder (fst kv)) feed.

(** A batch of shape [(batch, l, e)]. *)
Definition cube_shape {A} (l e : nat) (c : list (list (list A))) : Prop :=
  Forall (fun row => length row = l /\ Forall (fun p => length p = e) row) c.

(** A matrix with rows of length [e]. *)
Definition mat_shape {A} (e : nat) (m : list (list A)) : Prop :=
  Forall (fun r => length r = e) m.

(** The gradients reaching the inputs [l] (the inputs of [Op k ins] from
    position [i] on) when [g] reaches the output: the list summed by
    [gradients_from]. *)
Fixpoint input_grads (k : opkind) (ins : list node) (x g : node) (i : nat)
    (l : list node) : list (option node) :=
  match l with
  | [] => []
  | a :: l' =>
      (if differentiable k i then gradients_from a x (vjp k i ins g) else None)
        :: input_grads k ins x g (S i) l'
  end.

(** The shape of a tensor: the tensor with its entries erased. *)
Definition shape {A} (t : tensor A) : tensor unit := tmap (fun _ => tt) t.

(** The shape of a value, with its type; a boolean is its own shape. *)
Inductive value_shape : Type :=
| FloatShape (sh : tensor unit)
| IntShape (sh : tensor unit)
| BoolShape (b : bool).

Definition shape_of_value (v : value) : value_shape :=
  match v with
  | VF t => FloatShape (shape t)
  | VI t => IntShape (shape t)
  | VB b => BoolShape b
  end.

(** Two runs agree on whether a tensor has a value and on its shape. *)
Definition same_outcome (a b : option value) : Prop :=
  option_map shape_of_value a = option_map shape_of_value b.

(** [tf.argmax] along one vector, as a number. *)
Definition argmax_index (l : list R) : nat :=
  match argmax l with
  | Some a => a
  | None => 0
  end.

(** The names of the two variables of a layer. *)
Definition kernel_name (scope type_name : string) : string :=
  (scope ++ "/" ++ type_name ++ "/kernel")%string.

Definition bias_name (scope type_name : string) : string :=
  (scope ++ "/" ++ type_name ++ "/bias")%string.

Definition is_layer (k : opkind) : bool :=
  match k with
  | kConv2D _ _ _ _ | kConv2DTranspose _ _ _ _ | kDense _ _ => true
  | _ => false
  end.

(** One layer added on top of [x]: its two variables, under the scope
    [pre], join the trainable variables. *)
Definition layer_step (pre : string) (x : node) (c : collections) (x' : node)
    (c' : collections) : Prop :=
  exists k kn bn rl,
    is_layer k = true
    /\ String.prefix pre kn = true
    /\ String.prefix pre bn = true
    /\ x' = Op k [x; Var kn; Var bn]
    /\ trainable_variables c' = trainable_variables c ++ [kn; bn]
    /\ regularization_losses c' = regularization_losses c ++ rl.

(** Operations with one input that reshape or squash their argument. *)
Definition is_wrapper (k : opkind) : bool :=
  match k with
  | kExpandDims (S _) | kFlatten | kSlice (false :: _) | kSigmoid => true
  | _ => false
  end.

(** The name of the codebook variable. *)
Definition embeddings_name : string := "model/middle/embeddings".

(** [y] is computed sample by sample from the batch fed to [input]. *)
Definition samplewise (tf : library) (s : session) (input y : node) : Prop :=
  exists f : tensor R -> tensor R,
    forall batch, eval tf s [(input, VF (Arr batch))] y = Some (VF (Arr (map f batch))).

(** A dense layer with [units] units gives every sample a vector of
    [units] entries. *)
Definition dense_units (tf : library) : Prop :=
  forall units relu kernel bias x,
    exists l, layer_sample tf (kDense units relu) kernel bias x = vec l
              /\ length l = units.

(** The codebook vectors gathered for a batch of predicted embeddings. *)
Definition collected (codebook : list (list R)) (preds : list (list (list R)))
  : list (list (list R)) :=
  map (map (fun p => nth (nearest codebook p) codebook [])) preds.

(** Every trainable variable under ["model/encoder"] is reached by the
    gradients that flow into [x]. *)
Definition encoder_vars_reached (x : node) (c : collections) : Prop :=
  forall v, In v (trainable_variables c) -> String.prefix "model/encoder" v = true ->
            forall g, gradients_from x (Var v) g <> None.

(** What the comprehension of [encoder_grads] makes for one variable. *)
Definition encoder_entry (self : VQ_VAE.config) (pe rl : node) (gz : option node)
    (v : node) (gv : option node * node) : Prop :=
  exists a b,
    gradients_from pe v (match gz with Some g => g | None => Op kOnesLike [pe] end)
    = Some a
    /\ gradients rl v = Some b
    /\ gv = (Some (Op kAdd [a; Op (kMulConst (VQ_VAE.beta2 self)) [b]]), v).

(** [input_flat_t] of [VQ_VAE.build_placeholders]. *)
Definition vq_input_flat (self : VQ_VAE.config) : node :=
  Op (kReshape SameBatch (VQ_VAE.flat_input_shape self) []) [Placeholder "input_pl"].

(** The logits of the middle layer of [SG_VAE], from the output [x] of
    the encoder. *)
Definition sg_logits (self : SG_VAE.config) (x : node) : node :=
  Op (kReshape SameBatch (SG_VAE.num_distributions self) [SG_VAE.num_classes self])
     [Op (kDense (SG_VAE.num_distributions self * SG_VAE.num_classes self) false)
         [x; Var (kernel_name "model/middle" "dense");
          Var (bias_name "model/middle" "dense")]].

(** The hard one-hot of the arg-max of a relaxed sample. *)
Definition hard_value (self : SG_VAE.config) (r : list (list (list R)))
  : list (list (list R)) :=
  map (map (fun l => one_hot (SG_VAE.num_classes self) (argmax_index l))) r.

(** The operations found from the gathered codebook vectors to the
    output: every operation but [tf.argmin] and a reshape to rank 3 or
    more, the two tensors [decode] and [predict] feed. *)
Definition decoder_side (k : opkind) : bool :=
  match k with
  | kArgMin _ => false
  | kReshape _ _ (_ :: _) => false
  | _ => true
  end.

(** A feed dictionary whose keys are placeholders, [tf.argmin] tensors or
    reshapes to rank 3 or more. *)
Definition feeds_encoder_side (feed : list (node * value)) : bool :=
  forallb (fun kv => match fst kv with
                     | Placeholder _ => true
                     | Var _ => false
                     | Op k _ => negb (decoder_side k)
                     end) feed.

(** Every trainable variable under ["model/decoder"] is reached by the
    gradients that flow into [x]. *)
Definition decoder_vars_reached (x : node) (c : collections) : Prop :=
  forall v, In v (trainable_variables c) -> String.prefix "model/decoder" v = true ->
            forall g, gradients_from x (Var v) g <> None.

(** One layer added on top of [x] with the kernel regularizer [r]: as
    [layer_step], with the regularization loss it registers. *)
Definition layer_added (r : option (node -> option node)) (pre : string) (x : node)
    (c : collections) (x' : node) (c' : collections) : Prop :=
  exists k kn bn,
    is_layer k = true
    /\ String.prefix pre kn = true
    /\ String.prefix pre bn = true
    /\ x' = Op k [x; Var kn; Var bn]
    /\ trainable_variables c' = trainable_variables c ++ [kn; bn]
    /\ regularization_losses c' = regularization_losses c ++ kernel_losses r (Var kn).

(** The operations that draw from the random generators. *)
Definition draws (k : opkind) : bool :=
  match k with
  | kRelaxedSample | kCatSample => true
  | _ => false
  end.

(** Two values of the same type and shape. *)
Definition same_shape (v v' : value) : Prop := shape_of_value v = shape_of_value v'.

(** An operation whose success and whose result shape are decided by the
    shapes of its inputs. *)
Definition shape_determined (tf : library) (k : opkind) : Prop :=
  forall rn vs vs',
    Forall2 same_shape vs vs' ->
    same_outcome (op_value tf rn k vs) (op_value tf rn k vs').

(** A relaxed sample has one entry per class, whatever the temperature. *)
Definition relaxed_draw_shape (tf : library) : Prop :=
  forall rn b d temperature l,
    length (relaxed_draw tf rn b d temperature l) = length l.

(** The prior logits of [SG_VAE.build_middle] for one distribution:
    [ones_like(logits) / num_classes]. *)
Definition prior_vector (num_classes : nat) (l : list R) : list R :=
  map (fun _ => (1 / INR num_classes)%R) l.

(** The probabilities of the uniform categorical over the classes of [l]. *)
Definition uniform (l : list R) : list R :=
  map (fun _ => (1 / INR (length l))%R) l.

(** The relaxed estimator of [SG_VAE.build_middle], as a tensor. *)
Definition relaxed_estimator (self : SG_VAE.config) (lr : node) : node :=
  Op kSub [Op kRelaxedLogProb [SG_VAE.the_temperature_pl; lr; SG_VAE.relaxed_sample lr];
           Op kRelaxedLogProb [SG_VAE.the_temperature_pl; SG_VAE.prior_logits self lr;
                               SG_VAE.relaxed_sample lr]].

(** The feed dictionary of [SG_VAE.encode] on the placeholders of
    [build_placeholders]. *)
Definition sg_feed (batch : list (tensor R)) (temperature : R) : list (node * value) :=
  [(SG_VAE.the_input_pl, VF (Arr batch));
   (SG_VAE.the_is_training_pl, VB false);
   (SG_VAE.the_temperature_pl, VF (Sc temperature))].

(** A tensor whose value under [sg_feed] is the same for any two
    temperatures. *)
Definition temperature_blind (tf : library) (y : node) : Prop :=
  forall s batch t1 t2,
    eval tf s (sg_feed batch t1) y = eval tf s (sg_feed batch t2) y.

(** A tensor that, under [sg_feed], has a value for one temperature exactly
    when it has one for another, of the same shape. *)
Definition temperature_shaped (tf : library) (y : node) : Prop :=
  forall s batch t1 t2,
    same_outcome (eval tf s (sg_feed batch t1) y) (eval tf s (sg_feed batch t2) y).

(** ** A small model of each class

    One convolution and one dense layer on each side, on 2 x 2 inputs;
    the properties are instantiated on them at the end. *)

(** A weight regularizer as [utils.get_weight_regularizer] returns one:
    a penalty on the kernel, of the given scale. *)
Definition kernel_penalty : Q -> option (node -> option node) :=
  fun scale => Some (fun w => Some (Op (kRegularizer scale) [w])).

(** A library whose layers return zeros: a dense layer one entry per
    unit, a convolution one 1 x 1 x 1 map; the relaxed draw returns the
    logits, the categorical draw the first class. *)
Definition small_library : library :=
  {| layer_sample := fun k _ _ _ =>
       match k with
       | kDense units _ => vec (repeat 0%R units)
       | _ => cube [[[0%R]]]
       end;
     regularizer_value := fun _ _ => 0%R;
     relaxed_draw := fun _ _ _ _ l => l;
     relaxed_log_prob := fun _ _ _ => 0%R;
     categorical_draw := fun _ _ _ _ => 0;
     grad_value := fun _ _ _ => None;
     random_integer := fun _ i j => i + j |}.

Definition small_codebook : list (list R) := [[0%R]; [1%R]].

Definition small_session : session :=
  {| variables := fun name =>
       if String.eqb name embeddings_name then mat small_codebook else Sc 0%R;
     noise := Rng 0 |}.

(** The same session after the encoder has been trained: its variables
    differ, the codebook and the decoder are the same. *)
Definition small_session_trained : session :=
  {| variables := fun name =>
       if String.eqb name embeddings_name then mat small_codebook
       else if String.prefix "model/encoder" name then Sc 1%R
       else Sc 0%R;
     noise := Rng 0 |}.

Definition small_vq : VQ_VAE.config :=
  {| VQ_VAE.input_shape := [2; 2];
     VQ_VAE.encoder_filters := [1];
     VQ_VAE.encoder_filter_sizes := [1];
     VQ_VAE.encoder_strides := [1];
     VQ_VAE.encoder_neurons := [2];
     VQ_VAE.decoder_neurons := [2];
     VQ_VAE.decoder_filters := [1];
     VQ_VAE.decoder_filter_sizes := [2];
     VQ_VAE.decoder_strides := [1];
     VQ_VAE.latent_size := 1;
     VQ_VAE.num_embeddings := 2;
     VQ_VAE.embedding_size := 1;
     VQ_VAE.loss_type := VQ_VAE.L2;
     VQ_VAE.weight_decay := (1 # 1000)%Q;
     VQ_VAE.learning_rate := (1 # 1000)%Q;
     VQ_VAE.beta1 := 1%Q;
     VQ_VAE.beta2 := (1 # 4)%Q;
     VQ_VAE.lr_decay_val := None;
     VQ_VAE.lr_decay_steps := None |}.

Definition no_node : node := Op kZero [].

Definition small_vq_graph : VQ_VAE.graph :=
  match VQ_VAE.build_all kernel_penalty small_vq with
  | Ok g => g
  | Raise _ =>
      {| VQ_VAE.input_pl := no_node; VQ_VAE.input_flat_t := no_node;
         VQ_VAE.pred_embeds := no_node; VQ_VAE.embeds := no_node;
         VQ_VAE.diff := no_node; VQ_VAE.norm := no_node; VQ_VAE.classes := no_node;
         VQ_VAE.collected_embeds := no_node; VQ_VAE.flat_collected_embeds := no_node;
         VQ_VAE.logits_t := no_node; VQ_VAE.flat_logits_t := no_node;
         VQ_VAE.output_t := no_node; VQ_VAE.full_output_loss_t := no_node;
         VQ_VAE.output_loss_t := no_node; VQ_VAE.left_loss_t := no_node;
         VQ_VAE.right_loss_t := no_node; VQ_VAE.reg_loss_t := no_node;
         VQ_VAE.loss_t := no_node; VQ_VAE.global_step := no_node;
         VQ_VAE.step_op := ApplyGradients (ConstantRate 0%Q) [] |}
  end.

Definition small_sg (kl_type : pyval) (straight_through : bool) : SG_VAE.config :=
  {| SG_VAE.input_shape := [2; 2];
     SG_VAE.encoder_filters := [1];
     SG_VAE.encoder_filter_sizes := [1];
     SG_VAE.encoder_strides := [1];
     SG_VAE.encoder_neurons := [2];
     SG_VAE.decoder_neurons := [2];
     SG_VAE.decoder_filters := [1];
     SG_VAE.decoder_filter_sizes := [2];
     SG_VAE.decoder_strides := [1];
     SG_VAE.num_distributions := 1;
     SG_VAE.num_classes := 2;
     SG_VAE.loss_type := SG_VAE.L2;
     SG_VAE.weight_decay := (1 # 1000)%Q;
     SG_VAE.learning_rate := (1 # 1000)%Q;
     SG_VAE.kl_type := kl_type;
     SG_VAE.disable_kl_loss := false;
     SG_VAE.straight_through := straight_through |}.

Definition small_sg_graph (kl_type : pyval) (straight_through : bool) : SG_VAE.graph :=
  match SG_VAE.build_all kernel_penalty (small_sg kl_type straight_through) with
  | Ok g => g
  | Raise _ =>
      {| SG_VAE.input_pl := no_node; SG_VAE.input_flat_t := no_node;
         SG_VAE.temperature_pl := no_node; SG_VAE.is_training_pl := no_node;
         SG_VAE.sample_t := no_node; SG_VAE.kl_divergence_t := no_node;
         SG_VAE.probs_t := no_node; SG_VAE.logits_t := no_node;
         SG_VAE.flat_logits_t := no_node; SG_VAE.output_t := no_node;
         SG_VAE.full_output_loss_t := no_node; SG_VAE.output_loss_t := no_node;
         SG_VAE.kl_loss_t := no_node; SG_VAE.reg_loss_t := no_node;
         SG_VAE.loss_t := no_node;
         SG_VAE.step_op := ApplyGradients (ConstantRate 0%Q) [] |}
  end.

(** Predicted embeddings for two samples, fed in place of the encoder. *)
Definition small_preds : list (list (list R)) := [[[1%R]]; [[0%R]]].

Definition small_pred_feed : list (node * value) :=
  [(Placeholder "pred_embeds", VF (mat (map (@concat R) small_preds)))].

(** Logits for one sample and one distribution over two classes. *)
Definition small_logits : list (list (list R)) := [[[0%R; 1%R]]].

Definition small_logits_feed : list (node * value) :=
  [(SG_VAE.the_temperature_pl, VF (Sc 1%R));
   (Placeholder "logits", VF (cube small_logits))].

(** A [SG_VAE] built with a [kl_type] that is no member of [KLType]. *)
Definition unknown_kl_type : pyval := PyStr "relaxed".

(** The conditions asserted by the two constructors. *)
Definition same_lengths (a b c : list nat) : bool :=
  (length a =? length b) && (length b =? length c).

Definition vq_arguments_ok (args : VQ_VAE.config) : bool :=
  py_in (VQ_VAE.loss_type args) VQ_VAE.LossType
  && same_lengths (VQ_VAE.encoder_filters args) (VQ_VAE.encoder_filter_sizes args)
                  (VQ_VAE.encoder_strides args)
  && same_lengths (VQ_VAE.decoder_filters args) (VQ_VAE.decoder_filter_sizes args)
                  (VQ_VAE.decoder_strides args).

Definition sg_arguments_ok (args : SG_VAE.config) : bool :=
  py_in (SG_VAE.loss_type args) SG_VAE.LossType
  && same_lengths (SG_VAE.encoder_filters args) (SG_VAE.encoder_filter_sizes args)
                  (SG_VAE.encoder_strides args)
  && same_lengths (SG_VAE.decoder_filters args) (SG_VAE.decoder_filter_sizes args)
                  (SG_VAE.decoder_strides args).

(** [tf.gradients(y, x)] finds a path from [x] to [y]. *)
Definition has_gradient (y x : node) : bool :=
  match gradients y x with
  | Some _ => true
  | None => false
  end.

(** A batch of two 2 x 2 inputs. *)
Definition small_inputs : list (tensor R) :=
  [mat [[0%R; 1%R]; [1%R; 0%R]]; mat [[1%R; 1%R]; [0%R; 0%R]]].

(* ================================================================== *)
(** * Part 8: properties of the tensor operations *)
(* ================================================================== *)

Lemma mapM_map {A B} (f : A -> option B) (g : A -> B) (l : list A) :
  (forall x, In x l -> f x = Some (g x)) -> mapM f l = Some (map g l).
Proof.
  induction l as [|x l IH]; intros H; simpl; [reflexivity|].
  rewrite (H x (or_introl eq_refl)), IH; [reflexivity|].
  intros y Hy. apply H. now right.
Qed.

Lemma mapM_ext {A B} (f g : A -> option B) (l : list A) :
  (forall x, In x l -> f x = g x) -> mapM f l = mapM g l.
Proof.
  induction l as [|x l IH]; intros H; simpl; [reflexivity|].
  rewrite (H x (or_introl eq_refl)), IH; [reflexivity|].
  intros y Hy. apply H. now right.
Qed.

Lemma mapM_map_in {A B C} (h : A -> B) (f : B -> option C) (l : list A) :
  mapM f (map h l) = mapM (fun x => f (h x)) l.
Proof.
  induction l as [|x l IH]; simpl; [reflexivity|]. now rewrite IH.
Qed.

Lemma bzip_single_r {A B C} (f : A -> B -> option C) (xs : list A) (y : B) :
  bzip f xs [y] = mapM (fun x => f x y) xs.
Proof.
  destruct xs as [|x [|x' xs]]; reflexivity.
Qed.

Lemma bzip_single_l {A B C} (f : A -> B -> option C) (x : A) (ys : list B) :
  bzip f [x] ys = mapM (fun y => f x y) ys.
Proof. reflexivity. Qed.

Lemma bzip_same_length {A B C} (f : A -> B -> option C) (xs : list A) (ys : list B) :
  length xs = length ys -> bzip f xs ys = zipM f xs ys.
Proof.
  intros H.
  destruct xs as [|x [|x' xs]], ys as [|y [|y' ys]]; simpl in *; try discriminate;
    try reflexivity.
Qed.

Lemma zipM_scalars (f : R -> R -> R) (p c : list R) :
  length p = length c ->
  zipM (tbin f) (map Sc p) (map Sc c)
  = Some (map Sc (map (fun t => f (fst t) (snd t)) (combine p c))).
Proof.
  revert c. induction p as [|x p IH]; intros [|y c] H; simpl in *; try discriminate.
  - reflexivity.
  - rewrite IH by lia. reflexivity.
Qed.

Lemma tbin_vec (f : R -> R -> R) (p c : list R) :
  length p = length c ->
  tbin f (vec p) (vec c) = Some (vec (map (fun t => f (fst t) (snd t)) (combine p c))).
Proof.
  intros H. unfold vec. simpl.
  rewrite bzip_same_length by (now rewrite !length_map).
  rewrite zipM_scalars by exact H. reflexivity.
Qed.

Lemma as_vec_vec {A} (l : list A) : as_vec (vec l) = Some l.
Proof.
  unfold vec, as_vec. induction l as [|x l IH]; simpl; [reflexivity|].
  now rewrite IH.
Qed.

Lemma scalars_vec {A} (l : list A) : scalars (vec l) = l.
Proof.
  unfold vec. simpl. induction l as [|x l IH]; simpl; [reflexivity|]. now rewrite IH.
Qed.

Lemma scalars_mat {A} (m : list (list A)) : scalars (mat m) = concat m.
Proof.
  unfold mat. cbn [scalars]. induction m as [|r m IH]; [reflexivity|].
  cbn [map flat_map concat]. now rewrite scalars_vec, IH.
Qed.

Lemma scalars_cube {A} (c : list (list (list A))) :
  scalars (cube c) = concat (map (@concat A) c).
Proof.
  unfold cube. cbn [scalars]. induction c as [|r c IH]; [reflexivity|].
  cbn [map flat_map concat]. now rewrite scalars_mat, IH.
Qed.

(** ** Reshape of well-shaped data *)

Lemma chunks_n_concat {A} (n : nat) (l : list (list A)) :
  Forall (fun r => length r = n) l -> chunks_n (length l) n (concat l) = l.
Proof.
  induction 1 as [|r l Hr Hl IH]; simpl; [reflexivity|].
  rewrite firstn_app, skipn_app, Hr, Nat.sub_diag, firstn_all2, skipn_all2 by lia.
  simpl. rewrite app_nil_r, IH. reflexivity.
Qed.

Lemma length_concat_uniform {A} (n : nat) (l : list (list A)) :
  Forall (fun r => length r = n) l -> length (concat l) = length l * n.
Proof.
  induction 1 as [|r l Hr Hl IH]; simpl; [reflexivity|].
  rewrite length_app, IH, Hr. reflexivity.
Qed.

Lemma chunks_concat {A} (n : nat) (l : list (list A)) :
  0 < n -> Forall (fun r => length r = n) l -> chunks n (concat l) = l.
Proof.
  intros Hn H. unfold chunks.
  rewrite (length_concat_uniform H), Nat.div_mul by lia.
  now apply chunks_n_concat.
Qed.

Lemma reshape_mat_to_cube {A} (l e : nat) (c : list (list (list A))) :
  0 < l -> 0 < e -> cube_shape l e c ->
  reshape Infer l [e] (mat (map (@concat A) c)) = Some (cube c).
Proof.
  intros Hl He Hc.
  assert (Hrows : Forall (fun r => length r = l * (e * 1)) (map (@concat A) c)).
  { apply Forall_map. eapply Forall_impl; [|exact Hc].
    intros row [H1 H2]. rewrite (length_concat_uniform H2), H1. lia. }
  unfold reshape. rewrite scalars_mat. cbn [prod fold_right].
  rewrite (length_concat_uniform Hrows), length_map.
  replace (l * (e * 1) =? 0) with false by (symmetry; apply Nat.eqb_neq; nia).
  rewrite Nat.Div0.mod_mul, Nat.eqb_refl. cbn [negb].
  rewrite (chunks_concat (n := l * (e * 1))) by (try exact Hrows; nia).
  f_equal. unfold cube. f_equal. rewrite map_map.
  apply map_ext_in. intros row Hrow.
  unfold cube_shape in Hc. rewrite Forall_forall in Hc.
  destruct (Hc row Hrow) as [H1 H2].
  cbn [build]. unfold mat. f_equal.
  rewrite Nat.mul_1_r, <- H1, (chunks_n_concat H2). reflexivity.
Qed.

Lemma reshape_cube_to_mat {A} (l e : nat) (c : list (list (list A))) :
  0 < l -> 0 < e -> cube_shape l e c ->
  reshape Infer (l * e) [] (cube c) = Some (mat (map (@concat A) c)).
Proof.
  intros Hl He Hc.
  assert (Hrows : Forall (fun r => length r = l * e * 1) (map (@concat A) c)).
  { apply Forall_map. eapply Forall_impl; [|exact Hc].
    intros row [H1 H2]. rewrite (length_concat_uniform H2), H1. lia. }
  unfold reshape. rewrite scalars_cube. cbn [prod fold_right].
  rewrite (length_concat_uniform Hrows), length_map.
  replace (l * e * 1 =? 0) with false by (symmetry; apply Nat.eqb_neq; nia).
  rewrite Nat.Div0.mod_mul, Nat.eqb_refl. cbn [negb].
  rewrite (chunks_concat (n := l * e * 1)) by (try exact Hrows; nia).
  reflexivity.
Qed.

(** ** [tf.argmin] returns the first least entry *)

Lemma argmin_from_spec (l pre : list R) (bi : nat) (b : R) :
  bi < length pre ->
  nth bi pre 0%R = b ->
  (forall j, j < length pre -> (b <= nth j pre 0)%R) ->
  (forall j, j < bi -> (b < nth j pre 0)%R) ->
  let r := argmin_from bi b (length pre) l in
  r < length (pre ++ l)
  /\ (forall j, j < length (pre ++ l) -> (nth r (pre ++ l) 0 <= nth j (pre ++ l) 0)%R)
  /\ (forall j, j < r -> (nth r (pre ++ l) 0 < nth j (pre ++ l) 0)%R).
Proof.
  revert pre bi b. induction l as [|x l IH]; intros pre bi b Hbi Hb Hle Hlt; cbn [argmin_from].
  - rewrite app_nil_r. repeat split; [exact Hbi| |]; rewrite Hb; assumption.
  - replace (pre ++ x :: l) with ((pre ++ [x]) ++ l) by (now rewrite <- app_assoc).
    assert (Hlen : length (pre ++ [x]) = S (length pre)) by (rewrite length_app; simpl; lia).
    specialize (IH (pre ++ [x])). rewrite Hlen in IH.
    destruct (Rlt_dec x b) as [Hx|Hx]; apply IH.
    + lia.
    + rewrite app_nth2, Nat.sub_diag by lia. reflexivity.
    + intros j Hj. destruct (Nat.eq_dec j (length pre)) as [->|Hne].
      * rewrite app_nth2, Nat.sub_diag by lia. simpl. lra.
      * rewrite app_nth1 by lia. specialize (Hle j ltac:(lia)). lra.
    + intros j Hj. rewrite app_nth1 by lia. specialize (Hle j ltac:(lia)). lra.
    + lia.
    + rewrite app_nth1 by lia. exact Hb.
    + intros j Hj. destruct (Nat.eq_dec j (length pre)) as [->|Hne].
      * rewrite app_nth2, Nat.sub_diag by lia. simpl. lra.
      * rewrite app_nth1 by lia. apply Hle. lia.
    + intros j Hj. rewrite app_nth1 by lia. now apply Hlt.
Qed.

Lemma argmin_spec (l : list R) :
  l <> [] ->
  exists a, argmin l = Some a
    /\ a < length l
    /\ (forall j, j < length l -> (nth a l 0 <= nth j l 0)%R)
    /\ (forall j, j < a -> (nth a l 0 < nth j l 0)%R).
Proof.
  destruct l as [|x l]; [congruence|]. intros _.
  exists (argmin_from 0 x 1 l). split; [reflexivity|].
  apply (@argmin_from_spec l [x] 0 x); simpl; try lia; try reflexivity.
  intros j Hj. destruct j; [lra|lia].
Qed.

(** ** The operations of the vector quantizer on well-shaped values *)

Lemma slice_keep_vec {A} (p : list A) : slice_newaxis [false] (vec p) = vec p.
Proof.
  unfold vec. cbn [slice_newaxis]. f_equal. rewrite map_map.
  apply map_ext. intros x. reflexivity.
Qed.

Lemma slice_keep_mat {A} (m : list (list A)) :
  slice_newaxis [false; false] (mat m) = mat m.
Proof.
  unfold mat. cbn [slice_newaxis]. f_equal. rewrite map_map.
  apply map_ext. intros r. apply (slice_keep_vec r).
Qed.

Lemma slice_predictions {A} (preds : list (list (list A))) :
  slice_newaxis [false; false; true; false] (cube preds)
  = Arr (map (fun row => Arr (map (fun p => Arr [vec p]) row)) preds).
Proof.
  unfold cube, mat. cbn [slice_newaxis]. rewrite map_map. f_equal.
  apply map_ext. intros row. rewrite map_map. f_equal.
  apply map_ext. intros p. f_equal. f_equal. apply (slice_keep_vec p).
Qed.

Lemma slice_actual {A} (m : list (list A)) :
  slice_newaxis [true; true; false; false] (mat m) = Arr [Arr [mat m]].
Proof.
  change (slice_newaxis [true; true; false; false] (mat m))
    with (Arr [Arr [slice_newaxis [false; false] (mat m)]]).
  now rewrite slice_keep_mat.
Qed.

(** [predictions[:, :, tf.newaxis, :] - actual[tf.newaxis, tf.newaxis, :, :]]. *)
Lemma embedding_difference_value (e : nat) (preds : list (list (list R)))
    (codebook : list (list R)) (l : nat) :
  cube_shape l e preds -> mat_shape e codebook ->
  tbin Rminus (slice_newaxis [false; false; true; false] (cube preds))
              (slice_newaxis [true; true; false; false] (mat codebook))
  = Some (Arr (map (fun row =>
                      Arr (map (fun p => Arr (map (fun c => vec (vsub p c)) codebook)) row))
                   preds)).
Proof.
  intros Hp Hc. rewrite slice_predictions, slice_actual.
  unfold cube_shape in Hp. rewrite Forall_forall in Hp.
  unfold mat_shape in Hc. rewrite Forall_forall in Hc.
  cbn [tbin]. rewrite bzip_single_r, !mapM_map_in.
  erewrite mapM_map; [reflexivity|].
  intros row Hrow. destruct (Hp row Hrow) as [_ Hrow_e]. rewrite Forall_forall in Hrow_e.
  cbn [tbin]. rewrite bzip_single_r, !mapM_map_in.
  erewrite mapM_map; [reflexivity|].
  intros p Hin. unfold mat. cbn [tbin]. rewrite bzip_single_l, !mapM_map_in.
  erewrite mapM_map; [reflexivity|].
  intros c Hcin.
  rewrite tbin_vec by (rewrite (Hrow_e p Hin), (Hc c Hcin); reflexivity).
  reflexivity.
Qed.

Lemma norm_value (preds : list (list (list R))) (codebook : list (list R)) :
  reduce_last (fun l => Some (euclidean l)) 3
    (Arr (map (fun row =>
                 Arr (map (fun p => Arr (map (fun c => vec (vsub p c)) codebook)) row))
              preds))
  = Some (cube (map (map (distances codebook)) preds)).
Proof.
  cbn [reduce_last]. rewrite mapM_map_in.
  erewrite mapM_map.
  - unfold cube. rewrite map_map. reflexivity.
  - intros row _. cbn beta. rewrite mapM_map_in. erewrite mapM_map.
    + cbn [option_map]. unfold mat. rewrite map_map. reflexivity.
    + intros p _. cbn beta. rewrite mapM_map_in. erewrite mapM_map.
      * cbn [option_map]. unfold vec, distances. rewrite map_map. reflexivity.
      * intros c _. cbn beta. rewrite as_vec_vec. reflexivity.
Qed.

Lemma nearest_in_range (codebook : list (list R)) (p : list R) :
  codebook <> [] ->
  argmin (distances codebook p) = Some (nearest codebook p)
  /\ nearest codebook p < length codebook.
Proof.
  intros Hne.
  destruct (@argmin_spec (distances codebook p)) as (a & Ha & Hlt & _).
  - unfold distances. destruct codebook; [congruence|discriminate].
  - unfold nearest. rewrite Ha. split; [reflexivity|].
    unfold distances in Hlt. now rewrite length_map in Hlt.
Qed.

Lemma argmin_value (preds : list (list (list R))) (codebook : list (list R)) :
  codebook <> [] ->
  reduce_last argmin 2 (cube (map (map (distances codebook)) preds))
  = Some (mat (map (map (nearest codebook)) preds)).
Proof.
  intros Hne. unfold cube. cbn [reduce_last]. rewrite !mapM_map_in.
  erewrite mapM_map.
  - unfold mat. cbn [option_map]. rewrite map_map. reflexivity.
  - intros row _. cbn beta. unfold mat. rewrite !mapM_map_in. erewrite mapM_map.
    + cbn [option_map]. unfold vec. rewrite map_map. reflexivity.
    + intros p _. cbn beta. rewrite as_vec_vec.
      rewrite (proj1 (nearest_in_range p Hne)). reflexivity.
Qed.

Lemma gather_value (idx : list (list nat)) (codebook : list (list R)) :
  Forall (Forall (fun a => a < length codebook)) idx ->
  gather (rows (mat codebook)) (mat idx)
  = Some (cube (map (map (fun a => nth a codebook [])) idx)).
Proof.
  intros H. rewrite Forall_forall in H.
  unfold mat at 2. cbn [gather]. rewrite mapM_map_in. erewrite mapM_map.
  - unfold cube. cbn [option_map]. rewrite map_map. reflexivity.
  - intros row Hrow. specialize (H row Hrow). rewrite Forall_forall in H.
    unfold vec. cbn [gather]. rewrite mapM_map_in. erewrite mapM_map.
    + cbn [option_map]. unfold mat. rewrite map_map. reflexivity.
    + intros a Ha. cbn [gather rows mat].
      rewrite nth_error_map. rewrite (nth_error_nth' codebook [] (H a Ha)). reflexivity.
Qed.

(** ** Identity of tensors and feed dictionaries *)

Lemma Q_eqb_refl (q : Q) : Q_eqb q q = true.
Proof. unfold Q_eqb. now rewrite Z.eqb_refl, Pos.eqb_refl. Qed.

Lemma list_eqb_refl {A} (eqb : A -> A -> bool) (l : list A) :
  (forall x, eqb x x = true) -> list_eqb eqb l l = true.
Proof.
  intros H. induction l as [|x l IH]; simpl; [reflexivity|]. now rewrite H, IH.
Qed.

Lemma opkind_eqb_refl (k : opkind) : opkind_eqb k k = true.
Proof.
  induction k; simpl;
    rewrite ?Nat.eqb_refl, ?Bool.eqb_reflx, ?Q_eqb_refl, ?IHk; try reflexivity.
  - destruct lead; simpl; now rewrite list_eqb_refl by apply Nat.eqb_refl.
  - now rewrite list_eqb_refl by apply Bool.eqb_reflx.
  - destruct axis; simpl; [apply Nat.eqb_refl|reflexivity].
Qed.

Lemma node_eqb_refl (y : node) : node_eqb y y = true.
Proof.
  induction y as [n|n|k ins IH] using node_ind'; simpl.
  - apply String.eqb_refl.
  - apply String.eqb_refl.
  - rewrite opkind_eqb_refl. simpl.
    induction IH as [|a l Ha Hl IHl]; [reflexivity|]. now rewrite Ha, IHl.
Qed.

Lemma lookup_feed_placeholders (feed : list (node * value)) (y : node) :
  feeds_placeholders feed = true -> is_placeholder y = false ->
  lookup_feed feed y = None.
Proof.
  unfold feeds_placeholders, lookup_feed. intros Hf Hy.
  induction feed as [|[k v] feed IH]; [reflexivity|].
  simpl in Hf. apply andb_prop in Hf as [Hk Hf]. simpl.
  destruct k; try discriminate.
  destruct y; try discriminate; cbn [find fst node_eqb]; now apply IH.
Qed.

Lemma eval_Op (tf : library) (s : session) (feed : list (node * value))
    (k : opkind) (ins : list node) :
  lookup_feed feed (Op k ins) = None ->
  eval tf s feed (Op k ins)
  = match mapM (eval tf s feed) ins with
    | Some vs => op_value tf (noise s) k vs
    | None => None
    end.
Proof. intros H. cbn [eval]. rewrite H. reflexivity. Qed.

Lemma eval_Var (tf : library) (s : session) (feed : list (node * value)) (n : string) :
  lookup_feed feed (Var n) = None ->
  eval tf s feed (Var n) = Some (VF (variables s n)).
Proof. intros H. cbn [eval]. rewrite H. reflexivity. Qed.

Ltac eval_op :=
  rewrite eval_Op by (apply lookup_feed_placeholders; [assumption|reflexivity]);
  cbn [mapM].

Lemma nth_distances (codebook : list (list R)) (p : list R) (j : nat) :
  j < length codebook ->
  nth j (distances codebook p) 0%R = distance p (nth j codebook []).
Proof.
  intros Hj. unfold distances.
  rewrite (nth_indep _ 0%R (distance p [])) by (now rewrite length_map).
  apply map_nth.
Qed.

Lemma nearest_spec (codebook : list (list R)) (p : list R) :
  codebook <> [] ->
  nearest codebook p < length codebook
  /\ (forall j, j < length codebook ->
        (distance p (nth (nearest codebook p) codebook [])
         <= distance p (nth j codebook []))%R)
  /\ (forall j, j < nearest codebook p ->
        (distance p (nth (nearest codebook p) codebook [])
         < distance p (nth j codebook []))%R).
Proof.
  intros Hne.
  destruct (@argmin_spec (distances codebook p)) as (a & Ha & Hlt & Hmin & Hfirst).
  { unfold distances. destruct codebook; [congruence|discriminate]. }
  assert (Hlen : length (distances codebook p) = length codebook)
    by (unfold distances; apply length_map).
  unfold nearest. rewrite Ha. rewrite Hlen in *.
  split; [exact Hlt|]. split.
  - intros j Hj. rewrite <- !nth_distances by assumption. now apply Hmin.
  - intros j Hj. rewrite <- !nth_distances by lia. now apply Hfirst.
Qed.

Section VectorQuantizer.

Variable tf : library.
Variable s : session.
Variable feed : list (node * value).
Variable self : VQ_VAE.config.
Variable codebook : list (list R).
Variable preds : list (list (list R)).

Hypothesis latent_pos : 0 < VQ_VAE.latent_size self.
Hypothesis embedding_pos : 0 < VQ_VAE.embedding_size self.
Hypothesis codebook_size : length codebook = VQ_VAE.num_embeddings self.
Hypothesis codebook_pos : 0 < VQ_VAE.num_embeddings self.
Hypothesis codebook_shape : mat_shape (VQ_VAE.embedding_size self) codebook.
Hypothesis preds_shape :
  cube_shape (VQ_VAE.latent_size self) (VQ_VAE.embedding_size self) preds.
Hypothesis feed_ok : feeds_placeholders feed = true.
Hypothesis embeds_value : variables s "model/middle/embeddings" = mat codebook.

Lemma codebook_nonempty : codebook <> [].
Proof.
  intros H. pose proof codebook_size as Hs. rewrite H in Hs. simpl in Hs. lia.
Qed.

Lemma collected_shape :
  cube_shape (VQ_VAE.latent_size self) (VQ_VAE.embedding_size self)
    (collected codebook preds).
Proof.
  pose proof preds_shape as Hp. pose proof codebook_shape as Hc.
  unfold cube_shape, mat_shape, collected in *. rewrite Forall_forall in Hp, Hc.
  apply Forall_forall.
  intros row' Hin. apply in_map_iff in Hin as (row & <- & Hrow).
  destruct (Hp row Hrow) as [Hl _]. rewrite length_map. split; [exact Hl|].
  apply Forall_forall. intros v Hv. apply in_map_iff in Hv as (p & <- & _).
  apply Hc, nth_In.
  apply (nearest_spec p codebook_nonempty).
Qed.

(** The values of the tensors of [build_middle], from the value of the
    [pred_embeds] left by the encoder. *)
Lemma eval_middle (pe0 : node) (c : collections) :
  eval tf s feed pe0 = Some (VF (mat (map (@concat R) preds))) ->
  exists m c',
    VQ_VAE.build_middle self pe0 c = Ok (m, c')
    /\ eval tf s feed (VQ_VAE.m_pred_embeds m) = Some (VF (cube preds))
    /\ eval tf s feed (VQ_VAE.m_classes m)
       = Some (VI (mat (map (map (nearest codebook)) preds)))
    /\ eval tf s feed (VQ_VAE.m_collected_embeds m)
       = Some (VF (cube (collected codebook preds)))
    /\ eval tf s feed (VQ_VAE.m_flat_collected_embeds m)
       = Some (VF (mat (map (@concat R) (collected codebook preds)))).
Proof.
  intros Hpe. eexists. eexists.
  split; [unfold VQ_VAE.build_middle, bind, add_trainable, ret; reflexivity|].
  cbn [VQ_VAE.m_pred_embeds
    VQ_VAE.m_classes VQ_VAE.m_collected_embeds VQ_VAE.m_flat_collected_embeds].
  set (pe := Op (kReshape Infer (VQ_VAE.latent_size self) [VQ_VAE.embedding_size self]) [pe0]).
  set (em := Var "model/middle/embeddings").
  assert (E1 : eval tf s feed pe = Some (VF (cube preds))).
  { unfold pe. eval_op. rewrite Hpe. cbn [op_value].
    rewrite reshape_mat_to_cube by assumption. reflexivity. }
  assert (E2 : eval tf s feed em = Some (VF (mat codebook))).
  { unfold em. rewrite eval_Var by (apply lookup_feed_placeholders; [assumption|reflexivity]).
    now rewrite embeds_value. }
  set (cl := Op (kArgMin 2) [Op (kNorm 3) [VQ_VAE.embedding_difference pe em]]).
  assert (E3 : eval tf s feed cl = Some (VI (mat (map (map (nearest codebook)) preds)))).
  { unfold cl, VQ_VAE.embedding_difference. do 5 eval_op. rewrite E1, E2.
    cbn [op_value float1 float2 some_float opt_float option_map].
    rewrite (embedding_difference_value preds_shape codebook_shape).
    cbn [op_value float1 float2 some_float opt_float option_map].
    rewrite norm_value. cbn [op_value float1 float2 some_float opt_float option_map].
    rewrite argmin_value by apply codebook_nonempty. reflexivity. }
  assert (E4 : eval tf s feed (Op kGather [em; cl])
               = Some (VF (cube (collected codebook preds)))).
  { eval_op. rewrite E2, E3. cbn [op_value option_map].
    rewrite gather_value.
    - unfold collected. rewrite map_map. cbn [option_map]. do 3 f_equal.
      apply map_ext. intros row. now rewrite map_map.
    - apply Forall_forall. intros row' Hin. apply in_map_iff in Hin as (row & <- & _).
      apply Forall_forall. intros a Ha. apply in_map_iff in Ha as (p & <- & _).
      apply (nearest_spec p codebook_nonempty). }
  repeat split; try assumption.
  eval_op. rewrite E4. cbn [op_value].
  rewrite (reshape_cube_to_mat latent_pos embedding_pos collected_shape). reflexivity.
Qed.

(** C1.  For every batch of predicted embeddings and every codebook,
    [build_middle] assigns to every sample and every one of the
    [latent_size] slots an index below [num_embeddings] whose codebook
    vector is at the least Euclidean distance from the predicted
    embedding, the lowest such index when several are at that distance,
    and the gathered output holds the codebook vector of that index in
    every slot. *)
Theorem vq_middle_assigns_nearest_codeword (pe0 : node) (c : collections) :
  eval tf s feed pe0 = Some (VF (mat (map (@concat R) preds))) ->
  exists m c',
    VQ_VAE.build_middle self pe0 c = Ok (m, c')
    /\ eval tf s feed (VQ_VAE.m_classes m)
       = Some (VI (mat (map (map (nearest codebook)) preds)))
    /\ eval tf s feed (VQ_VAE.m_collected_embeds m)
       = Some (VF (cube (map (map (fun p => nth (nearest codebook p) codebook []))
                             preds)))
    /\ forall p,
         nearest codebook p < VQ_VAE.num_embeddings self
         /\ (forall j, j < VQ_VAE.num_embeddings self ->
               (distance p (nth (nearest codebook p) codebook [])
                <= distance p (nth j codebook []))%R)
         /\ (forall j, j < nearest codebook p ->
               (distance p (nth (nearest codebook p) codebook [])
                < distance p (nth j codebook []))%R).
Proof.
  intros Hpe. destruct (@eval_middle pe0 c Hpe) as (m & c' & Hb & _ & Hcl & Hco & _).
  exists m, c'. repeat split; try assumption;
    rewrite <- ?codebook_size; now apply nearest_spec, codebook_nonempty.
Qed.

End VectorQuantizer.

(** ** Batches *)

Lemma firstn_add_skipn {A} (a b : nat) (l : list A) :
  firstn (a + b) l = firstn a l ++ firstn b (skipn a l).
Proof.
  revert l. induction a as [|a IH]; intros l; [reflexivity|].
  destruct l as [|x l]; simpl.
  - now rewrite firstn_nil.
  - now rewrite IH.
Qed.

Lemma concat_slices {A} (bs k : nat) (l : list A) :
  concat (map (fun i => slice (i * bs) ((i + 1) * bs) l) (seq 0 k)) = firstn (k * bs) l.
Proof.
  induction k as [|k IH]; [reflexivity|].
  rewrite seq_S, map_app, concat_app, IH. cbn [map concat plus]. rewrite app_nil_r.
  unfold slice. replace ((k + 1) * bs - k * bs) with bs by nia.
  replace (S k * bs) with (k * bs + bs) by nia.
  now rewrite firstn_add_skipn.
Qed.

Lemma num_steps_covers (n bs : nat) :
  1 <= bs ->
  exists k, num_steps_of n bs = Ok k /\ n <= k * bs /\ (1 <= n -> 1 <= k).
Proof.
  intros Hbs. unfold num_steps_of.
  replace (bs =? 0) with false by (symmetry; apply Nat.eqb_neq; lia).
  pose proof (Nat.div_mod_eq n bs) as Hdm.
  pose proof (Nat.mod_upper_bound n bs ltac:(lia)) as Hmod.
  destruct (n mod bs =? 0) eqn:E.
  - apply Nat.eqb_eq in E. exists (n / bs). repeat split; intros; nia.
  - exists (S (n / bs)). repeat split; intros; nia.
Qed.

Lemma concat_chunks_n {A} (k n : nat) (l : list A) :
  length l = k * n -> concat (chunks_n k n l) = l.
Proof.
  revert l. induction k as [|k IH]; intros l Hl; simpl in *.
  - destruct l; [reflexivity|discriminate].
  - rewrite IH by (rewrite length_skipn; lia). apply firstn_skipn.
Qed.

Lemma chunks_n_shape {A} (k n : nat) (l : list A) :
  length l = k * n ->
  length (chunks_n k n l) = k /\ Forall (fun p => length p = n) (chunks_n k n l).
Proof.
  revert l. induction k as [|k IH]; intros l Hl; simpl in *.
  - split; [reflexivity|constructor].
  - destruct (IH (skipn n l)) as [H1 H2]; [rewrite length_skipn; lia|].
    split; [now rewrite H1|]. constructor; [|exact H2].
    rewrite length_firstn. lia.
Qed.

(** ** Construction steps *)

Lemma bind_Ok {A B} (m : Graph A) (f : A -> Graph B) (c : collections) (b : B)
    (c' : collections) :
  bind m f c = Ok (b, c') ->
  exists a c1, m c = Ok (a, c1) /\ f a c1 = Ok (b, c').
Proof.
  unfold bind. destruct (m c) as [[a c1]|e]; [|discriminate].
  intros H. now exists a, c1.
Qed.

Lemma layer_Ok (scope type_name : string) (k : opkind) (x : node)
    (reg : option (node -> option node)) (c : collections) :
  layer scope type_name k x reg c
  = Ok (Op k [x; Var (kernel_name scope type_name); Var (bias_name scope type_name)],
        {| trainable_variables :=
             trainable_variables c
             ++ [kernel_name scope type_name; bias_name scope type_name];
           regularization_losses :=
             regularization_losses c
             ++ kernel_losses reg (Var (kernel_name scope type_name)) |}).
Proof.
  unfold layer, kernel_losses, bind, add_trainable, add_regularization_loss, ret,
    kernel_name, bias_name.
  destruct reg as [r|]; [destruct (r _)|]; cbn; rewrite <- ?app_assoc, ?app_nil_r;
    reflexivity.
Qed.

Lemma index_Ok {A} (l : list A) (i : nat) (c : collections) (x : A) (c' : collections) :
  index l i c = Ok (x, c') -> nth_error l i = Some x /\ c' = c.
Proof.
  unfold index. destruct (nth_error l i); unfold ret, raise; intros H; inversion H.
  now split.
Qed.

(** ** Sample-wise evaluation *)

Section Samplewise.

Variable tf : library.
Variable s : session.
Variable input : node.
Hypothesis input_placeholder : is_placeholder input = true.

Lemma feed_input_only (v : value) : feeds_placeholders [(input, v)] = true.
Proof. unfold feeds_placeholders. simpl. now rewrite input_placeholder. Qed.

Lemma samplewise_input : samplewise tf s input input.
Proof.
  exists (fun x => x). intros batch.
  destruct input; try discriminate. cbn [eval]. unfold lookup_feed. cbn [find fst].
  rewrite node_eqb_refl. cbn. now rewrite map_id.
Qed.

Lemma lookup_other (v : value) (y : node) :
  is_placeholder y = false -> lookup_feed [(input, v)] y = None.
Proof. intros H. apply lookup_feed_placeholders; [apply feed_input_only|exact H]. Qed.

Lemma samplewise_unary (k : opkind) (f : tensor R -> tensor R) (x : node) :
  (forall batch, op_value tf (noise s) k [VF (Arr batch)] = Some (VF (Arr (map f batch)))) ->
  samplewise tf s input x -> samplewise tf s input (Op k [x]).
Proof.
  intros Hk [h Hx]. exists (fun t => f (h t)). intros batch.
  rewrite eval_Op by (now apply lookup_other). cbn [mapM].
  rewrite Hx, Hk. now rewrite map_map.
Qed.

Lemma samplewise_expand_dims (r : nat) (x : node) :
  samplewise tf s input x -> samplewise tf s input (Op (kExpandDims (S r)) [x]).
Proof.
  apply samplewise_unary with (f := slice_newaxis (repeat false r ++ [true])).
  intros batch. reflexivity.
Qed.

Lemma samplewise_flatten (x : node) :
  samplewise tf s input x -> samplewise tf s input (Op kFlatten [x]).
Proof.
  apply samplewise_unary with (f := fun t => vec (scalars t)).
  intros batch. reflexivity.
Qed.

Lemma samplewise_layer' (k : opkind) (x : node) (kernel bias : string) :
  is_layer k = true ->
  samplewise tf s input x -> samplewise tf s input (Op k [x; Var kernel; Var bias]).
Proof.
  intros Hk [h Hx].
  exists (fun t => layer_sample tf k (variables s kernel) (variables s bias) (h t)).
  intros batch. rewrite eval_Op by (now apply lookup_other). cbn [mapM].
  rewrite Hx, !eval_Var by (now apply lookup_other).
  destruct k; try discriminate; cbn [op_value rows]; now rewrite map_map.
Qed.

End Samplewise.

Ltac bind_inv H :=
  let a := fresh "a" in
  let c1 := fresh "c" in
  let Ha := fresh "Ha" in
  apply bind_Ok in H as (a & c1 & Ha & H).

Ltac ret_inv H := unfold ret in H; inversion H; subst; clear H.

Lemma for_each_invariant2 {A X} (P : A -> collections -> Prop) (items : list X)
    (body : A -> X -> Graph A) :
  (forall a i c a' c', In i items -> P a c -> body a i c = Ok (a', c') -> P a' c') ->
  forall x c x' c', P x c -> for_each items body x c = Ok (x', c') -> P x' c'.
Proof.
  induction items as [|i items IH]; intros Hbody x c x' c' Hx H; simpl in H.
  - unfold ret in H. now inversion H; subst.
  - apply bind_Ok in H as (a & c1 & Ha & H).
    eapply IH; [| |exact H].
    + intros. eapply Hbody; eauto. now right.
    + eapply Hbody; eauto. now left.
Qed.

Lemma prefix_append (p s t : string) :
  String.prefix p s = true -> String.prefix p (s ++ t) = true.
Proof.
  revert p. induction s as [|b s IH]; intros p H.
  - destruct p; [|discriminate]. destruct t; reflexivity.
  - destruct p as [|a p]; [reflexivity|]. simpl in *.
    destruct (ascii_dec a b); [|discriminate]. now apply IH.
Qed.

Lemma layer_is_step (pre scope type_name : string) (k : opkind) (x : node)
    (reg : option (node -> option node)) (c : collections) (x' : node) (c' : collections) :
  String.prefix pre scope = true -> is_layer k = true ->
  layer scope type_name k x reg c = Ok (x', c') ->
  layer_step pre x c x' c'.
Proof.
  intros Hp Hk H. rewrite layer_Ok in H. inversion H; subst. clear H.
  exists k, (kernel_name scope type_name), (bias_name scope type_name).
  eexists. repeat split; try reflexivity; try assumption;
    unfold kernel_name, bias_name; now apply prefix_append.
Qed.

(** A loop over the convolutions of a stack is a sequence of layer steps. *)
Lemma conv_body_step (pre : string) (filters sizes strides : list nat)
    (scope : nat -> string) (relu : nat -> bool) (reg : option (node -> option node))
    (transpose : bool) (x : node) (idx : nat) (c : collections) (x' : node)
    (c' : collections) :
  String.prefix pre (scope idx) = true ->
  bind (index filters idx) (fun f =>
  bind (index sizes idx) (fun sz =>
  bind (index strides idx) (fun t =>
    if transpose then conv2d_transpose (scope idx) x f sz t (relu idx) reg
    else conv2d (scope idx) x f sz t (relu idx) reg))) c = Ok (x', c') ->
  layer_step pre x c x' c'.
Proof.
  intros Hp H. bind_inv H. bind_inv H. bind_inv H.
  apply index_Ok in Ha as [_ ->]. apply index_Ok in Ha0 as [_ ->].
  apply index_Ok in Ha1 as [_ ->].
  destruct transpose; unfold conv2d, conv2d_transpose in H;
    (eapply layer_is_step; [exact Hp| |exact H]); reflexivity.
Qed.

(** ** The shape of the stacks built by [VQ_VAE] *)

Section VQStacks.

Variable reg : Q -> option (node -> option node).
Variable self : VQ_VAE.config.
Variable P : node -> collections -> Prop.

Hypothesis P_wrapper :
  forall k x c, is_wrapper k = true -> P x c -> P (Op k [x]) c.

Lemma vq_encoder_invariant (input : node) (c : collections) (pe0 : node)
    (c' : collections) :
  (forall x c x' c', layer_step "model/encoder" x c x' c' -> P x c -> P x' c') ->
  P input c ->
  VQ_VAE.build_encoder reg self input c = Ok (pe0, c') ->
  P pe0 c'.
Proof.
  intros P_layer Hin H. unfold VQ_VAE.build_encoder in H.
  bind_inv H. bind_inv H.
  eapply P_layer; [eapply layer_is_step; [| |exact H]; reflexivity|].
  eapply for_each_invariant2; [| |exact Ha0].
  { intros x i c2 x' c2' _ Hx Hb. eapply P_layer; [|exact Hx].
    eapply layer_is_step; [| |exact Hb]; reflexivity. }
  apply P_wrapper; [reflexivity|].
  eapply for_each_invariant2; [| |exact Ha].
  { intros x i c2 x' c2' _ Hx Hb. eapply P_layer; [|exact Hx].
    eapply (@conv_body_step "model/encoder" _ _ _
              (fun idx => ("model/encoder/conv" ++ format_d (idx + 1))%string)
              (fun _ => true) _ false); [reflexivity|exact Hb]. }
  apply P_wrapper; [reflexivity|exact Hin].
Qed.

Lemma vq_decoder_invariant (input : node) (c : collections) (lg fl out : node)
    (c' : collections) :
  (forall x c x' c', layer_step "model/decoder" x c x' c' -> P x c -> P x' c') ->
  P input c ->
  VQ_VAE.build_decoder reg self input c = Ok ((lg, fl, out), c') ->
  P lg c' /\ P fl c' /\ P out c'.
Proof.
  intros P_layer Hin H. unfold VQ_VAE.build_decoder in H.
  bind_inv H. bind_inv H.
  assert (Ha1 : P a0 c1).
  { eapply for_each_invariant2; [| |exact Ha0].
    { intros x i c2 x' c2' _ Hx Hb. eapply P_layer; [|exact Hx].
      eapply (@conv_body_step "model/decoder" _ _ _
                (fun idx => ("model/decoder/conv" ++ format_d (idx + 1))%string)
                (fun idx => negb (idx =? length (VQ_VAE.decoder_filters self) - 1))
                _ true); [reflexivity|exact Hb]. }
    apply P_wrapper; [reflexivity|].
    eapply for_each_invariant2; [| |exact Ha].
    { intros x i c2 x' c2' _ Hx Hb. eapply P_layer; [|exact Hx].
      eapply layer_is_step; [| |exact Hb]; reflexivity. }
    exact Hin. }
  destruct (pyval_eqb _ VQ_VAE.SIGMOID_CROSS_ENTROPY);
    [|destruct (pyval_eqb _ VQ_VAE.L2)]; ret_inv H;
    repeat split; repeat (apply P_wrapper; [reflexivity|]); assumption.
Qed.

End VQStacks.

Section VQEncoder.

Variable tf : library.
Variable s : session.
Variable reg : Q -> option (node -> option node).
Variable self : VQ_VAE.config.
Variable input : node.
Hypothesis input_placeholder : is_placeholder input = true.
Hypothesis dense_ok : dense_units tf.

Lemma samplewise_layer_step (pre : string) (x : node) (c : collections) (x' : node)
    (c' : collections) :
  layer_step pre x c x' c' -> samplewise tf s input x -> samplewise tf s input x'.
Proof.
  intros (k & kn & bn & rl & Hk & _ & _ & -> & _) Hx. now apply samplewise_layer'.
Qed.

Lemma samplewise_wrapper (k : opkind) (x : node) :
  is_wrapper k = true -> samplewise tf s input x -> samplewise tf s input (Op k [x]).
Proof.
  intros Hk. destruct k; try discriminate.
  - destruct spec as [|[|] spec]; try discriminate.
    now apply samplewise_unary with (f := slice_newaxis spec).
  - destruct rank as [|r]; try discriminate. now apply samplewise_expand_dims.
  - now apply samplewise_flatten.
  - now apply samplewise_unary with (f := tmap sigmoid).
Qed.

(** The encoder gives every sample, on its own, a vector of
    [latent_size * embedding_size] entries. *)
Lemma vq_encoder_samplewise (c : collections) (pe0 : node) (c' : collections) :
  VQ_VAE.build_encoder reg self input c = Ok (pe0, c') ->
  exists h : tensor R -> list R,
    (forall t, length (h t) = VQ_VAE.latent_size self * VQ_VAE.embedding_size self)
    /\ forall batch,
         eval tf s [(input, VF (Arr batch))] pe0 = Some (VF (mat (map h batch))).
Proof.
  intros H. pose proof H as H'. unfold VQ_VAE.build_encoder in H'.
  bind_inv H'. bind_inv H'.
  unfold dense in H'. rewrite layer_Ok in H'. inversion H'; subst. clear H'.
  assert (Hs : samplewise tf s input
                 (Op (kDense (VQ_VAE.latent_size self * VQ_VAE.embedding_size self) true)
                     [a0; Var (kernel_name "model/encoder/final_fc" "dense");
                      Var (bias_name "model/encoder/final_fc" "dense")])).
  { eapply (@vq_encoder_invariant reg self (fun x _ => samplewise tf s input x));
      [| |apply samplewise_input, input_placeholder|exact H].
    - intros k x _. apply samplewise_wrapper.
    - intros x c2 x' c2'. apply samplewise_layer_step. }
  destruct Hs as [h Hh].
  assert (Hvec : forall t batch, In t batch ->
                   exists l, h t = vec l
                     /\ length l = VQ_VAE.latent_size self * VQ_VAE.embedding_size self).
  { intros t batch Hin. specialize (Hh [t]).
    rewrite eval_Op in Hh by (now apply lookup_other).
    destruct (mapM _ _) as [vs|] eqn:E; [|discriminate].
    cbn [mapM] in E.
    destruct (eval tf s [(input, VF (Arr [t]))] a0) as [v0|]; [|discriminate].
    rewrite !eval_Var in E by (now apply lookup_other).
    inversion E; subst vs. clear E. cbn [op_value] in Hh.
    destruct v0 as [x0| |]; try discriminate.
    destruct x0 as [|xs]; cbn [rows map] in Hh.
    - inversion Hh.
    - inversion Hh as [Hm]. destruct xs as [|x1 [|x2 xs]]; try discriminate.
      cbn [map] in Hm. inversion Hm as [Hx]. apply dense_ok. }
  exists (fun t => scalars (h t)). split.
  - intros t. destruct (Hvec t [t] (or_introl eq_refl)) as (l & -> & Hl).
    now rewrite scalars_vec.
  - intros batch. rewrite Hh. unfold mat. rewrite map_map. do 3 f_equal.
    apply map_ext_in. intros t Ht.
    destruct (Hvec t batch Ht) as (l & -> & _). now rewrite scalars_vec.
Qed.

End VQEncoder.

(** ** What [build_all] leaves in the object *)

Lemma vq_build_all_inv (reg : Q -> option (node -> option node)) (self : VQ_VAE.config)
    (g : VQ_VAE.graph) :
  VQ_VAE.build_all reg self = Ok g ->
  exists pe0 c1 m c2 d c3 cf,
    VQ_VAE.build_encoder reg self (Placeholder "input_pl") empty_collections = Ok (pe0, c1)
    /\ VQ_VAE.build_middle self pe0 c1 = Ok (m, c2)
    /\ VQ_VAE.build_decoder reg self (VQ_VAE.m_flat_collected_embeds m) c2 = Ok (d, c3)
    /\ VQ_VAE.build_training self (Placeholder "input_pl")
         (Op (kReshape SameBatch (VQ_VAE.flat_input_shape self) []) [Placeholder "input_pl"])
         m d c3 = Ok (g, cf)
    /\ VQ_VAE.input_pl g = Placeholder "input_pl"
    /\ VQ_VAE.classes g = VQ_VAE.m_classes m
    /\ VQ_VAE.pred_embeds g = VQ_VAE.m_pred_embeds m
    /\ VQ_VAE.embeds g = VQ_VAE.m_embeds m
    /\ VQ_VAE.collected_embeds g = VQ_VAE.m_collected_embeds m
    /\ VQ_VAE.output_t g = snd d
    /\ VQ_VAE.flat_collected_embeds g = VQ_VAE.m_flat_collected_embeds m.
Proof.
  unfold VQ_VAE.build_all, VQ_VAE.build_placeholders.
  destruct (bind _ _ empty_collections) as [[g' cf]|e] eqn:H; [|discriminate].
  intros Hg. inversion Hg; subst g'. clear Hg.
  apply bind_Ok in H as ([m d] & c3 & Hn & H).
  unfold VQ_VAE.build_network in Hn.
  apply bind_Ok in Hn as (pe0 & c1 & He & Hn).
  apply bind_Ok in Hn as (m' & c2 & Hm & Hn).
  apply bind_Ok in Hn as (d' & c3' & Hd & Hn).
  ret_inv Hn. cbn [fst snd] in H.
  exists pe0, c1, m, c2, d, c3, cf. repeat split; try assumption.
  all: unfold VQ_VAE.build_training in H;
    destruct d as [[lg fl] out];
    apply bind_Ok in H as (c & c' & Hc & H);
    apply bind_Ok in H as (eg & c'' & Heg & H);
    destruct (apply_gradients _ _) as [st|e]; [|discriminate];
    ret_inv H; reflexivity.
Qed.

(** ** [VQ_VAE.encode] *)

Section VQEncode.

Variable tf : library.
Variable s : session.
Variable reg : Q -> option (node -> option node).
Variable self : VQ_VAE.config.
Variable g : VQ_VAE.graph.
Variable codebook : list (list R).

Hypothesis dense_ok : dense_units tf.
Hypothesis latent_pos : 0 < VQ_VAE.latent_size self.
Hypothesis embedding_pos : 0 < VQ_VAE.embedding_size self.
Hypothesis codebook_size : length codebook = VQ_VAE.num_embeddings self.
Hypothesis codebook_pos : 0 < VQ_VAE.num_embeddings self.
Hypothesis codebook_shape : mat_shape (VQ_VAE.embedding_size self) codebook.
Hypothesis embeds_value : variables s "model/middle/embeddings" = mat codebook.
Hypothesis built : VQ_VAE.build_all reg self = Ok g.

(** One [session.run] of [classes] on a batch assigns codes sample by
    sample. *)
Lemma vq_classes_samplewise :
  exists f : tensor R -> list nat,
    (forall t, length (f t) = VQ_VAE.latent_size self)
    /\ forall batch,
         run tf s (VQ_VAE.classes g) [(VQ_VAE.input_pl g, VF (Arr batch))]
         = Ok (VI (mat (map f batch))).
Proof.
  destruct (@vq_build_all_inv reg self g built)
    as (pe0 & c1 & m & c2 & d & c3 & cf & He & Hm & _ & _ & Hin & Hcl & _).
  destruct (@vq_encoder_samplewise tf s reg self (Placeholder "input_pl") eq_refl
              dense_ok _ _ _ He) as (h & Hlen & Hh).
  exists (fun t => map (nearest codebook)
                       (chunks_n (VQ_VAE.latent_size self) (VQ_VAE.embedding_size self)
                                 (h t))).
  split.
  - intros t. rewrite length_map. now apply chunks_n_shape.
  - intros batch. rewrite Hin, Hcl. unfold run.
    set (preds := map (fun t => chunks_n (VQ_VAE.latent_size self)
                                         (VQ_VAE.embedding_size self) (h t)) batch).
    assert (Hshape : cube_shape (VQ_VAE.latent_size self)
                                (VQ_VAE.embedding_size self) preds).
    { apply Forall_forall. intros row Hrow. apply in_map_iff in Hrow as (t & <- & _).
      now apply chunks_n_shape. }
    assert (Hpe : eval tf s [(Placeholder "input_pl", VF (Arr batch))] pe0
                  = Some (VF (mat (map (@concat R) preds)))).
    { rewrite Hh. unfold preds. rewrite map_map. do 3 f_equal.
      apply map_ext. intros t. symmetry. now apply concat_chunks_n. }
    destruct (@eval_middle tf s [(Placeholder "input_pl", VF (Arr batch))] self codebook
                preds latent_pos embedding_pos codebook_size codebook_pos codebook_shape
                Hshape eq_refl embeds_value pe0 c1 Hpe)
      as (m' & c' & Hm' & _ & Hcls & _).
    rewrite Hm in Hm'. inversion Hm'; subst m'.
    rewrite Hcls. unfold preds. now rewrite map_map.
Qed.

Lemma vq_encode_steps (f : tensor R -> list nat) (inputs : list (tensor R))
    (batch_size : nat) (steps : list nat) :
  (forall batch,
      run tf s (VQ_VAE.classes g) [(VQ_VAE.input_pl g, VF (Arr batch))]
      = Ok (VI (mat (map f batch)))) ->
  VQ_VAE.encode_steps tf g s inputs batch_size steps
  = Ok (map (fun i => mat (map f (slice (i * batch_size) ((i + 1) * batch_size) inputs)))
            steps).
Proof.
  intros Hrun. induction steps as [|i steps IH]; [reflexivity|].
  cbn [VQ_VAE.encode_steps map]. rewrite Hrun. cbn [rbind]. rewrite IH. reflexivity.
Qed.

Lemma concatenate_batches {A B} (f : A -> list B) (sl : nat -> list A) (k : nat) :
  1 <= k ->
  concatenate (map (fun i => mat (map f (sl i))) (seq 0 k))
  = Ok (mat (map f (concat (map sl (seq 0 k))))).
Proof.
  intros Hk. unfold concatenate.
  destruct (map _ (seq 0 k)) as [|t0 ts] eqn:E.
  { destruct k; [lia|discriminate]. }
  rewrite <- E. clear E t0 ts. f_equal. unfold mat at 2. f_equal.
  induction (seq 0 k) as [|i l IH]; [reflexivity|].
  cbn [map flat_map concat rows mat]. now rewrite IH, !map_app.
Qed.

(** C9, for a batch that holds at least one sample.  [encode] returns
    one row of [latent_size] assignment indices per input sample, in the
    order of the inputs, each row computed from its own sample; so the
    result is the same for every [batch_size >= 1]. *)
Theorem vq_encode_batch_size_independent :
  exists f : tensor R -> list nat,
    (forall t, length (f t) = VQ_VAE.latent_size self)
    /\ forall inputs batch_size,
         inputs <> [] -> 1 <= batch_size ->
         VQ_VAE.encode tf g s inputs batch_size = Ok (mat (map f inputs))
         /\ forall batch_size',
              1 <= batch_size' ->
              VQ_VAE.encode tf g s inputs batch_size'
              = VQ_VAE.encode tf g s inputs batch_size.
Proof.
  destruct vq_classes_samplewise as (f & Hlen & Hrun).
  exists f. split; [exact Hlen|].
  assert (Henc : forall inputs bs, inputs <> [] -> 1 <= bs ->
                   VQ_VAE.encode tf g s inputs bs = Ok (mat (map f inputs))).
  { intros inputs bs Hne Hbs. unfold VQ_VAE.encode.
    destruct (@num_steps_covers (length inputs) bs Hbs) as (k & Hk & Hcov & Hpos).
    rewrite Hk. cbn [rbind]. rewrite (@vq_encode_steps f inputs bs (seq 0 k) Hrun). cbn [rbind].
    rewrite (concatenate_batches f
               (fun i => slice (i * bs) ((i + 1) * bs) inputs)).
    - rewrite concat_slices, firstn_all2 by exact Hcov. reflexivity.
    - apply Hpos. destruct inputs; [congruence|simpl; lia]. }
  intros inputs bs Hne Hbs. split; [now apply Henc|].
  intros bs' Hbs'. now rewrite !Henc.
Qed.

End VQEncode.

(** ** [VQ_VAE.decode] after [VQ_VAE.predict] *)

Lemma randint_rows (tf : library) (np : rng) (low high rows cols : nat)
    (cls : list (list nat)) :
  randint tf np low high rows cols = Ok cls ->
  length cls = rows
  /\ Forall (fun row => length row = cols /\ Forall (fun a => low <= a < high) row) cls.
Proof.
  unfold randint. destruct ((high <=? low) && negb (rows * cols =? 0)) eqn:E;
    [discriminate|].
  intros H. inversion H; subst. clear H.
  split; [now rewrite length_map, length_seq|].
  apply Forall_forall. intros row Hrow. apply in_map_iff in Hrow as (i & <- & Hi).
  split; [now rewrite length_map, length_seq|].
  apply Forall_forall. intros a Ha. apply in_map_iff in Ha as (j & <- & Hj).
  apply in_seq in Hi, Hj.
  apply andb_false_iff in E as [E|E].
  - apply Nat.leb_gt in E.
    pose proof (Nat.mod_upper_bound (random_integer tf np i j) (high - low)). lia.
  - apply negb_false_iff, Nat.eqb_eq in E. nia.
Qed.

(** C8.  The outputs [predict] returns for the classes it drew are the
    outputs [decode] computes from those classes: both run [output_t] with
    the same classes and the same zero [pred_embeds]. *)
Theorem vq_decode_reproduces_predict (tf : library) (self : VQ_VAE.config)
    (g : VQ_VAE.graph) (s : session) (np : rng) (num_samples : nat)
    (outputs : tensor R) (cls : list (list nat)) :
  VQ_VAE.predict tf self g s np num_samples = Ok (outputs, cls) ->
  VQ_VAE.decode tf self g s cls = Ok outputs.
Proof.
  unfold VQ_VAE.predict, VQ_VAE.decode. intros H.
  destruct (randint tf np 0 (VQ_VAE.num_embeddings self) num_samples
                    (VQ_VAE.latent_size self)) as [cls'|e] eqn:Hr; [|discriminate].
  cbn [rbind] in H. destruct (randint_rows _ _ _ _ _ _ Hr) as [Hlen _].
  destruct (run tf s (VQ_VAE.output_t g) (VQ_VAE.classes_feed self g cls' num_samples))
    as [o|e] eqn:Ho; [|discriminate].
  cbn [rbind] in H. destruct (VQ_VAE.first_channel o) as [o'|e] eqn:Hf; [|discriminate].
  cbn [rbind] in H. injection H as H1 H2. subst o' cls'.
  rewrite Hlen, Ho. cbn [rbind]. exact Hf.
Qed.

(** ** Gradient paths *)

Lemma gradients_from_Op (k : opkind) (ins : list node) (x g : node) :
  gradients_from (Op k ins) x g
  = if node_eqb (Op k ins) x then Some g
    else sum_grads (input_grads k ins x g 0 ins).
Proof.
  cbn [gradients_from]. destruct (node_eqb (Op k ins) x); [reflexivity|].
  f_equal.
  enough (H : forall l i,
             (fix go (i : nat) (l : list node) {struct l} : list (option node) :=
                match l with
                | [] => []
                | a :: l' =>
                    (if differentiable k i then gradients_from a x (vjp k i ins g)
                     else None) :: go (S i) l'
                end) i l
             = input_grads k ins x g i l) by apply H.
  induction l as [|a l IH]; intros i; [reflexivity|].
  cbn [input_grads]. now rewrite IH.
Qed.

Lemma gradients_from_Op_Var (k : opkind) (ins : list node) (v : string) (g : node) :
  gradients_from (Op k ins) (Var v) g = sum_grads (input_grads k ins (Var v) g 0 ins).
Proof. now rewrite gradients_from_Op. Qed.

Lemma gradients_from_Var (n v : string) (g : node) :
  gradients_from (Var n) (Var v) g = if String.eqb n v then Some g else None.
Proof. reflexivity. Qed.

Lemma sum_grads_some (gs : list (option node)) :
  Exists (fun o => o <> None) gs -> sum_grads gs <> None.
Proof.
  intros H. unfold sum_grads.
  assert (Hne : flat_map (fun o : option node => match o with
                                                 | Some g => [g]
                                                 | None => []
                                                 end) gs <> []).
  { induction H as [o gs Ho|o gs _ IH].
    - destruct o; [discriminate|congruence].
    - destruct o; [discriminate|exact IH]. }
  destruct (flat_map _ gs) as [|a [|b l]]; congruence.
Qed.

Ltac grad_step :=
  rewrite ?gradients_from_Op_Var;
  cbn [input_grads differentiable vjp nth Nat.eqb negb].

Ltac reach_step :=
  rewrite gradients_from_Op;
  destruct (node_eqb _ _); [discriminate|];
  cbn [input_grads differentiable vjp nth Nat.eqb negb];
  apply sum_grads_some.

(** No gradient of the left loss reaches a variable other than the
    codebook: the predicted embeddings are detached and [tf.argmin] has no
    gradient. *)
Lemma left_loss_only_codebook (pe cls : node) (v : string) (g : node) :
  v <> embeddings_name ->
  gradients_from (VQ_VAE.left_loss pe (Op kGather [Var embeddings_name; cls])) (Var v) g
  = None.
Proof.
  intros Hv. unfold VQ_VAE.left_loss.
  repeat grad_step. rewrite gradients_from_Var.
  replace (String.eqb embeddings_name v) with false; [reflexivity|].
  symmetry. apply String.eqb_neq. congruence.
Qed.

Lemma left_loss_reaches_codebook (pe cls : node) (g : node) :
  exists ins,
    gradients_from (VQ_VAE.left_loss pe (Op kGather [Var embeddings_name; cls]))
                   (Var embeddings_name) g
    = Some (Op (kGrad kGather 0) ins).
Proof.
  unfold VQ_VAE.left_loss. repeat grad_step. rewrite gradients_from_Var.
  rewrite String.eqb_refl. cbn. eexists. reflexivity.
Qed.

(** No gradient of the right loss reaches the codebook, provided none
    reaches it through the predicted embeddings: the collected embeddings
    are detached. *)
Lemma right_loss_not_codebook (pe ce : node) (g : node) :
  (forall g', gradients_from pe (Var embeddings_name) g' = None) ->
  gradients_from (VQ_VAE.right_loss pe ce) (Var embeddings_name) g = None.
Proof.
  intros Hpe. unfold VQ_VAE.right_loss.
  repeat grad_step. rewrite Hpe. reflexivity.
Qed.

(** The gradient of the output loss reaches whatever the decoder output
    depends on. *)
Lemma output_loss_reaches (self : VQ_VAE.config) (ift fl t : node) (g : node) :
  (forall g', gradients_from fl t g' <> None) ->
  gradients_from (VQ_VAE.output_loss self ift fl) t g <> None.
Proof.
  intros Hfl. unfold VQ_VAE.output_loss, VQ_VAE.full_output_loss.
  destruct (pyval_eqb _ _).
  - reach_step. left. reach_step. left. reach_step. right. left. apply Hfl.
  - reach_step. left. reach_step. left. reach_step. left. reach_step. right. left.
    apply Hfl.
Qed.

(** ** Scopes *)

Lemma prefix_comparable (p q s : string) :
  String.prefix p s = true -> String.prefix q s = true ->
  String.prefix p q = true \/ String.prefix q p = true.
Proof.
  revert p q. induction s as [|b s IH]; intros p q Hp Hq.
  - destruct p; [|discriminate]. left. destruct q; reflexivity.
  - destruct p as [|a p]; [left; destruct q; reflexivity|].
    destruct q as [|a' q]; [right; reflexivity|].
    simpl in *.
    destruct (ascii_dec a b); [|discriminate].
    destruct (ascii_dec a' b); [|discriminate]. subst a a'.
    destruct (ascii_dec b b); [|congruence]. now apply IH.
Qed.

Lemma decoder_not_encoder (s : string) :
  String.prefix "model/decoder" s = true -> String.prefix "model/encoder" s = false.
Proof.
  intros H. destruct (String.prefix "model/encoder" s) eqn:E; [|reflexivity].
  destruct (prefix_comparable _ _ _ H E); discriminate.
Qed.

Lemma encoder_not_codebook (s : string) :
  String.prefix "model/encoder" s = true -> s <> embeddings_name.
Proof. intros H ->. discriminate. Qed.

Lemma decoder_not_codebook (s : string) :
  String.prefix "model/decoder" s = true -> s <> embeddings_name.
Proof. intros H ->. discriminate. Qed.

(** ** Where the gradients of [VQ_VAE] can and cannot flow *)

Lemma wrapper_differentiable (k : opkind) : is_wrapper k = true -> differentiable k 0 = true.
Proof. destruct k; try discriminate; reflexivity. Qed.

Lemma layer_differentiable (k : opkind) (i : nat) : is_layer k = true -> differentiable k i = true.
Proof. destruct k; try discriminate; reflexivity. Qed.

Lemma no_path_wrapper (v : string) (k : opkind) (x : node) :
  (forall g, gradients_from x (Var v) g = None) ->
  forall g, gradients_from (Op k [x]) (Var v) g = None.
Proof.
  intros Hx g. rewrite gradients_from_Op_Var. cbn [input_grads].
  destruct (differentiable k 0); [rewrite Hx|]; reflexivity.
Qed.

Lemma no_path_layer (v : string) (pre : string) (x : node) (c : collections) (x' : node)
    (c' : collections) :
  String.prefix pre v = false ->
  layer_step pre x c x' c' ->
  (forall g, gradients_from x (Var v) g = None) ->
  forall g, gradients_from x' (Var v) g = None.
Proof.
  intros Hv (k & kn & bn & rl & Hk & Hkn & Hbn & -> & _) Hx g.
  rewrite gradients_from_Op_Var. cbn [input_grads].
  rewrite !layer_differentiable by exact Hk. rewrite Hx, !gradients_from_Var.
  replace (String.eqb kn v) with false
    by (symmetry; apply String.eqb_neq; intros ->; congruence).
  replace (String.eqb bn v) with false
    by (symmetry; apply String.eqb_neq; intros ->; congruence).
  reflexivity.
Qed.

Lemma reaches_wrapper (t : node) (k : opkind) (x : node) :
  is_wrapper k = true ->
  (forall g, gradients_from x t g <> None) ->
  forall g, gradients_from (Op k [x]) t g <> None.
Proof.
  intros Hk Hx g. rewrite gradients_from_Op.
  destruct (node_eqb _ _); [discriminate|]. cbn [input_grads].
  rewrite wrapper_differentiable by exact Hk. apply sum_grads_some. left. apply Hx.
Qed.

Lemma reaches_layer (t : node) (pre : string) (x : node) (c : collections) (x' : node)
    (c' : collections) :
  layer_step pre x c x' c' ->
  (forall g, gradients_from x t g <> None) ->
  forall g, gradients_from x' t g <> None.
Proof.
  intros (k & kn & bn & rl & Hk & Hkn & Hbn & -> & _) Hx g.
  rewrite gradients_from_Op.
  destruct (node_eqb _ _); [discriminate|]. cbn [input_grads].
  rewrite !layer_differentiable by exact Hk. apply sum_grads_some. left. apply Hx.
Qed.

Lemma new_variables_reached (v : string) (pre : string) (x : node) (c : collections)
    (x' : node) (c' : collections) :
  layer_step pre x c x' c' ->
  In v (trainable_variables c') -> ~ In v (trainable_variables c) ->
  forall g, gradients_from x' (Var v) g <> None.
Proof.
  intros (k & kn & bn & rl & Hk & Hkn & Hbn & -> & Ht & _) Hin Hnew g.
  rewrite Ht in Hin. apply in_app_or in Hin as [Hin|Hin]; [contradiction|].
  rewrite gradients_from_Op_Var. cbn [input_grads].
  rewrite !layer_differentiable by exact Hk. rewrite !gradients_from_Var.
  apply sum_grads_some.
  destruct Hin as [<-|[<-|[]]].
  - right. left. rewrite String.eqb_refl. discriminate.
  - right. right. left. rewrite String.eqb_refl. discriminate.
Qed.

Section VQGradients.

Variable reg : Q -> option (node -> option node).
Variable self : VQ_VAE.config.

Lemma vq_encoder_no_codebook_path (n : string) (c : collections) (pe0 : node)
    (c' : collections) :
  VQ_VAE.build_encoder reg self (Placeholder n) c = Ok (pe0, c') ->
  forall g, gradients_from pe0 (Var embeddings_name) g = None.
Proof.
  apply (@vq_encoder_invariant reg self
           (fun x _ => forall g, gradients_from x (Var embeddings_name) g = None)).
  - intros k x _ _. apply no_path_wrapper.
  - intros x c0 x' c0'. now apply no_path_layer.
  - reflexivity.
Qed.

Lemma vq_decoder_reaches (t : node) (input : node) (c : collections)
    (lg fl out : node) (c' : collections) :
  (forall g, gradients_from input t g <> None) ->
  VQ_VAE.build_decoder reg self input c = Ok ((lg, fl, out), c') ->
  forall g, gradients_from fl t g <> None.
Proof.
  intros Hin H.
  apply (@vq_decoder_invariant reg self
           (fun x _ => forall g, gradients_from x t g <> None)) in H;
    [tauto| | |exact Hin].
  - intros k x _. apply reaches_wrapper.
  - intros x c0 x' c0'. apply reaches_layer.
Qed.

End VQGradients.

(** ** [VQ_VAE.build_training] *)

Section VQTraining.

Variable reg : Q -> option (node -> option node).
Variable self : VQ_VAE.config.

Lemma encoder_grads_inv (pe rl : node) (gz : option node) (vars : list node)
    (c : collections) (eg : list (option node * node)) (c' : collections) :
  for_list (VQ_VAE.encoder_grad self pe rl gz) vars c = Ok (eg, c') ->
  c' = c /\ Forall2 (encoder_entry self pe rl gz) vars eg.
Proof.
  revert eg c'. induction vars as [|v vars IH]; intros eg c' H; simpl in H.
  - ret_inv H. split; [reflexivity|constructor].
  - bind_inv H. bind_inv H. ret_inv H.
    unfold VQ_VAE.encoder_grad in Ha.
    destruct (gradients_from pe v _) as [ga|] eqn:E1; [|discriminate].
    destruct (gradients rl v) as [gb|] eqn:E2; [|discriminate].
    ret_inv Ha. destruct (IH _ _ Ha0) as [-> Hf].
    split; [reflexivity|]. constructor; [|exact Hf].
    exists ga, gb. now repeat split.
Qed.

Lemma vq_build_training_inv (ip ift : node) (m : VQ_VAE.middle) (lg fl out : node)
    (c : collections) (g : VQ_VAE.graph) (cf : collections) :
  VQ_VAE.build_training self ip ift m (lg, fl, out) c = Ok (g, cf) ->
  VQ_VAE.output_loss_t g = VQ_VAE.output_loss self ift fl
  /\ VQ_VAE.left_loss_t g
     = VQ_VAE.left_loss (VQ_VAE.m_pred_embeds m) (VQ_VAE.m_collected_embeds m)
  /\ VQ_VAE.right_loss_t g
     = VQ_VAE.right_loss (VQ_VAE.m_pred_embeds m) (VQ_VAE.m_collected_embeds m)
  /\ VQ_VAE.reg_loss_t g = VQ_VAE.reg_loss (regularization_losses c)
  /\ VQ_VAE.loss_t g
     = VQ_VAE.total_loss self (VQ_VAE.output_loss_t g) (VQ_VAE.left_loss_t g)
                         (VQ_VAE.right_loss_t g) (VQ_VAE.reg_loss_t g)
  /\ exists eg,
       Forall2 (encoder_entry self (VQ_VAE.m_pred_embeds m) (VQ_VAE.right_loss_t g)
                              (gradients (VQ_VAE.output_loss_t g)
                                         (VQ_VAE.m_collected_embeds m)))
               (trainable_in "model/encoder" c) eg
       /\ VQ_VAE.step_op g
          = ApplyGradients (VQ_VAE.training_rate self (Var "global_step"))
              (map (fun v => (gradients (VQ_VAE.loss_t g) v, v))
                   (trainable_in "model/decoder" c)
               ++ eg
               ++ [(gradients (VQ_VAE.left_loss_t g) (VQ_VAE.m_embeds m),
                    VQ_VAE.m_embeds m)]).
Proof.
  unfold VQ_VAE.build_training. intros H.
  apply bind_Ok in H as (c0 & c0' & Hc & H).
  unfold get_collections in Hc. inversion Hc; subst c0 c0'. clear Hc.
  apply bind_Ok in H as (eg & c' & Heg & H).
  apply encoder_grads_inv in Heg as [-> Heg].
  destruct (apply_gradients _ _) as [st|e] eqn:Hst; [|discriminate].
  ret_inv H. cbn. repeat split. exists eg. split; [exact Heg|].
  unfold apply_gradients in Hst. destruct (existsb _ _); [|discriminate].
  now inversion Hst.
Qed.

End VQTraining.

Section VQModel.

Variable reg : Q -> option (node -> option node).
Variable self : VQ_VAE.config.

(** Everything the theorems below need to know about a graph made by
    [build_all]. *)
Lemma vq_built_graph (g : VQ_VAE.graph) :
  VQ_VAE.build_all reg self = Ok g ->
  exists pe0 c1 lg fl out c3 eg,
    VQ_VAE.build_encoder reg self (Placeholder "input_pl") empty_collections
    = Ok (pe0, c1)
    /\ VQ_VAE.build_decoder reg self (VQ_VAE.flat_collected_embeds g)
         {| trainable_variables := trainable_variables c1 ++ [embeddings_name];
            regularization_losses := regularization_losses c1 |}
       = Ok ((lg, fl, out), c3)
    /\ VQ_VAE.pred_embeds g
       = Op (kReshape Infer (VQ_VAE.latent_size self) [VQ_VAE.embedding_size self]) [pe0]
    /\ VQ_VAE.embeds g = Var embeddings_name
    /\ VQ_VAE.collected_embeds g = Op kGather [Var embeddings_name; VQ_VAE.classes g]
    /\ VQ_VAE.flat_collected_embeds g
       = Op (kReshape Infer (VQ_VAE.latent_size self * VQ_VAE.embedding_size self) [])
            [VQ_VAE.collected_embeds g]
    /\ VQ_VAE.output_loss_t g = VQ_VAE.output_loss self (vq_input_flat self) fl
    /\ VQ_VAE.left_loss_t g
       = VQ_VAE.left_loss (VQ_VAE.pred_embeds g) (VQ_VAE.collected_embeds g)
    /\ VQ_VAE.right_loss_t g
       = VQ_VAE.right_loss (VQ_VAE.pred_embeds g) (VQ_VAE.collected_embeds g)
    /\ VQ_VAE.reg_loss_t g = VQ_VAE.reg_loss (regularization_losses c3)
    /\ VQ_VAE.loss_t g
       = VQ_VAE.total_loss self (VQ_VAE.output_loss_t g) (VQ_VAE.left_loss_t g)
                           (VQ_VAE.right_loss_t g) (VQ_VAE.reg_loss_t g)
    /\ Forall2 (encoder_entry self (VQ_VAE.pred_embeds g) (VQ_VAE.right_loss_t g)
                              (gradients (VQ_VAE.output_loss_t g)
                                         (VQ_VAE.collected_embeds g)))
               (trainable_in "model/encoder" c3) eg
    /\ VQ_VAE.step_op g
       = ApplyGradients (VQ_VAE.training_rate self (Var "global_step"))
           (map (fun v => (gradients (VQ_VAE.loss_t g) v, v))
                (trainable_in "model/decoder" c3)
            ++ eg
            ++ [(gradients (VQ_VAE.left_loss_t g) (VQ_VAE.embeds g), VQ_VAE.embeds g)]).
Proof.
  intros Hb.
  destruct (@vq_build_all_inv reg self g Hb)
    as (pe0 & c1 & m & c2 & [[lg fl] out] & c3 & cf & He & Hm & Hd & Ht
        & _ & Hcl & Hpe & Hem & Hco & _ & Hfl).
  destruct (@vq_build_training_inv self _ _ _ _ _ _ _ _ _ Ht)
    as (Ho & Hl & Hr & Hrg & Hlo & eg & Heg & Hst).
  unfold VQ_VAE.build_middle, bind, add_trainable, ret in Hm.
  inversion Hm; subst m c2. clear Hm.
  cbn [VQ_VAE.m_pred_embeds VQ_VAE.m_embeds VQ_VAE.m_classes
       VQ_VAE.m_collected_embeds VQ_VAE.m_flat_collected_embeds] in *.
  exists pe0, c1, lg, fl, out, c3, eg.
  rewrite Hlo in Hst. rewrite Hr, Ho in Heg. rewrite Ho, Hl, Hr, Hrg in Hst.
  rewrite Hst, Hlo, Ho, Hl, Hr, Hrg, Hfl, Hco, Hcl, Hpe, Hem.
  unfold embeddings_name, vq_input_flat. repeat split; assumption.
Qed.

End VQModel.

Lemma reshape_reaches (lead : lead_dim) (d : nat) (ds : list nat) (x t : node) :
  (forall g, gradients_from x t g <> None) ->
  forall g, gradients_from (Op (kReshape lead d ds) [x]) t g <> None.
Proof. intros Hx g. reach_step. left. apply Hx. Qed.

(** ** The gradients applied by [VQ_VAE.step_op] *)

Lemma total_loss_codebook_gradient (self : VQ_VAE.config) (out left right reg_l : node) :
  (forall g, gradients_from out (Var embeddings_name) g <> None) ->
  (forall g, gradients_from left (Var embeddings_name) g <> None) ->
  (forall g, gradients_from right (Var embeddings_name) g = None) ->
  exists l,
    gradients (VQ_VAE.total_loss self out left right reg_l) (Var embeddings_name)
    = Some (Op kAddN l).
Proof.
  intros Hout Hleft Hright. unfold gradients, VQ_VAE.total_loss.
  repeat grad_step. rewrite Hright.
  match goal with |- context [gradients_from out _ ?g] =>
    destruct (gradients_from out (Var embeddings_name) g) as [a|] eqn:Ea;
      [|now apply Hout in Ea]
  end.
  match goal with |- context [gradients_from left _ ?g] =>
    destruct (gradients_from left (Var embeddings_name) g) as [b|] eqn:Eb;
      [|now apply Hleft in Eb]
  end.
  cbn [sum_grads flat_map app].
  match goal with |- context [gradients_from reg_l _ ?g] =>
    destruct (gradients_from reg_l (Var embeddings_name) g) as [r|]
  end; cbn [sum_grads flat_map app]; eauto.
Qed.

Lemma eval_total_loss (tf : library) (s : session) (feed : list (node * value))
    (self : VQ_VAE.config) (out left right reg_l : node) (o l r rg : R) :
  feeds_placeholders feed = true ->
  eval tf s feed out = Some (VF (Sc o)) ->
  eval tf s feed left = Some (VF (Sc l)) ->
  eval tf s feed right = Some (VF (Sc r)) ->
  eval tf s feed reg_l = Some (VF (Sc rg)) ->
  eval tf s feed (VQ_VAE.total_loss self out left right reg_l)
  = Some (VF (Sc (o + Q2R (VQ_VAE.beta1 self) * l + Q2R (VQ_VAE.beta2 self) * r + rg)%R)).
Proof.
  intros Hf Ho Hl Hr Hrg. unfold VQ_VAE.total_loss.
  do 5 eval_op. rewrite Ho, Hl, Hr, Hrg. reflexivity.
Qed.

Section VQIsolation.

Variable reg : Q -> option (node -> option node).
Variable self : VQ_VAE.config.
Variable g : VQ_VAE.graph.
Hypothesis built : VQ_VAE.build_all reg self = Ok g.

Lemma vq_left_loss_isolated (name : string) :
  name <> embeddings_name ->
  gradients (VQ_VAE.left_loss_t g) (Var name) = None.
Proof.
  intros Hn.
  destruct (@vq_built_graph reg self g built)
    as (pe0 & c1 & lg & fl & out & c3 & eg & He & Hd & Hpe & Hem & Hco & Hfc & Ho
        & Hl & Hr & _).
  rewrite Hl, Hco. now apply left_loss_only_codebook.
Qed.

Lemma vq_right_loss_isolated :
  gradients (VQ_VAE.right_loss_t g) (VQ_VAE.embeds g) = None.
Proof.
  destruct (@vq_built_graph reg self g built)
    as (pe0 & c1 & lg & fl & out & c3 & eg & He & Hd & Hpe & Hem & Hco & Hfc & Ho
        & Hl & Hr & _).
  rewrite Hr, Hem. apply right_loss_not_codebook.
  rewrite Hpe. apply no_path_wrapper.
  exact (@vq_encoder_no_codebook_path reg self _ _ _ _ He).
Qed.

Lemma vq_flat_logits_reach (t : node) :
  (forall g0, gradients_from (VQ_VAE.collected_embeds g) t g0 <> None) ->
  forall g0, gradients_from (VQ_VAE.output_loss_t g) t g0 <> None.
Proof.
  intros Ht g0.
  destruct (@vq_built_graph reg self g built)
    as (pe0 & c1 & lg & fl & out & c3 & eg & He & Hd & Hpe & Hem & Hco & Hfc & Ho
        & Hl & Hr & _).
  rewrite Ho. apply output_loss_reaches.
  apply (@vq_decoder_reaches reg self t _ _ _ _ _ _) with (2 := Hd).
  rewrite Hfc. now apply reshape_reaches.
Qed.

Lemma vq_output_loss_reaches_codebook :
  forall g0, gradients_from (VQ_VAE.output_loss_t g) (VQ_VAE.embeds g) g0 <> None.
Proof.
  apply vq_flat_logits_reach.
  destruct (@vq_built_graph reg self g built)
    as (pe0 & c1 & lg & fl & out & c3 & eg & He & Hd & Hpe & Hem & Hco & _).
  rewrite Hco, Hem. intros g0. grad_step. rewrite gradients_from_Var, String.eqb_refl.
  discriminate.
Qed.

(** C3.  No gradient of [left_loss] reaches an encoder or
    decoder parameter and no gradient of [right_loss] reaches the
    codebook: [tf.gradients] finds no path.  The gradient of
    [output_loss] does reach the codebook, through [tf.gather]; it is
    kept out of the codebook update by [build_training], whose only entry
    for the codebook is the gradient of [left_loss]. *)
Theorem vq_codebook_gradient_isolation :
  (forall name,
      String.prefix "model/encoder" name = true
      \/ String.prefix "model/decoder" name = true ->
      gradients (VQ_VAE.left_loss_t g) (Var name) = None)
  /\ gradients (VQ_VAE.right_loss_t g) (VQ_VAE.embeds g) = None
  /\ gradients (VQ_VAE.output_loss_t g) (VQ_VAE.embeds g) <> None
  /\ exists rate others,
       VQ_VAE.step_op g
       = ApplyGradients rate
           (others ++ [(gradients (VQ_VAE.left_loss_t g) (VQ_VAE.embeds g),
                        VQ_VAE.embeds g)])
       /\ Forall (fun gv => snd gv <> VQ_VAE.embeds g) others.
Proof.
  split; [|split; [|split]].
  - intros name [H|H]; apply vq_left_loss_isolated.
    + now apply encoder_not_codebook.
    + now apply decoder_not_codebook.
  - apply vq_right_loss_isolated.
  - apply vq_output_loss_reaches_codebook.
  - destruct (@vq_built_graph reg self g built)
      as (pe0 & c1 & lg & fl & out & c3 & eg & _ & _ & _ & Hem & _ & _ & _ & _ & _ & _
          & _ & Heg & Hst).
    eexists. eexists. split; [rewrite Hst, app_assoc; reflexivity|].
    rewrite Hem. apply Forall_app. split.
    + apply Forall_forall. intros gv Hgv. apply in_map_iff in Hgv as (v & <- & Hv).
      unfold trainable_in in Hv. apply in_map_iff in Hv as (name & <- & Hname).
      apply filter_In in Hname as [_ Hp]. cbn [snd]. intros E. inversion E; subst.
      discriminate.
    + clear Hst.
      assert (Hvars : forall v, In v (trainable_in "model/encoder" c3) ->
                        v <> Var "model/middle/embeddings").
      { intros v Hv. unfold trainable_in in Hv.
        apply in_map_iff in Hv as (name & <- & Hname).
        apply filter_In in Hname as [_ Hp]. intros E. inversion E; subst. discriminate. }
      induction Heg as [|v gv vars eg' (a & b & _ & _ & ->) _ IH]; constructor.
      * cbn [snd]. apply Hvars. now left.
      * apply IH. intros x Hx. apply Hvars. now right.
Qed.

End VQIsolation.

(** C2.  In a built [VQ_VAE] the scalar [loss_t] is [output_loss + beta1
    * left_loss + beta2 * right_loss + regularization_loss].  [step_op]
    is one [apply_gradients] over the concatenation of three lists, made
    from the trainable variables [build_network] has registered: for
    those under ["model/decoder"] the gradient of [loss_t]; for those
    under ["model/encoder"] the gradient that reaches [collected_embeds]
    from [output_loss], sent back from [pred_embeds], plus [beta2] times
    the gradient of [right_loss]; for the codebook the gradient of
    [left_loss].  This is not the gradient of [loss_t] for every
    variable: for the codebook the two differ. *)
Theorem vq_step_op_applies_assembled_gradients (reg : Q -> option (node -> option node))
    (self : VQ_VAE.config) (g : VQ_VAE.graph) :
  VQ_VAE.build_all reg self = Ok g ->
  (forall tf s feed o l r rg,
      feeds_placeholders feed = true ->
      eval tf s feed (VQ_VAE.output_loss_t g) = Some (VF (Sc o)) ->
      eval tf s feed (VQ_VAE.left_loss_t g) = Some (VF (Sc l)) ->
      eval tf s feed (VQ_VAE.right_loss_t g) = Some (VF (Sc r)) ->
      eval tf s feed (VQ_VAE.reg_loss_t g) = Some (VF (Sc rg)) ->
      eval tf s feed (VQ_VAE.loss_t g)
      = Some (VF (Sc (o + Q2R (VQ_VAE.beta1 self) * l
                      + Q2R (VQ_VAE.beta2 self) * r + rg)%R)))
  /\ (exists md c grad_z encoder_grads,
        VQ_VAE.build_network reg self (Placeholder "input_pl") empty_collections
        = Ok (md, c)
        /\ gradients (VQ_VAE.output_loss_t g) (VQ_VAE.collected_embeds g) = Some grad_z
        /\ Forall2
             (fun v gv =>
                exists a b,
                  gradients_from (VQ_VAE.pred_embeds g) v grad_z = Some a
                  /\ gradients (VQ_VAE.right_loss_t g) v = Some b
                  /\ gv = (Some (Op kAdd [a; Op (kMulConst (VQ_VAE.beta2 self)) [b]]), v))
             (trainable_in "model/encoder" c) encoder_grads
        /\ VQ_VAE.step_op g
           = ApplyGradients (VQ_VAE.training_rate self (Var "global_step"))
               (map (fun v => (gradients (VQ_VAE.loss_t g) v, v))
                    (trainable_in "model/decoder" c)
                ++ encoder_grads
                ++ [(gradients (VQ_VAE.left_loss_t g) (VQ_VAE.embeds g),
                     VQ_VAE.embeds g)]))
  /\ gradients (VQ_VAE.loss_t g) (VQ_VAE.embeds g)
     <> gradients (VQ_VAE.left_loss_t g) (VQ_VAE.embeds g).
Proof.
  intros Hb.
  destruct (@vq_build_all_inv reg self g Hb)
    as (pe0' & c1' & m & c2 & [[lg' fl'] out'] & c3' & cf & He' & Hm & Hd' & _
        & _ & _ & _ & _ & _ & _ & Hflm).
  destruct (@vq_built_graph reg self g Hb)
    as (pe0 & c1 & lg & fl & out & c3 & eg & He & Hd & Hpe & Hem & Hco & Hfc & Ho
        & Hl & Hr & Hrg & Hlo & Heg & Hst).
  assert (Hnet : VQ_VAE.build_network reg self (Placeholder "input_pl") empty_collections
                 = Ok ((m, (lg, fl, out)), c3)).
  { rewrite He in He'. inversion He'; subst pe0' c1'. clear He'.
    assert (Hc2 : c2 = {| trainable_variables := trainable_variables c1 ++ [embeddings_name];
                          regularization_losses := regularization_losses c1 |}).
    { unfold VQ_VAE.build_middle, bind, add_trainable, ret in Hm. now inversion Hm. }
    subst c2. unfold VQ_VAE.build_network, bind. rewrite He, Hm, <- Hflm, Hd.
    reflexivity. }
  split; [|split].
  - intros tf s feed o l r rg Hf Eo El Er Erg. rewrite Hlo.
    now apply eval_total_loss.
  - destruct (gradients (VQ_VAE.output_loss_t g) (VQ_VAE.collected_embeds g))
      as [gz|] eqn:Egz.
    + exists (m, (lg, fl, out)), c3, gz, eg. repeat split; assumption.
    + exfalso. revert Egz. apply (@vq_flat_logits_reach reg self g Hb).
      intros g0. rewrite Hco. cbn [gradients_from]. rewrite node_eqb_refl. discriminate.
  - destruct (@total_loss_codebook_gradient self (VQ_VAE.output_loss_t g)
                (VQ_VAE.left_loss_t g) (VQ_VAE.right_loss_t g) (VQ_VAE.reg_loss_t g))
      as [l Hl'].
    + rewrite <- Hem. apply (@vq_output_loss_reaches_codebook reg self g Hb).
    + intros g0. rewrite Hl, Hco.
      destruct (left_loss_reaches_codebook (VQ_VAE.pred_embeds g) (VQ_VAE.classes g) g0)
        as [ins ->]. discriminate.
    + intros g0. rewrite <- Hem.
      pose proof (@vq_right_loss_isolated reg self g Hb) as Hiso.
      rewrite Hr, Hem in *. apply right_loss_not_codebook.
      rewrite Hpe. apply no_path_wrapper.
      exact (@vq_encoder_no_codebook_path reg self _ _ _ _ He).
    + rewrite Hlo, Hem, Hl'. rewrite Hl, Hco. unfold gradients.
      destruct (left_loss_reaches_codebook (VQ_VAE.pred_embeds g) (VQ_VAE.classes g)
                  (Op kOnesLike [VQ_VAE.left_loss (VQ_VAE.pred_embeds g)
                                   (Op kGather [Var embeddings_name; VQ_VAE.classes g])]))
        as [ins ->]. discriminate.
Qed.

(** ** The shape of the graph built by [SG_VAE] *)

Section SGStacks.

Variable reg : Q -> option (node -> option node).
Variable self : SG_VAE.config.
Variable P : node -> collections -> Prop.

Hypothesis P_wrapper :
  forall k x c, is_wrapper k = true -> P x c -> P (Op k [x]) c.

Lemma sg_encoder_invariant (input : node) (c : collections) (x : node)
    (c' : collections) :
  (forall x c x' c', layer_step "model/encoder" x c x' c' -> P x c -> P x' c') ->
  P input c ->
  SG_VAE.build_encoder reg self input c = Ok (x, c') ->
  P x c'.
Proof.
  intros P_layer Hin H. unfold SG_VAE.build_encoder in H.
  bind_inv H.
  eapply for_each_invariant2; [| |exact H].
  { intros x0 i c2 x' c2' _ Hx Hb. eapply P_layer; [|exact Hx].
    eapply layer_is_step; [| |exact Hb]; reflexivity. }
  apply P_wrapper; [reflexivity|].
  eapply for_each_invariant2; [| |exact Ha].
  { intros x0 i c2 x' c2' _ Hx Hb. eapply P_layer; [|exact Hx].
    eapply (@conv_body_step "model/encoder" _ _ _
              (fun idx => ("model/encoder/conv" ++ format_d (idx + 1))%string)
              (fun _ => true) _ false); [reflexivity|exact Hb]. }
  apply P_wrapper; [reflexivity|exact Hin].
Qed.

End SGStacks.

Section SGModel.

Variable reg : Q -> option (node -> option node).
Variable self : SG_VAE.config.

Lemma sg_built_graph (g : SG_VAE.graph) :
  SG_VAE.build_all reg self = Ok g ->
  exists x c1 c2 c3,
    SG_VAE.build_encoder reg self SG_VAE.the_input_pl empty_collections = Ok (x, c1)
    /\ SG_VAE.build_middle reg self x c1
       = Ok ((SG_VAE.sample_t g, SG_VAE.kl_divergence_t g, SG_VAE.probs_t g), c2)
    /\ SG_VAE.build_decoder reg self (SG_VAE.sample_t g) c2
       = Ok ((SG_VAE.logits_t g, SG_VAE.flat_logits_t g, SG_VAE.output_t g), c3)
    /\ SG_VAE.input_pl g = SG_VAE.the_input_pl
    /\ SG_VAE.is_training_pl g = SG_VAE.the_is_training_pl
    /\ SG_VAE.temperature_pl g = SG_VAE.the_temperature_pl
    /\ SG_VAE.probs_t g = sg_logits self x
    /\ SG_VAE.sample_t g = SG_VAE.selected_sample self (sg_logits self x)
    /\ SG_VAE.kl_divergence_t g = SG_VAE.kl_divergence self (sg_logits self x)
    /\ SG_VAE.kl_loss_t g
       = Op (kReduceMean None) [Op (kReduceSum 1) [SG_VAE.kl_divergence_t g]].
Proof.
  unfold SG_VAE.build_all.
  destruct (bind _ _ empty_collections) as [[g' cf]|e] eqn:H; [|discriminate].
  intros Hg. inversion Hg; subst g'. clear Hg.
  apply bind_Ok in H as ([m d] & c3 & Hn & H).
  unfold SG_VAE.build_network in Hn.
  apply bind_Ok in Hn as (x & c1 & He & Hn).
  apply bind_Ok in Hn as (m' & c2 & Hm & Hn).
  apply bind_Ok in Hn as (d' & c3' & Hd & Hn).
  ret_inv Hn. cbn [fst snd] in H.
  unfold SG_VAE.build_training in H.
  destruct m as [[sample kl] probs]. destruct d as [[lg fl] out].
  apply bind_Ok in H as (c & c' & Hc & H).
  unfold get_collections in Hc. inversion Hc; subst c c'. clear Hc.
  apply bind_Ok in H as (rl & c' & Hrl & H).
  destruct (minimize _ _ _) as [st|e]; [|discriminate].
  ret_inv H. cbn [SG_VAE.sample_t SG_VAE.kl_divergence_t SG_VAE.probs_t SG_VAE.logits_t
                  SG_VAE.flat_logits_t SG_VAE.output_t SG_VAE.input_pl
                  SG_VAE.is_training_pl SG_VAE.temperature_pl SG_VAE.kl_loss_t].
  cbn [fst] in Hd.
  exists x, c1, c2, c3. repeat split; try assumption; try reflexivity.
  all: unfold SG_VAE.build_middle, dense in Hm; apply bind_Ok in Hm as (lt & c0 & Hl & Hm);
    rewrite layer_Ok in Hl; inversion Hl; subst lt c0; ret_inv Hm; reflexivity.
Qed.

End SGModel.

(** C6.  Whatever the configuration, the middle layer holds both the
    relaxed (or straight-through) sample and the hard categorical sample,
    and its output is [tf.where] of the two on the boolean placeholder
    [is_training_pl]; the decoder is built on that output.  When
    [is_training_pl] is fed [True] the output is the value of the relaxed
    (or straight-through) sample, when it is fed [False] the value of the
    hard sample. *)
Theorem sg_sample_selected_at_run_time (reg : Q -> option (node -> option node))
    (self : SG_VAE.config) (g : SG_VAE.graph) :
  SG_VAE.build_all reg self = Ok g ->
  exists x c2 c3,
    let lr := sg_logits self x in
    let relaxed := SG_VAE.flat_sample self (SG_VAE.sg_sample self lr) in
    let hard := SG_VAE.flat_sample self (SG_VAE.cat_sample lr) in
    SG_VAE.sample_t g = Op kWhere [SG_VAE.is_training_pl g; relaxed; hard]
    /\ SG_VAE.is_training_pl g = Placeholder "is_training_pl"
    /\ SG_VAE.sg_sample self lr
       = (if SG_VAE.straight_through self
          then SG_VAE.straight_through_sample self (SG_VAE.relaxed_sample lr)
          else SG_VAE.relaxed_sample lr)
    /\ SG_VAE.cat_sample lr = Op (kCast false) [Op kCatSample [lr]]
    /\ SG_VAE.build_decoder reg self (SG_VAE.sample_t g) c2
       = Ok ((SG_VAE.logits_t g, SG_VAE.flat_logits_t g, SG_VAE.output_t g), c3)
    /\ forall tf s feed (b : bool) vx vy,
         feeds_placeholders feed = true ->
         eval tf s feed (SG_VAE.is_training_pl g) = Some (VB b) ->
         eval tf s feed relaxed = Some vx ->
         eval tf s feed hard = Some vy ->
         eval tf s feed (SG_VAE.sample_t g) = Some (if b then vx else vy).
Proof.
  intros Hb.
  destruct (@sg_built_graph reg self g Hb)
    as (x & c1 & c2 & c3 & He & Hm & Hd & Hin & Htr & Hte & Hpr & Hsa & Hkl & Hkll).
  exists x, c2, c3. cbn zeta. rewrite Htr.
  repeat split; try assumption; try reflexivity.
  intros tf s feed b vx vy Hf Eb Ex Ey. rewrite Hsa. unfold SG_VAE.selected_sample.
  eval_op. rewrite Eb, Ex, Ey. reflexivity.
Qed.


(** ** Shapes *)

Unset Implicit Arguments.

Lemma shape_Arr_inv {A B} (xs : list (tensor A)) (t : tensor B) :
  shape (Arr xs) = shape t -> exists ys, t = Arr ys /\ map shape xs = map shape ys.
Proof.
  destruct t as [y|ys]; [discriminate|]. unfold shape. cbn [tmap].
  intros H. exists ys. split; [reflexivity|]. now inversion H.
Qed.

Lemma shape_Sc_inv {A B} (x : A) (t : tensor B) :
  shape (Sc x) = shape t -> exists y, t = Sc y.
Proof. destruct t as [y|ys]; [eauto|discriminate]. Qed.

Lemma map_shape_length {A B} (xs : list (tensor A)) (ys : list (tensor B)) :
  map shape xs = map shape ys -> length xs = length ys.
Proof. intros H. apply (f_equal (@length _)) in H. now rewrite !length_map in H. Qed.

(** Adding back what was subtracted, on tensors of the same shape. *)
Lemma tbin_sub_add (h r : tensor R) :
  shape h = shape r ->
  exists d, tbin Rminus h r = Some d /\ tbin Rplus d r = Some h.
Proof.
  revert r. induction h as [x|xs IH] using tensor_ind'; intros r Hs.
  - destruct (shape_Sc_inv x r Hs) as [y ->]. exists (Sc (x - y)%R). split; [reflexivity|].
    cbn [tbin]. do 2 f_equal. ring.
  - destruct (shape_Arr_inv xs r Hs) as (ys & -> & Hm).
    assert (Hz : exists ds, zipM (tbin Rminus) xs ys = Some ds
                            /\ zipM (tbin Rplus) ds ys = Some xs
                            /\ length ds = length ys).
    { clear Hs. revert ys Hm. induction IH as [|x xs Hx Hxs IHxs]; intros [|y ys] Hm;
        try discriminate.
      - exists []. now repeat split.
      - cbn [map] in Hm. injection Hm as Hxy Hm.
        destruct (Hx y Hxy) as (d & Hd1 & Hd2).
        destruct (IHxs ys Hm) as (ds & Hds1 & Hds2 & Hlen).
        exists (d :: ds). cbn [zipM]. rewrite Hd1, Hds1, Hd2, Hds2.
        repeat split. simpl. now rewrite Hlen. }
    destruct Hz as (ds & Hz1 & Hz2 & Hlen).
    exists (Arr ds). cbn [tbin].
    rewrite bzip_same_length by (now apply map_shape_length).
    rewrite Hz1. cbn [option_map]. split; [reflexivity|].
    rewrite bzip_same_length by exact Hlen. now rewrite Hz2.
Qed.

(** A gradient that already has the shape of the operand is passed on
    unchanged. *)
Lemma sum_to_shape_same (g t : tensor R) :
  shape g = shape t -> sum_to_shape g t = Some g.
Proof.
  revert t. induction g as [x|gs IH] using tensor_ind'; intros t Hs.
  - destruct (shape_Sc_inv x t Hs) as [y ->]. reflexivity.
  - destruct (shape_Arr_inv gs t Hs) as (ts & -> & Hm).
    assert (Hz : zipM (fun t' g' => sum_to_shape g' t') ts gs = Some gs).
    { clear Hs. revert ts Hm. induction IH as [|g0 gs Hg Hgs IHgs]; intros [|t0 ts] Hm;
        try discriminate; [reflexivity|].
      cbn [map] in Hm. injection Hm as Hgt Hm.
      cbn [zipM]. now rewrite (Hg t0 Hgt), (IHgs ts Hm). }
    pose proof (map_shape_length _ _ Hm) as Hlen.
    cbn [sum_to_shape].
    destruct gs as [|g1 [|g2 gs']], ts as [|t1 [|t2 ts']]; try discriminate Hlen;
      now rewrite Hz.
Qed.

Lemma shape_vec {A} (l : list A) : shape (vec l) = vec (repeat tt (length l)).
Proof.
  unfold shape, vec. cbn [tmap]. f_equal.
  induction l as [|x l IH]; [reflexivity|]. simpl. now rewrite IH.
Qed.

Lemma shape_cube_map {A B} (f : list A -> list B) (c : list (list (list A))) :
  Forall (Forall (fun l => length (f l) = length l)) c ->
  shape (cube (map (map f) c)) = shape (cube c).
Proof.
  intros H. unfold shape, cube, mat. cbn [tmap]. f_equal. rewrite !map_map.
  apply map_ext_in. intros row Hrow. cbn [tmap]. f_equal. rewrite !map_map.
  apply map_ext_in. intros l Hl.
  rewrite Forall_forall in H. specialize (H row Hrow). rewrite Forall_forall in H.
  fold (shape (vec (f l))). fold (shape (vec l)). rewrite !shape_vec. now rewrite H.
Qed.

Lemma argmax_some (l : list R) : l <> [] -> argmax l = Some (argmax_index l).
Proof. destruct l; [congruence|reflexivity]. Qed.

Lemma argmax_value (c : list (list (list R))) :
  Forall (Forall (fun l => l <> [])) c ->
  reduce_last argmax 2 (cube c) = Some (mat (map (map argmax_index) c)).
Proof.
  intros H. rewrite Forall_forall in H.
  unfold cube. cbn [reduce_last]. rewrite !mapM_map_in.
  erewrite mapM_map.
  - unfold mat. cbn [option_map]. rewrite map_map. reflexivity.
  - intros row Hrow. cbn beta. specialize (H row Hrow). rewrite Forall_forall in H.
    unfold mat. rewrite !mapM_map_in. erewrite mapM_map.
    + cbn [option_map]. unfold vec. rewrite map_map. reflexivity.
    + intros l Hl. cbn beta. rewrite as_vec_vec, (argmax_some l (H l Hl)). reflexivity.
Qed.

Lemma one_hot_value (depth : nat) (idx : list (list nat)) :
  tone_hot depth (mat idx) = cube (map (map (one_hot depth)) idx).
Proof.
  unfold mat, cube. cbn [tone_hot]. f_equal. rewrite !map_map.
  apply map_ext. intros row. unfold vec, mat. cbn [tone_hot]. f_equal.
  rewrite !map_map. reflexivity.
Qed.

Lemma length_one_hot (depth i : nat) : length (one_hot depth i) = depth.
Proof. unfold one_hot. now rewrite length_map, length_seq. Qed.

(** ** The straight-through sample of [SG_VAE] *)

Section StraightThrough.

Variable tf : library.
Variable s : session.
Variable feed : list (node * value).
Variable self : SG_VAE.config.
Variable logits : node.
Variable r : list (list (list R)).

Hypothesis feed_ok : feeds_placeholders feed = true.
Hypothesis classes_pos : 0 < SG_VAE.num_classes self.
Hypothesis relaxed_shape :
  Forall (Forall (fun l => length l = SG_VAE.num_classes self)) r.
Hypothesis relaxed_value :
  eval tf s feed (SG_VAE.relaxed_sample logits) = Some (VF (cube r)).

Lemma hard_shape : shape (cube (hard_value self r)) = shape (cube r).
Proof.
  apply shape_cube_map.
  eapply Forall_impl; [|exact relaxed_shape]. intros row Hrow.
  eapply Forall_impl; [|exact Hrow]. intros l Hl. cbn beta.
  now rewrite length_one_hot.
Qed.

Lemma eval_hard_sample :
  eval tf s feed (SG_VAE.hard_sample self (SG_VAE.relaxed_sample logits))
  = Some (VF (cube (hard_value self r))).
Proof.
  unfold SG_VAE.hard_sample. do 3 eval_op. rewrite relaxed_value.
  cbn [op_value float1 option_map]. rewrite argmax_value.
  - cbn [op_value option_map]. rewrite one_hot_value. unfold hard_value.
    rewrite map_map. do 3 f_equal. apply map_ext. intros row. now rewrite map_map.
  - eapply Forall_impl; [|exact relaxed_shape]. intros row Hrow.
    eapply Forall_impl; [|exact Hrow]. intros l Hl ->. simpl in Hl. lia.
Qed.

(** C4.  With the straight-through flag, the sample of the middle layer
    is [stop_gradient(hard - relaxed) + relaxed]: its value is the hard
    one-hot of the arg-max of the relaxed sample, and a gradient [g] that
    flows into it reaches the relaxed sample with the value of [g] itself,
    as it would if the hardening were the identity: nothing comes through
    the detached difference. *)
Theorem sg_straight_through_value_and_gradient :
  let relaxed := SG_VAE.relaxed_sample logits in
  let st := SG_VAE.straight_through_sample self relaxed in
  (SG_VAE.straight_through self = true -> SG_VAE.sg_sample self logits = st)
  /\ eval tf s feed (SG_VAE.hard_sample self relaxed) = Some (VF (cube (hard_value self r)))
  /\ eval tf s feed st = Some (VF (cube (hard_value self r)))
  /\ forall g gv,
       eval tf s feed g = Some (VF gv) ->
       shape gv = shape (cube (hard_value self r)) ->
       gradients_from relaxed relaxed g = Some g
       /\ exists g',
            gradients_from st relaxed g = Some g'
            /\ eval tf s feed g' = Some (VF gv).
Proof.
  cbn zeta. split; [|split; [|split]].
  - intros Hst. unfold SG_VAE.sg_sample. now rewrite Hst.
  - exact eval_hard_sample.
  - unfold SG_VAE.straight_through_sample. do 3 eval_op.
    rewrite eval_hard_sample, relaxed_value.
    destruct (tbin_sub_add (cube (hard_value self r)) (cube r) hard_shape) as (d & Hd1 & Hd2).
    cbn [op_value float2 opt_float]. rewrite Hd1.
    cbn [op_value float2 opt_float option_map]. rewrite Hd2. reflexivity.
  - intros g gv Hg Hshape. split.
    + unfold SG_VAE.relaxed_sample. cbn [gradients_from]. now rewrite node_eqb_refl.
    + exists (Op kSumToShape [g; SG_VAE.relaxed_sample logits]). split.
      * unfold SG_VAE.straight_through_sample.
        rewrite gradients_from_Op.
        replace (node_eqb _ (SG_VAE.relaxed_sample logits)) with false by reflexivity.
        cbn [input_grads differentiable vjp nth].
        rewrite gradients_from_Op.
        replace (node_eqb (Op kStopGradient _) (SG_VAE.relaxed_sample logits))
          with false by reflexivity.
        cbn [input_grads differentiable vjp nth].
        unfold SG_VAE.relaxed_sample.
        rewrite gradients_from_Op, node_eqb_refl. reflexivity.
      * eval_op. rewrite Hg, relaxed_value. cbn [op_value float2 opt_float].
        rewrite sum_to_shape_same; [reflexivity|]. now rewrite Hshape, hard_shape.
Qed.

End StraightThrough.

(** ** Operations whose outcome is decided by the shapes of their inputs *)

Lemma shape_tmap {A B} (f : A -> B) (t : tensor A) : shape (tmap f t) = shape t.
Proof.
  induction t as [x|xs IH] using tensor_ind'; [reflexivity|].
  unfold shape in *. cbn [tmap]. f_equal. rewrite !map_map.
  apply map_ext_in. intros x Hx. rewrite Forall_forall in IH. now apply IH.
Qed.

Lemma mapM_shape {A B C D} (f : tensor A -> option (tensor C))
    (f' : tensor B -> option (tensor D)) (xs : list (tensor A)) (xs' : list (tensor B)) :
  map shape xs = map shape xs' ->
  Forall (fun x => forall x', shape x = shape x' ->
                              option_map shape (f x) = option_map shape (f' x')) xs ->
  option_map (map shape) (mapM f xs) = option_map (map shape) (mapM f' xs').
Proof.
  revert xs'. induction xs as [|x xs IH]; intros [|x' xs'] Hm Hf; try discriminate.
  - reflexivity.
  - cbn [map] in Hm. injection Hm as Hx Hm. inversion Hf as [|? ? Hfx Hfxs]; subst.
    cbn [mapM]. specialize (Hfx x' Hx). specialize (IH xs' Hm Hfxs).
    destruct (f x), (f' x'); try discriminate; cbn [option_map] in *;
      destruct (mapM f xs), (mapM f' xs'); try discriminate; cbn [option_map] in *;
      try reflexivity.
    inversion Hfx. inversion IH. cbn [map]. congruence.
Qed.

Lemma zipM_shape (f f' : tensor R -> tensor R -> option (tensor R))
    (xs xs' ys ys' : list (tensor R)) :
  map shape xs = map shape xs' -> map shape ys = map shape ys' ->
  Forall (fun x => forall x' y y', shape x = shape x' -> shape y = shape y' ->
                     option_map shape (f x y) = option_map shape (f' x' y')) xs ->
  option_map (map shape) (zipM f xs ys) = option_map (map shape) (zipM f' xs' ys').
Proof.
  revert xs' ys ys'.
  induction xs as [|x xs IH]; intros [|x' xs'] [|y ys] [|y' ys'] Hx Hy Hf;
    try discriminate; try reflexivity.
  cbn [map] in Hx, Hy. injection Hx as Hx Hxs. injection Hy as Hy Hys.
  inversion Hf as [|? ? Hfx Hfxs]; subst.
  cbn [zipM]. specialize (Hfx x' y y' Hx Hy). specialize (IH xs' ys ys' Hxs Hys Hfxs).
  destruct (f x y), (f' x' y'); try discriminate; cbn [option_map] in *;
    destruct (zipM f xs ys), (zipM f' xs' ys'); try discriminate; cbn [option_map] in *;
    try reflexivity.
  inversion Hfx. inversion IH. cbn [map]. congruence.
Qed.

Lemma tbin_shape (f f' : R -> R -> R) (a : tensor R) :
  forall a' b b',
    shape a = shape a' -> shape b = shape b' ->
    option_map shape (tbin f a b) = option_map shape (tbin f' a' b').
Proof.
  induction a as [x|xs IH] using tensor_ind'; intros a' b b' Ha Hb.
  - destruct (shape_Sc_inv x a' Ha) as [x' ->].
    destruct b as [y|ys].
    + destruct (shape_Sc_inv y b' Hb) as [y' ->]. reflexivity.
    + destruct (shape_Arr_inv ys b' Hb) as (ys' & -> & _). reflexivity.
  - destruct (shape_Arr_inv xs a' Ha) as (xs' & -> & Hxs).
    destruct b as [y|ys].
    + destruct (shape_Sc_inv y b' Hb) as [y' ->]. reflexivity.
    + destruct (shape_Arr_inv ys b' Hb) as (ys' & -> & Hys).
      cbn [tbin].
      assert (Hz : option_map (map shape) (bzip (tbin f) xs ys)
                   = option_map (map shape) (bzip (tbin f') xs' ys')).
      { pose proof (map_shape_length _ _ Hxs) as Lx.
        pose proof (map_shape_length _ _ Hys) as Ly.
        destruct xs as [|x1 [|x2 xs]], xs' as [|x1' [|x2' xs']]; try discriminate Lx.
        - (* no row on the left *)
          destruct ys as [|y1 [|y2 ys]], ys' as [|y1' [|y2' ys']]; try discriminate Ly;
            reflexivity.
        - (* one row on the left, broadcast *)
          cbn [bzip]. inversion IH as [|? ? Hx1 _]; subst.
          cbn [map] in Hxs. injection Hxs as Hx1s.
          apply mapM_shape; [exact Hys|].
          apply Forall_forall. intros y _ y' Hy. now apply Hx1.
        - destruct ys as [|y1 [|y2 ys]], ys' as [|y1' [|y2' ys']]; try discriminate Ly.
          + reflexivity.
          + (* one row on the right, broadcast *)
            cbn [bzip]. cbn [map] in Hys. injection Hys as Hy1.
            apply mapM_shape; [exact Hxs|].
            eapply Forall_impl; [|exact IH]. intros x Hx x' Hxx'. now apply Hx.
          + cbn [bzip]. apply zipM_shape; [exact Hxs|exact Hys|].
            eapply Forall_impl; [|exact IH]. intros x Hx x' y y' Hxx' Hyy'.
            now apply Hx. }
      destruct (bzip (tbin f) xs ys), (bzip (tbin f') xs' ys'); try discriminate;
        cbn [option_map] in *; [|reflexivity].
      inversion Hz as [Hz']. f_equal.
      change (Arr (map shape l) = Arr (map shape l0)). now rewrite Hz'.
Qed.

Lemma shape_Arr {A} (xs : list (tensor A)) : shape (Arr xs) = Arr (map shape xs).
Proof. reflexivity. Qed.

Lemma as_vec_shape {A B} (a : tensor A) (b : tensor B) :
  shape a = shape b ->
  option_map (@length A) (as_vec a) = option_map (@length B) (as_vec b).
Proof.
  destruct a as [x|xs]; intros Hs.
  - destruct (shape_Sc_inv x b Hs) as [y ->]. reflexivity.
  - destruct (shape_Arr_inv xs b Hs) as (ys & -> & Hm). cbn [as_vec]. clear Hs.
    revert ys Hm. induction xs as [|x xs IH]; intros [|y ys] Hm; try discriminate.
    + reflexivity.
    + cbn [map] in Hm. injection Hm as Hxy Hm. cbn [mapM]. specialize (IH ys Hm).
      destruct x as [x|xs0].
      * destruct (shape_Sc_inv x y Hxy) as [y0 ->]. cbn [as_scalar].
        destruct (mapM as_scalar xs), (mapM as_scalar ys); try discriminate;
          cbn [option_map] in *; [|reflexivity].
        inversion IH. simpl. congruence.
      * destruct (shape_Arr_inv xs0 y Hxy) as (ys0 & -> & _). reflexivity.
Qed.

Lemma reduce_last_shape {B} (f : list R -> option B) (axis : nat) :
  (forall l l', length l = length l' -> (f l = None <-> f l' = None)) ->
  forall a a', shape a = shape a' ->
    option_map shape (reduce_last f axis a) = option_map shape (reduce_last f axis a').
Proof.
  intros Hf. induction axis as [|k IH]; intros a a' Hs; cbn [reduce_last].
  - pose proof (as_vec_shape a a' Hs) as Hv.
    destruct (as_vec a) as [l|], (as_vec a') as [l'|]; try discriminate; [|reflexivity].
    cbn [option_map] in Hv. injection Hv as Hlen. specialize (Hf l l' Hlen).
    destruct (f l), (f l'); try reflexivity.
    + destruct Hf as [_ Hf]. now specialize (Hf eq_refl).
    + destruct Hf as [Hf _]. now specialize (Hf eq_refl).
  - destruct a as [x|xs].
    + destruct (shape_Sc_inv x a' Hs) as [y ->]. reflexivity.
    + destruct (shape_Arr_inv xs a' Hs) as (ys & -> & Hm).
      assert (Hz : option_map (map shape) (mapM (reduce_last f k) xs)
                   = option_map (map shape) (mapM (reduce_last f k) ys)).
      { apply mapM_shape; [exact Hm|]. apply Forall_forall. intros x _ x' Hx.
        now apply IH. }
      destruct (mapM (reduce_last f k) xs), (mapM (reduce_last f k) ys);
        try discriminate; cbn [option_map] in *; [|reflexivity].
      inversion Hz as [Hz']. f_equal. rewrite !shape_Arr. now rewrite Hz'.
Qed.

Lemma argmax_none (l l' : list R) :
  length l = length l' -> (argmax l = None <-> argmax l' = None).
Proof. destruct l, l'; try discriminate; intros _; split; intros H; try exact H; discriminate. Qed.

Lemma tone_hot_shape (depth : nat) (a a' : tensor nat) :
  shape a = shape a' -> shape (tone_hot depth a) = shape (tone_hot depth a').
Proof.
  revert a'. induction a as [i|xs IH] using tensor_ind'; intros a' Hs.
  - destruct (shape_Sc_inv i a' Hs) as [j ->]. cbn [tone_hot].
    now rewrite !shape_vec, !length_one_hot.
  - destruct (shape_Arr_inv xs a' Hs) as (ys & -> & Hm). cbn [tone_hot].
    rewrite !shape_Arr. f_equal. rewrite !map_map. clear Hs.
    revert ys Hm. induction IH as [|x xs Hx _ IHxs]; intros [|y ys] Hm; try discriminate.
    + reflexivity.
    + cbn [map] in *. injection Hm as Hxy Hm. f_equal; [now apply Hx|now apply IHxs].
Qed.

Lemma shape_scalars {A B} (a : tensor A) (b : tensor B) :
  shape a = shape b -> length (scalars a) = length (scalars b).
Proof.
  revert b. induction a as [x|xs IH] using tensor_ind'; intros b Hs.
  - destruct (shape_Sc_inv x b Hs) as [y ->]. reflexivity.
  - destruct (shape_Arr_inv xs b Hs) as (ys & -> & Hm). cbn [scalars]. clear Hs.
    revert ys Hm. induction IH as [|x xs Hx _ IHxs]; intros [|y ys] Hm; try discriminate.
    + reflexivity.
    + cbn [map flat_map] in *. injection Hm as Hxy Hm.
      rewrite !length_app. f_equal; [now apply Hx|now apply IHxs].
Qed.

Lemma shape_rows {A B} (a : tensor A) (b : tensor B) :
  shape a = shape b -> length (rows a) = length (rows b).
Proof.
  destruct a as [x|xs]; intros Hs.
  - destruct (shape_Sc_inv x b Hs) as [y ->]. reflexivity.
  - destruct (shape_Arr_inv xs b Hs) as (ys & -> & Hm). now apply map_shape_length.
Qed.

Lemma chunks_n_shape_eq {A B} (k n : nat) (l : list A) (l' : list B) :
  length l = length l' ->
  Forall2 (fun c c' => length c = length c') (chunks_n k n l) (chunks_n k n l').
Proof.
  revert l l'. induction k as [|k IH]; intros l l' H; cbn [chunks_n]; constructor.
  - now rewrite !length_firstn, H.
  - apply IH. now rewrite !length_skipn, H.
Qed.

Lemma build_shape {A B} (d : nat) (ds : list nat) (l : list A) (l' : list B) :
  length l = length l' -> shape (build d ds l) = shape (build d ds l').
Proof.
  revert d l l'. induction ds as [|d' ds IH]; intros d l l' H; cbn [build].
  - now rewrite !shape_vec, H.
  - rewrite !shape_Arr. f_equal. rewrite !map_map.
    pose proof (chunks_n_shape_eq d (d' * prod ds) l l' H) as Hc.
    induction Hc as [|c c' cs cs' Hcc _ IHc]; [reflexivity|].
    cbn [map]. f_equal; [now apply IH|exact IHc].
Qed.

Lemma reshape_shape {A B} (lead : lead_dim) (d : nat) (ds : list nat)
    (a : tensor A) (b : tensor B) :
  shape a = shape b ->
  option_map shape (reshape lead d ds a) = option_map shape (reshape lead d ds b).
Proof.
  intros Hs. unfold reshape.
  rewrite (shape_scalars a b Hs), (shape_rows a b Hs).
  destruct (d * prod ds =? 0); [reflexivity|].
  destruct (negb _); [reflexivity|].
  assert (Hc : shape (Arr (map (build d ds) (chunks (d * prod ds) (scalars a))))
               = shape (Arr (map (build d ds) (chunks (d * prod ds) (scalars b))))).
  { rewrite !shape_Arr. f_equal. rewrite !map_map. unfold chunks.
    rewrite (shape_scalars a b Hs).
    pose proof (chunks_n_shape_eq (length (scalars b) / (d * prod ds)) (d * prod ds)
                  (scalars a) (scalars b) (shape_scalars a b Hs)) as Hc.
    induction Hc as [|c c' cs cs' Hcc _ IHc]; [reflexivity|].
    cbn [map]. f_equal; [now apply build_shape|exact IHc]. }
  destruct lead; [cbn [option_map]; now f_equal|].
  destruct (_ =? _); [cbn [option_map]; now f_equal|reflexivity].
Qed.

Lemma same_outcome_float (a b : option (tensor R)) :
  option_map shape a = option_map shape b ->
  same_outcome (option_map VF a) (option_map VF b).
Proof.
  unfold same_outcome. destruct a, b; try discriminate; [|reflexivity].
  cbn [option_map shape_of_value]. intros H. now inversion H.
Qed.

Lemma same_outcome_int (a b : option (tensor nat)) :
  option_map shape a = option_map shape b ->
  same_outcome (option_map VI a) (option_map VI b).
Proof.
  unfold same_outcome. destruct a, b; try discriminate; [|reflexivity].
  cbn [option_map shape_of_value]. intros H. now inversion H.
Qed.

Lemma same_shape_float (t t' : tensor R) : same_shape (VF t) (VF t') -> shape t = shape t'.
Proof. unfold same_shape. cbn [shape_of_value]. intros H. now inversion H. Qed.

Lemma same_shape_int (t t' : tensor nat) : same_shape (VI t) (VI t') -> shape t = shape t'.
Proof. unfold same_shape. cbn [shape_of_value]. intros H. now inversion H. Qed.

Lemma shape_determined_binary (tf : library) (k : opkind) (f : R -> R -> R) :
  (forall rn vs, op_value tf rn k vs = float2 (fun a b => opt_float (tbin f a b)) vs) ->
  shape_determined tf k.
Proof.
  intros Hk rn vs vs' H. rewrite !Hk.
  destruct H as [|v v' l l' Hv H]; [reflexivity|].
  destruct v, v'; try discriminate Hv; try (destruct H; reflexivity).
  destruct H as [|w w' l l' Hw H]; [reflexivity|].
  destruct w, w'; try discriminate Hw; try (destruct H; reflexivity).
  destruct H; [|reflexivity]. cbn [float2]. apply same_outcome_float.
  apply tbin_shape; now apply same_shape_float.
Qed.

Lemma shape_determined_add (tf : library) : shape_determined tf kAdd.
Proof. apply (shape_determined_binary tf kAdd Rplus). reflexivity. Qed.

Lemma shape_determined_sub (tf : library) : shape_determined tf kSub.
Proof. apply (shape_determined_binary tf kSub Rminus). reflexivity. Qed.

Lemma shape_determined_stop_gradient (tf : library) : shape_determined tf kStopGradient.
Proof.
  intros rn vs vs' H.
  destruct H as [|v v' l l' Hv H]; [reflexivity|].
  destruct H; [|reflexivity]. cbn [op_value]. unfold same_outcome.
  cbn [option_map]. now f_equal.
Qed.

Lemma shape_determined_cast (tf : library) (b : bool) : shape_determined tf (kCast b).
Proof.
  intros rn vs vs' H.
  destruct H as [|v v' l l' Hv H]; [reflexivity|].
  destruct v, v'; try discriminate Hv; try (destruct H; reflexivity).
  - destruct H; [|reflexivity]. cbn [op_value]. unfold same_outcome.
    cbn [option_map]. now f_equal.
  - destruct H; [|reflexivity]. cbn [op_value]. unfold same_outcome.
    cbn [option_map shape_of_value]. rewrite !shape_tmap.
    now rewrite (same_shape_int _ _ Hv).
Qed.

Lemma shape_determined_one_hot (tf : library) (depth : nat) :
  shape_determined tf (kOneHot depth).
Proof.
  intros rn vs vs' H.
  destruct H as [|v v' l l' Hv H]; [reflexivity|].
  destruct v, v'; try discriminate Hv; try (destruct H; reflexivity).
  destruct H; [|reflexivity]. cbn [op_value]. unfold same_outcome.
  cbn [option_map shape_of_value]. do 2 f_equal.
  apply tone_hot_shape. now apply same_shape_int.
Qed.

Lemma shape_determined_argmax (tf : library) (axis : nat) :
  shape_determined tf (kArgMax axis).
Proof.
  intros rn vs vs' H.
  destruct H as [|v v' l l' Hv H]; [reflexivity|].
  destruct v, v'; try discriminate Hv; try (destruct H; reflexivity).
  destruct H; [|reflexivity]. cbn [op_value float1]. apply same_outcome_int.
  apply reduce_last_shape; [exact argmax_none|]. now apply same_shape_float.
Qed.

Lemma shape_determined_reshape (tf : library) (lead : lead_dim) (d : nat) (ds : list nat) :
  shape_determined tf (kReshape lead d ds).
Proof.
  intros rn vs vs' H.
  destruct H as [|v v' l l' Hv H]; [reflexivity|].
  destruct v, v'; try discriminate Hv; try (destruct H; reflexivity).
  - destruct H; [|reflexivity]. cbn [op_value]. apply same_outcome_float.
    apply reshape_shape. now apply same_shape_float.
  - destruct H; [|reflexivity]. cbn [op_value]. apply same_outcome_int.
    apply reshape_shape. now apply same_shape_int.
Qed.

Lemma indexed_shape_aux {A B} (xs : list (tensor A)) (ys : list (tensor B)) (i : nat) :
  map shape xs = map shape ys ->
  Forall2 (fun p q => fst p = fst q /\ shape (snd p) = shape (snd q))
          (combine (seq i (length xs)) xs) (combine (seq i (length ys)) ys).
Proof.
  revert ys i. induction xs as [|x xs IH]; intros [|y ys] i H; try discriminate.
  - constructor.
  - cbn [map] in H. injection H as Hxy H. cbn [length seq combine].
    constructor; [now split|]. now apply IH.
Qed.

Lemma mapM_Forall2_shape {X Y C D} (f : X -> option (tensor C)) (f' : Y -> option (tensor D))
    (P : X -> Y -> Prop) (xs : list X) (ys : list Y) :
  Forall2 P xs ys ->
  (forall x y, P x y -> option_map shape (f x) = option_map shape (f' y)) ->
  option_map (map shape) (mapM f xs) = option_map (map shape) (mapM f' ys).
Proof.
  intros H Hf. induction H as [|x y xs ys Hxy _ IH]; [reflexivity|].
  cbn [mapM]. specialize (Hf x y Hxy).
  destruct (f x), (f' y); try discriminate; [|reflexivity].
  destruct (mapM f xs), (mapM f' ys); try discriminate; [|reflexivity].
  cbn [option_map map] in *. inversion Hf. inversion IH. congruence.
Qed.

Lemma option_map_Arr_shape {A B} (a : option (list (tensor A)))
    (b : option (list (tensor B))) :
  option_map (map shape) a = option_map (map shape) b ->
  option_map shape (option_map Arr a) = option_map shape (option_map Arr b).
Proof.
  destruct a, b; try discriminate; [|reflexivity]. cbn [option_map].
  intros H. inversion H as [H']. f_equal. rewrite !shape_Arr. now rewrite H'.
Qed.

(** The shape of a batch of draws is decided by the shape of the logits
    and by the lengths of the draws. *)
Lemma draw_each_shape {X Y} (draw : nat -> nat -> list R -> tensor X)
    (draw' : nat -> nat -> list R -> tensor Y) (logits logits' : tensor R) :
  (forall b d l l', length l = length l' -> shape (draw b d l) = shape (draw' b d l')) ->
  shape logits = shape logits' ->
  option_map shape (draw_each draw logits) = option_map shape (draw_each draw' logits').
Proof.
  intros Hd Hs. destruct logits as [x|bs].
  - destruct (shape_Sc_inv x logits' Hs) as [y ->]. reflexivity.
  - destruct (shape_Arr_inv bs logits' Hs) as (bs' & -> & Hm). cbn [draw_each].
    apply option_map_Arr_shape. unfold indexed.
    eapply mapM_Forall2_shape; [exact (indexed_shape_aux bs bs' 0 Hm)|].
    intros [b bt] [b' bt'] [Hb Hbt]. cbn [fst snd] in *. subst b'.
    destruct bt as [x|ds].
    + destruct (shape_Sc_inv x bt' Hbt) as [y ->]. reflexivity.
    + destruct (shape_Arr_inv ds bt' Hbt) as (ds' & -> & Hm').
      apply option_map_Arr_shape.
      eapply mapM_Forall2_shape; [exact (indexed_shape_aux ds ds' 0 Hm')|].
      intros [d dt] [d' dt'] [Hdd Hdt]. cbn [fst snd] in *. subst d'.
      pose proof (as_vec_shape dt dt' Hdt) as Hv.
      destruct (as_vec dt) as [l|], (as_vec dt') as [l'|]; try discriminate; [|reflexivity].
      cbn [option_map] in *. f_equal. apply Hd. now inversion Hv.
Qed.

(** ** Values that do not depend on the temperature fed *)

Lemma mapM_same_outcome (f f' : node -> option value) (ins : list node) :
  Forall (fun y => same_outcome (f y) (f' y)) ins ->
  match mapM f ins, mapM f' ins with
  | Some vs, Some vs' => Forall2 same_shape vs vs'
  | None, None => True
  | _, _ => False
  end.
Proof.
  induction 1 as [|y ins Hy _ IH]; cbn [mapM]; [constructor|].
  unfold same_outcome in Hy.
  destruct (f y), (f' y); try discriminate; [|exact I].
  destruct (mapM f ins), (mapM f' ins); try contradiction; [|exact I].
  constructor; [|exact IH]. cbn [option_map] in Hy. now inversion Hy.
Qed.

Section TemperatureBlind.

Variable tf : library.

Lemma blind_Op (k : opkind) (ins : list node) :
  Forall (temperature_blind tf) ins -> temperature_blind tf (Op k ins).
Proof.
  intros H s batch t1 t2.
  rewrite !eval_Op by (apply lookup_feed_placeholders; reflexivity).
  rewrite (mapM_ext (eval tf s (sg_feed batch t1)) (eval tf s (sg_feed batch t2)) ins);
    [reflexivity|].
  intros y Hy. rewrite Forall_forall in H. now apply H.
Qed.

Lemma blind_Var (n : string) : temperature_blind tf (Var n).
Proof. intros s batch t1 t2. reflexivity. Qed.

Lemma blind_input : temperature_blind tf SG_VAE.the_input_pl.
Proof. intros s batch t1 t2. reflexivity. Qed.

Lemma shaped_Op (k : opkind) (ins : list node) :
  shape_determined tf k ->
  Forall (temperature_shaped tf) ins -> temperature_shaped tf (Op k ins).
Proof.
  intros Hk H s batch t1 t2.
  rewrite !eval_Op by (apply lookup_feed_placeholders; reflexivity).
  assert (Hm : Forall (fun y => same_outcome (eval tf s (sg_feed batch t1) y)
                                             (eval tf s (sg_feed batch t2) y)) ins).
  { apply Forall_forall. intros y Hy. rewrite Forall_forall in H. now apply H. }
  apply mapM_same_outcome in Hm.
  destruct (mapM (eval tf s (sg_feed batch t1)) ins),
           (mapM (eval tf s (sg_feed batch t2)) ins); try contradiction; [|reflexivity].
  now apply Hk.
Qed.

End TemperatureBlind.

Section SGEncode.

Variable tf : library.
Variable reg : Q -> option (node -> option node).
Variable self : SG_VAE.config.
Variable g : SG_VAE.graph.

Hypothesis draws_ok : relaxed_draw_shape tf.
Hypothesis built : SG_VAE.build_all reg self = Ok g.

Lemma sg_encoder_blind (x : node) (c : collections) :
  SG_VAE.build_encoder reg self SG_VAE.the_input_pl empty_collections = Ok (x, c) ->
  temperature_blind tf x.
Proof.
  intros H.
  apply (sg_encoder_invariant reg self (fun y _ => temperature_blind tf y))
    with (input := SG_VAE.the_input_pl) (c := empty_collections) (c' := c).
  - intros k y _ _ Hy. apply blind_Op. now constructor.
  - intros y c1 y' c1' (k & kn & bn & rl & _ & _ & _ & -> & _) Hy.
    apply blind_Op. apply Forall_cons; [exact Hy|].
    apply Forall_cons; [apply blind_Var|]. apply Forall_cons; [apply blind_Var|constructor].
  - apply blind_input.
  - exact H.
Qed.

Lemma sg_logits_blind (x : node) :
  temperature_blind tf x -> temperature_blind tf (sg_logits self x).
Proof.
  intros Hx. unfold sg_logits. apply blind_Op. constructor; [|constructor].
  apply blind_Op. apply Forall_cons; [exact Hx|].
  apply Forall_cons; [apply blind_Var|]. apply Forall_cons; [apply blind_Var|constructor].
Qed.

Lemma sg_cat_sample_blind (lr : node) :
  temperature_blind tf lr ->
  temperature_blind tf (SG_VAE.flat_sample self (SG_VAE.cat_sample lr)).
Proof.
  intros H. unfold SG_VAE.flat_sample, SG_VAE.cat_sample.
  repeat (apply blind_Op; constructor; [|constructor]). exact H.
Qed.

Lemma sg_relaxed_sample_shaped (lr : node) :
  temperature_blind tf lr -> temperature_shaped tf (SG_VAE.relaxed_sample lr).
Proof.
  intros H s batch t1 t2. unfold SG_VAE.relaxed_sample.
  rewrite !eval_Op by (apply lookup_feed_placeholders; reflexivity).
  cbn [mapM]. rewrite (H s batch t1 t2).
  change (eval tf s (sg_feed batch t1) SG_VAE.the_temperature_pl) with (Some (VF (Sc t1))).
  change (eval tf s (sg_feed batch t2) SG_VAE.the_temperature_pl) with (Some (VF (Sc t2))).
  destruct (eval tf s (sg_feed batch t2) lr) as [[logits|?|?]|]; try reflexivity.
  cbn [op_value]. apply same_outcome_float. apply draw_each_shape; [|reflexivity].
  intros b d l l' Hl. now rewrite !shape_vec, !draws_ok, Hl.
Qed.

Lemma sg_sample_shaped (lr : node) :
  temperature_blind tf lr ->
  temperature_shaped tf (SG_VAE.flat_sample self (SG_VAE.sg_sample self lr)).
Proof.
  intros H. pose proof (sg_relaxed_sample_shaped lr H) as Hr.
  unfold SG_VAE.flat_sample, SG_VAE.sg_sample.
  apply shaped_Op; [apply shape_determined_reshape|]. constructor; [|constructor].
  destruct (SG_VAE.straight_through self); [|exact Hr].
  unfold SG_VAE.straight_through_sample, SG_VAE.hard_sample.
  apply shaped_Op; [apply shape_determined_add|].
  constructor; [|constructor; [exact Hr|constructor]].
  apply shaped_Op; [apply shape_determined_stop_gradient|]. constructor; [|constructor].
  apply shaped_Op; [apply shape_determined_sub|].
  constructor; [|constructor; [exact Hr|constructor]].
  apply shaped_Op; [apply shape_determined_cast|]. constructor; [|constructor].
  apply shaped_Op; [apply shape_determined_one_hot|]. constructor; [|constructor].
  apply shaped_Op; [apply shape_determined_argmax|]. constructor; [|constructor].
  exact Hr.
Qed.

(** With [is_training_pl] fed [False], [tf.where] returns its second
    branch, provided the first one could be computed. *)
Lemma sg_selected_sample (lr : node) (s : session) (batch : list (tensor R)) (t : R) :
  eval tf s (sg_feed batch t) (SG_VAE.selected_sample self lr)
  = match eval tf s (sg_feed batch t) (SG_VAE.flat_sample self (SG_VAE.sg_sample self lr)) with
    | Some _ => eval tf s (sg_feed batch t) (SG_VAE.flat_sample self (SG_VAE.cat_sample lr))
    | None => None
    end.
Proof.
  unfold SG_VAE.selected_sample.
  rewrite eval_Op by (apply lookup_feed_placeholders; reflexivity).
  cbn [mapM].
  change (eval tf s (sg_feed batch t) SG_VAE.the_is_training_pl) with (Some (VB false)).
  cbv iota beta.
  destruct (eval tf s (sg_feed batch t) (SG_VAE.flat_sample self (SG_VAE.sg_sample self lr)));
    [|reflexivity].
  destruct (eval tf s (sg_feed batch t) (SG_VAE.flat_sample self (SG_VAE.cat_sample lr)));
    reflexivity.
Qed.

Lemma sg_selected_sample_blind (lr : node) :
  temperature_blind tf lr -> temperature_blind tf (SG_VAE.selected_sample self lr).
Proof.
  intros H s batch t1 t2. rewrite !sg_selected_sample.
  pose proof (sg_sample_shaped lr H s batch t1 t2) as Hs. unfold same_outcome in Hs.
  rewrite (sg_cat_sample_blind lr H s batch t1 t2).
  destruct (eval tf s (sg_feed batch t1) (SG_VAE.flat_sample self (SG_VAE.sg_sample self lr))),
           (eval tf s (sg_feed batch t2) (SG_VAE.flat_sample self (SG_VAE.sg_sample self lr)));
    try discriminate; reflexivity.
Qed.

Lemma sg_encode_feed (batch : list (tensor R)) (t : R) :
  SG_VAE.encode_feed g batch t = sg_feed batch t.
Proof.
  destruct (@sg_built_graph reg self g built)
    as (x & c1 & c2 & c3 & He & Hm & Hd & Hin & Htr & Hte & _).
  unfold SG_VAE.encode_feed. now rewrite Hin, Htr, Hte.
Qed.

Lemma sg_sample_t_blind : temperature_blind tf (SG_VAE.sample_t g).
Proof.
  destruct (@sg_built_graph reg self g built)
    as (x & c1 & c2 & c3 & He & Hm & Hd & Hin & Htr & Hte & Hpr & Hsa & _).
  rewrite Hsa. apply sg_selected_sample_blind. apply sg_logits_blind.
  exact (sg_encoder_blind x c1 He).
Qed.

Lemma sg_encode_steps_blind (t1 t2 : R) (inputs : list (tensor R)) (batch_size : nat)
    (steps : list nat) :
  forall s,
    SG_VAE.encode_steps tf g t1 s inputs batch_size steps
    = SG_VAE.encode_steps tf g t2 s inputs batch_size steps.
Proof.
  induction steps as [|i steps IH]; intros s; [reflexivity|].
  cbn [SG_VAE.encode_steps]. unfold run. rewrite !sg_encode_feed.
  rewrite (sg_sample_t_blind s _ t1 t2).
  destruct (eval tf s _ (SG_VAE.sample_t g)) as [[t| |]|]; try reflexivity.
  cbn [rbind]. now rewrite IH.
Qed.

End SGEncode.

(** C10.  On a built [SG_VAE], every [session.run] of [encode] returns
    the value of the hard categorical sample (the second branch of
    [tf.where], [is_training_pl] being fed [False]), and the encodings do
    not depend on the value fed for [temperature_pl]: from the same
    session, hence the same random state, [encode] run with any two
    temperatures, in particular with the 1.0 of the code and with any
    other, returns the same result.  The library is asked that a relaxed
    sample has as many entries as the logits it is drawn from. *)
Theorem sg_encode_ignores_temperature (tf : library) (reg : Q -> option (node -> option node))
    (self : SG_VAE.config) (g : SG_VAE.graph) :
  relaxed_draw_shape tf ->
  SG_VAE.build_all reg self = Ok g ->
  (exists x,
     SG_VAE.sample_t g = SG_VAE.selected_sample self (sg_logits self x)
     /\ forall s batch t v,
          eval tf s (SG_VAE.encode_feed g batch t) (SG_VAE.sample_t g) = Some v ->
          eval tf s (SG_VAE.encode_feed g batch t)
               (SG_VAE.flat_sample self (SG_VAE.cat_sample (sg_logits self x))) = Some v)
  /\ (forall s inputs batch_size t1 t2,
        SG_VAE.encode_with tf g t1 s inputs batch_size
        = SG_VAE.encode_with tf g t2 s inputs batch_size)
  /\ (forall s inputs batch_size t,
        SG_VAE.encode_with tf g t s inputs batch_size
        = SG_VAE.encode tf g s inputs batch_size).
Proof.
  intros Hd Hb.
  assert (He : forall s inputs batch_size t1 t2,
             SG_VAE.encode_with tf g t1 s inputs batch_size
             = SG_VAE.encode_with tf g t2 s inputs batch_size).
  { intros s inputs batch_size t1 t2. unfold SG_VAE.encode_with.
    destruct (num_steps_of (length inputs) batch_size) as [n|e]; [|reflexivity].
    cbn [rbind].
    now rewrite (sg_encode_steps_blind tf reg self g Hd Hb t1 t2 inputs batch_size). }
  split; [|split; [exact He|]].
  - destruct (@sg_built_graph reg self g Hb)
      as (x & c1 & c2 & c3 & _ & _ & _ & _ & _ & _ & _ & Hsa & _).
    exists x. split; [exact Hsa|].
    intros s batch t v. rewrite (sg_encode_feed reg self g Hb), Hsa.
    rewrite sg_selected_sample.
    destruct (eval tf s (sg_feed batch t)
                (SG_VAE.flat_sample self (SG_VAE.sg_sample self (sg_logits self x))));
      [trivial|discriminate].
  - intros s inputs batch_size t. unfold SG_VAE.encode. apply He.
Qed.

(** ** The KL term of [SG_VAE] *)

Lemma Rsum_constant {A} (a : R) (l : list A) :
  Rsum (map (fun _ => a) l) = (INR (length l) * a)%R.
Proof.
  induction l as [|x l IH]; [simpl; ring|].
  cbn [map length]. rewrite S_INR. unfold Rsum in *. cbn [fold_right]. rewrite IH. ring.
Qed.

(** Constant logits give the uniform distribution. *)
Lemma softmax_constant (c : R) (l : list R) :
  l <> [] -> softmax (map (fun _ => c) l) = uniform l.
Proof.
  intros Hl. unfold softmax, uniform. rewrite !map_map. rewrite Rsum_constant.
  apply map_ext. intros _.
  assert (Hn : INR (length l) <> 0%R).
  { apply not_0_INR. destruct l; [congruence|discriminate]. }
  pose proof (exp_pos c) as Hc. field. split; [exact Hn|lra].
Qed.

Lemma softmax_prior (num_classes : nat) (l : list R) :
  l <> [] -> softmax (prior_vector num_classes l) = uniform l.
Proof. intros Hl. unfold prior_vector. now apply softmax_constant. Qed.

Lemma zipM_maps {A X Y C} (f : X -> Y -> option C) (p : A -> X) (q : A -> Y) (l : list A) :
  zipM f (map p l) (map q l) = mapM (fun x => f (p x) (q x)) l.
Proof.
  induction l as [|x l IH]; [reflexivity|]. cbn [map zipM mapM]. now rewrite IH.
Qed.

Lemma tmap_vec {A B} (f : A -> B) (l : list A) : tmap f (vec l) = vec (map f l).
Proof. unfold vec. cbn [tmap]. f_equal. rewrite !map_map. reflexivity. Qed.

Lemma tmap_mat {A B} (f : A -> B) (m : list (list A)) :
  tmap f (mat m) = mat (map (map f) m).
Proof.
  unfold mat. cbn [tmap]. f_equal. rewrite !map_map. apply map_ext. intros l.
  apply tmap_vec.
Qed.

Lemma tmap_cube {A B} (f : A -> B) (c : list (list (list A))) :
  tmap f (cube c) = cube (map (map (map f)) c).
Proof.
  unfold cube. cbn [tmap]. f_equal. rewrite !map_map. apply map_ext. intros m.
  apply tmap_mat.
Qed.

Lemma reduce_last2_cube (f : list R -> list R -> R) (h : list R -> list R)
    (a : list (list (list R))) :
  reduce_last2 f 2 (cube a) (cube (map (map h) a))
  = Some (mat (map (map (fun l => f l (h l))) a)).
Proof.
  unfold cube. cbn [reduce_last2]. rewrite map_map, zipM_maps.
  erewrite mapM_map.
  - cbn [option_map]. unfold mat. rewrite map_map. reflexivity.
  - intros row _. cbn beta. unfold mat. rewrite map_map, zipM_maps.
    erewrite mapM_map.
    + cbn [option_map]. unfold vec. rewrite map_map. reflexivity.
    + intros l _. cbn beta. rewrite !as_vec_vec. reflexivity.
Qed.

Lemma reduce_sum_rows (m : list (list R)) :
  reduce_last (fun l => Some (Rsum l)) 1 (mat m) = Some (vec (map Rsum m)).
Proof.
  unfold mat. cbn [reduce_last]. rewrite mapM_map_in. erewrite mapM_map.
  - cbn [option_map]. unfold vec. rewrite map_map. reflexivity.
  - intros l _. cbn beta. rewrite as_vec_vec. reflexivity.
Qed.

Lemma kl_type_members (v : pyval) :
  py_in v SG_VAE.KLType = true -> v = SG_VAE.CATEGORICAL \/ v = SG_VAE.RELAXED.
Proof.
  destruct v as [|z|str|cls n]; try discriminate. cbn [py_in].
  intros H. apply andb_prop in H as [Hc Hn]. apply String.eqb_eq in Hc. subst cls.
  cbn [SG_VAE.KLType enum_name enum_values existsb] in *.
  destruct n as [|[|[|n]]]; try discriminate; [left|right]; reflexivity.
Qed.

Lemma eval_prior_logits (tf : library) (s : session) (feed : list (node * value))
    (self : SG_VAE.config) (lr : node) (logits : list (list (list R))) :
  feeds_placeholders feed = true ->
  eval tf s feed lr = Some (VF (cube logits)) ->
  eval tf s feed (SG_VAE.prior_logits self lr)
  = Some (VF (cube (map (map (prior_vector (SG_VAE.num_classes self))) logits))).
Proof.
  intros Hf Hl. unfold SG_VAE.prior_logits. do 2 eval_op. rewrite Hl.
  cbn [op_value float1 some_float]. rewrite !tmap_cube. unfold some_float.
  do 3 f_equal. rewrite map_map. apply map_ext. intros row.
  rewrite map_map. apply map_ext. intros l.
  unfold prior_vector. now rewrite map_map.
Qed.

Lemma eval_closed_form_kl (tf : library) (s : session) (feed : list (node * value))
    (self : SG_VAE.config) (lr : node) (logits : list (list (list R))) :
  feeds_placeholders feed = true ->
  eval tf s feed lr = Some (VF (cube logits)) ->
  eval tf s feed (Op kKLCategorical [lr; SG_VAE.prior_logits self lr])
  = Some (VF (mat (map (map (fun l => kl_categorical l
                                        (prior_vector (SG_VAE.num_classes self) l)))
                       logits))).
Proof.
  intros Hf Hl. eval_op. rewrite Hl, (eval_prior_logits tf s feed self lr logits Hf Hl).
  cbn [op_value float2 opt_float]. now rewrite reduce_last2_cube.
Qed.

Lemma eval_kl_loss (tf : library) (s : session) (feed : list (node * value))
    (kl_t : node) (kl : list (list R)) :
  feeds_placeholders feed = true ->
  eval tf s feed kl_t = Some (VF (mat kl)) ->
  eval tf s feed (Op (kReduceMean None) [Op (kReduceSum 1) [kl_t]])
  = Some (VF (Sc (Rmean (map Rsum kl)))).
Proof.
  intros Hf Hk. do 2 eval_op. rewrite Hk. cbn [op_value float1 opt_float].
  rewrite reduce_sum_rows. cbn [opt_float option_map float1]. unfold some_float.
  now rewrite scalars_vec.
Qed.

Lemma sg_kl_divergence_cases (self : SG_VAE.config) (lr : node) :
  py_in (SG_VAE.kl_type self) SG_VAE.KLType = true ->
  (SG_VAE.kl_type self = SG_VAE.CATEGORICAL \/ SG_VAE.straight_through self = true)
  /\ SG_VAE.kl_divergence self lr = Op kKLCategorical [lr; SG_VAE.prior_logits self lr]
  \/ (SG_VAE.straight_through self = false /\ SG_VAE.kl_type self = SG_VAE.RELAXED)
     /\ SG_VAE.kl_divergence self lr = relaxed_estimator self lr.
Proof.
  intros Hv. unfold SG_VAE.kl_divergence, relaxed_estimator, SG_VAE.sg_sample.
  destruct (kl_type_members _ Hv) as [Hk|Hk]; rewrite Hk.
  - left. split; [now left|reflexivity].
  - destruct (SG_VAE.straight_through self).
    + left. split; [now right|reflexivity].
    + right. split; [now split|reflexivity].
Qed.

(** C5.  For a [kl_type] of the enumeration [KLType]: the KL tensor is
    the closed form between the categorical posterior and the prior
    exactly when [kl_type] is [CATEGORICAL] or [straight_through] is set,
    and the prior, of constant logits, is uniform; it is the relaxed
    estimator, the log-density of the relaxed posterior minus that of the
    relaxed prior at the one relaxed sample, exactly when
    [straight_through] is off and [kl_type] is [RELAXED]; and [kl_loss_t]
    is the mean over the batch of the sums over the distributions. *)
Theorem sg_kl_term_selection (reg : Q -> option (node -> option node)) (self : SG_VAE.config)
    (g : SG_VAE.graph) :
  SG_VAE.build_all reg self = Ok g ->
  py_in (SG_VAE.kl_type self) SG_VAE.KLType = true ->
  exists x,
    let lr := sg_logits self x in
    let closed := Op kKLCategorical [lr; SG_VAE.prior_logits self lr] in
    SG_VAE.probs_t g = lr
    /\ (SG_VAE.kl_divergence_t g = closed
        <-> SG_VAE.kl_type self = SG_VAE.CATEGORICAL \/ SG_VAE.straight_through self = true)
    /\ (SG_VAE.kl_divergence_t g = relaxed_estimator self lr
        <-> SG_VAE.straight_through self = false /\ SG_VAE.kl_type self = SG_VAE.RELAXED)
    /\ SG_VAE.kl_loss_t g
       = Op (kReduceMean None) [Op (kReduceSum 1) [SG_VAE.kl_divergence_t g]]
    /\ (forall tf s feed logits,
          feeds_placeholders feed = true ->
          eval tf s feed lr = Some (VF (cube logits)) ->
          eval tf s feed closed
          = Some (VF (mat (map (map (fun l =>
                                       kl_categorical l
                                         (prior_vector (SG_VAE.num_classes self) l)))
                               logits))))
    /\ (forall l, l <> [] -> softmax (prior_vector (SG_VAE.num_classes self) l) = uniform l)
    /\ (forall tf s feed kl,
          feeds_placeholders feed = true ->
          eval tf s feed (SG_VAE.kl_divergence_t g) = Some (VF (mat kl)) ->
          eval tf s feed (SG_VAE.kl_loss_t g) = Some (VF (Sc (Rmean (map Rsum kl))))).
Proof.
  intros Hb Hv.
  destruct (@sg_built_graph reg self g Hb)
    as (x & c1 & c2 & c3 & _ & _ & _ & _ & _ & _ & Hpr & _ & Hkl & Hkll).
  exists x. cbn zeta. rewrite Hkll, Hkl.
  split; [exact Hpr|]. split; [|split; [|split; [reflexivity|split; [|split]]]].
  - destruct (sg_kl_divergence_cases self (sg_logits self x) Hv) as [[Hc ->]|[[Hs Hk] ->]].
    + split; [intros _; exact Hc|reflexivity].
    + split; [discriminate|]. intros [Hc|Hc]; [rewrite Hk in Hc|rewrite Hs in Hc];
        discriminate.
  - destruct (sg_kl_divergence_cases self (sg_logits self x) Hv) as [[Hc ->]|[[Hs Hk] ->]].
    + split; [discriminate|]. intros [Hs Hk].
      destruct Hc as [Hc|Hc]; [rewrite Hk in Hc|rewrite Hs in Hc]; discriminate.
    + split; [intros _; now split|reflexivity].
  - intros tf s feed logits Hf Hl. now apply eval_closed_form_kl.
  - intros l Hl. now apply softmax_prior.
  - intros tf s feed kl Hf Hk. now apply eval_kl_loss.
Qed.

(* ================================================================== *)
(** * Part 9: the properties on the small models *)
(* ================================================================== *)

Lemma small_vq_built : VQ_VAE.build_all kernel_penalty small_vq = Ok small_vq_graph.
Proof. vm_cast_no_check (eq_refl (Ok small_vq_graph)). Qed.

Lemma small_sg_built (straight_through : bool) :
  SG_VAE.build_all kernel_penalty (small_sg SG_VAE.RELAXED straight_through)
  = Ok (small_sg_graph SG_VAE.RELAXED straight_through).
Proof.
  destruct straight_through;
    [vm_cast_no_check (eq_refl (Ok (small_sg_graph SG_VAE.RELAXED true)))
    |vm_cast_no_check (eq_refl (Ok (small_sg_graph SG_VAE.RELAXED false)))].
Qed.

Lemma small_sg_unknown_built :
  SG_VAE.build_all kernel_penalty (small_sg unknown_kl_type false)
  = Ok (small_sg_graph unknown_kl_type false).
Proof. vm_cast_no_check (eq_refl (Ok (small_sg_graph unknown_kl_type false))). Qed.

Lemma small_dense_units : dense_units small_library.
Proof.
  intros units relu kernel bias x. exists (repeat 0%R units).
  split; [reflexivity|apply repeat_length].
Qed.

Lemma small_relaxed_draw_shape : relaxed_draw_shape small_library.
Proof. intros rn b d t l. reflexivity. Qed.

(** C1 on the small model: the two predicted embeddings are assigned
    their nearest codebook vectors. *)
Lemma small_vq_middle_assigns_nearest :
  exists m c',
    VQ_VAE.build_middle small_vq (Placeholder "pred_embeds") empty_collections = Ok (m, c')
    /\ eval small_library small_session small_pred_feed (VQ_VAE.m_classes m)
       = Some (VI (mat (map (map (nearest small_codebook)) small_preds)))
    /\ eval small_library small_session small_pred_feed (VQ_VAE.m_collected_embeds m)
       = Some (VF (cube (map (map (fun p => nth (nearest small_codebook p) small_codebook []))
                             small_preds))).
Proof.
  destruct (@vq_middle_assigns_nearest_codeword small_library small_session small_pred_feed
              small_vq small_codebook small_preds)
    with (pe0 := Placeholder "pred_embeds") (c := empty_collections)
    as (m & c' & Hb & Hc & He & _).
  - simpl. lia.
  - simpl. lia.
  - reflexivity.
  - simpl. lia.
  - repeat constructor.
  - repeat constructor.
  - reflexivity.
  - reflexivity.
  - reflexivity.
  - exists m, c'. repeat split; assumption.
Defined.

(** C2 on the small model: the update of the codebook is the last of
    the list, after those of the decoder and of the encoder, and is not
    the gradient of [loss_t]. *)
Lemma small_vq_step_op :
  gradients (VQ_VAE.loss_t small_vq_graph) (VQ_VAE.embeds small_vq_graph)
  <> gradients (VQ_VAE.left_loss_t small_vq_graph) (VQ_VAE.embeds small_vq_graph)
  /\ exists md c encoder_grads,
       VQ_VAE.build_network kernel_penalty small_vq (Placeholder "input_pl")
         empty_collections = Ok (md, c)
       /\ length encoder_grads = length (trainable_in "model/encoder" c)
       /\ VQ_VAE.step_op small_vq_graph
          = ApplyGradients (VQ_VAE.training_rate small_vq (Var "global_step"))
              (map (fun v => (gradients (VQ_VAE.loss_t small_vq_graph) v, v))
                   (trainable_in "model/decoder" c)
               ++ encoder_grads
               ++ [(gradients (VQ_VAE.left_loss_t small_vq_graph)
                              (VQ_VAE.embeds small_vq_graph),
                    VQ_VAE.embeds small_vq_graph)]).
Proof.
  destruct (@vq_step_op_applies_assembled_gradients kernel_penalty small_vq small_vq_graph
              small_vq_built)
    as (_ & (md & c & gz & eg & Hn & _ & Heg & Hs) & Hne).
  split; [exact Hne|]. exists md, c, eg. split; [exact Hn|]. split; [|exact Hs].
  symmetry. exact (Forall2_length Heg).
Defined.

(** C3 on the small model. *)
Lemma small_vq_isolation :
  gradients (VQ_VAE.left_loss_t small_vq_graph) (Var "model/encoder/fc1/dense/kernel") = None
  /\ gradients (VQ_VAE.left_loss_t small_vq_graph) (Var "model/decoder/fc1/dense/kernel") = None
  /\ gradients (VQ_VAE.right_loss_t small_vq_graph) (VQ_VAE.embeds small_vq_graph) = None.
Proof.
  destruct (@vq_codebook_gradient_isolation kernel_penalty small_vq small_vq_graph
              small_vq_built) as (Hl & Hr & _).
  split; [|split].
  - apply Hl. left. reflexivity.
  - apply Hl. right. reflexivity.
  - exact Hr.
Defined.

(** The gradient of [output_loss_t] does reach the codebook, through
    [tf.gather]. *)
Lemma small_vq_output_loss_reaches_codebook :
  has_gradient (VQ_VAE.output_loss_t small_vq_graph) (VQ_VAE.embeds small_vq_graph) = true.
Proof. vm_compute. reflexivity. Qed.

(** C4 on the small model: with the relaxed draw [(0, 1)], the
    straight-through sample is the one-hot of class 1. *)
Lemma small_sg_straight_through :
  eval small_library small_session small_logits_feed
       (SG_VAE.straight_through_sample (small_sg SG_VAE.RELAXED true)
          (SG_VAE.relaxed_sample (Placeholder "logits")))
  = Some (VF (cube (hard_value (small_sg SG_VAE.RELAXED true) small_logits)))
  /\ SG_VAE.sg_sample (small_sg SG_VAE.RELAXED true) (Placeholder "logits")
     = SG_VAE.straight_through_sample (small_sg SG_VAE.RELAXED true)
         (SG_VAE.relaxed_sample (Placeholder "logits")).
Proof.
  destruct (sg_straight_through_value_and_gradient small_library small_session
              small_logits_feed (small_sg SG_VAE.RELAXED true) (Placeholder "logits")
              small_logits)
    as (Hs & _ & Hv & _).
  - reflexivity.
  - simpl. lia.
  - repeat constructor.
  - reflexivity.
  - split; [exact Hv|]. apply Hs. reflexivity.
Defined.

(** C5 on the small model, built with [RELAXED] and without
    [straight_through]: the KL term is the relaxed estimator. *)
Lemma small_sg_kl_term :
  exists x,
    SG_VAE.kl_divergence_t (small_sg_graph SG_VAE.RELAXED false)
    = relaxed_estimator (small_sg SG_VAE.RELAXED false)
        (sg_logits (small_sg SG_VAE.RELAXED false) x)
    /\ SG_VAE.kl_loss_t (small_sg_graph SG_VAE.RELAXED false)
       = Op (kReduceMean None)
            [Op (kReduceSum 1) [SG_VAE.kl_divergence_t (small_sg_graph SG_VAE.RELAXED false)]].
Proof.
  destruct (sg_kl_term_selection kernel_penalty (small_sg SG_VAE.RELAXED false)
              (small_sg_graph SG_VAE.RELAXED false) (small_sg_built false) eq_refl)
    as (x & _ & _ & [_ Hr] & Hl & _).
  exists x. split; [|exact Hl]. apply Hr. split; reflexivity.
Defined.

(** C6 on the small model. *)
Lemma small_sg_sample_selected :
  exists x,
    SG_VAE.sample_t (small_sg_graph SG_VAE.RELAXED true)
    = Op kWhere [Placeholder "is_training_pl";
                 SG_VAE.flat_sample (small_sg SG_VAE.RELAXED true)
                   (SG_VAE.sg_sample (small_sg SG_VAE.RELAXED true)
                      (sg_logits (small_sg SG_VAE.RELAXED true) x));
                 SG_VAE.flat_sample (small_sg SG_VAE.RELAXED true)
                   (SG_VAE.cat_sample (sg_logits (small_sg SG_VAE.RELAXED true) x))].
Proof.
  destruct (@sg_sample_selected_at_run_time kernel_penalty (small_sg SG_VAE.RELAXED true)
              (small_sg_graph SG_VAE.RELAXED true) (small_sg_built true))
    as (x & c2 & c3 & Hs & Ht & _).
  exists x. rewrite Hs, Ht. reflexivity.
Defined.

(** C9 on the small model: two inputs, encoded one by one or together. *)
Lemma small_vq_encode :
  VQ_VAE.encode small_library small_vq_graph small_session small_inputs 1
  = VQ_VAE.encode small_library small_vq_graph small_session small_inputs 2
  /\ exists f, VQ_VAE.encode small_library small_vq_graph small_session small_inputs 2
               = Ok (mat (map f small_inputs)).
Proof.
  destruct (@vq_encode_batch_size_independent small_library small_session kernel_penalty
              small_vq small_vq_graph small_codebook)
    as (f & _ & H).
  - exact small_dense_units.
  - simpl. lia.
  - simpl. lia.
  - reflexivity.
  - simpl. lia.
  - repeat constructor.
  - reflexivity.
  - exact small_vq_built.
  - assert (Hne : small_inputs <> []) by discriminate.
    destruct (H small_inputs 2 Hne ltac:(lia)) as [He Hb].
    split; [apply Hb; lia|]. exists f. exact He.
Defined.

(** Without any input, [encode] raises instead of returning no row. *)
Lemma small_vq_encode_nothing :
  VQ_VAE.encode small_library small_vq_graph small_session [] 1 = Raise ValueError.
Proof. reflexivity. Qed.

(** C10 on the small model. *)
Lemma small_sg_encode :
  SG_VAE.encode_with small_library (small_sg_graph SG_VAE.RELAXED false) 5%R
    small_session small_inputs 1
  = SG_VAE.encode small_library (small_sg_graph SG_VAE.RELAXED false)
      small_session small_inputs 1.
Proof.
  destruct (sg_encode_ignores_temperature small_library kernel_penalty
              (small_sg SG_VAE.RELAXED false) (small_sg_graph SG_VAE.RELAXED false)
              small_relaxed_draw_shape (small_sg_built false))
    as (_ & _ & H).
  apply H.
Defined.

(** C8 on the small model: [predict] draws the classes 0 and 1 for two
    samples, and [decode] on them returns the outputs of [predict]. *)
Lemma small_vq_decode_predict :
  exists outputs,
    VQ_VAE.predict small_library small_vq small_vq_graph small_session (Rng 0) 2
    = Ok (outputs, [[0]; [1]])
    /\ VQ_VAE.decode small_library small_vq small_vq_graph small_session [[0]; [1]]
       = Ok outputs.
Proof.
  assert (Hp : { outputs | VQ_VAE.predict small_library small_vq small_vq_graph
                             small_session (Rng 0) 2 = Ok (outputs, [[0]; [1]]) }).
  { eexists. vm_compute. reflexivity. }
  destruct Hp as [outputs Hp]. exists outputs. split; [exact Hp|].
  exact (@vq_decode_reproduces_predict small_library small_vq small_vq_graph small_session
           (Rng 0) 2 outputs [[0]; [1]] Hp).
Defined.

(** C7.  Both constructors raise [AssertionError] exactly when the loss
    type is no member of [LossType] or when the filter, filter-size and
    stride lists of the encoder or of the decoder differ in length; the
    KL type is not examined by [SG_VAE.__init__].  With [kl_type] a string,
    construction succeeds, [build_all] succeeds as well, and the KL term
    built is the relaxed estimator. *)
Theorem constructors_validate_lengths_and_loss_type :
  (forall args,
     VQ_VAE.init args = if vq_arguments_ok args then Ok args else Raise AssertionError)
  /\ (forall args,
        SG_VAE.init args = if sg_arguments_ok args then Ok args else Raise AssertionError)
  /\ py_in unknown_kl_type SG_VAE.KLType = false
  /\ SG_VAE.init (small_sg unknown_kl_type false) = Ok (small_sg unknown_kl_type false)
  /\ exists g x,
       SG_VAE.build_all kernel_penalty (small_sg unknown_kl_type false) = Ok g
       /\ SG_VAE.kl_divergence_t g
          = relaxed_estimator (small_sg unknown_kl_type false)
              (sg_logits (small_sg unknown_kl_type false) x).
Proof.
  split; [|split; [|split; [|split]]].
  - intros args. unfold VQ_VAE.init, vq_arguments_ok, same_lengths.
    destruct (py_in _ _); [|reflexivity]. cbn [assert rbind andb].
    destruct (_ && _); [|reflexivity]. cbn [assert rbind andb].
    destruct (_ && _); reflexivity.
  - intros args. unfold SG_VAE.init, sg_arguments_ok, same_lengths.
    destruct (py_in _ _); [|reflexivity]. cbn [assert rbind andb].
    destruct (_ && _); [|reflexivity]. cbn [assert rbind andb].
    destruct (_ && _); reflexivity.
  - reflexivity.
  - reflexivity.
  - destruct (@sg_built_graph kernel_penalty (small_sg unknown_kl_type false)
                (small_sg_graph unknown_kl_type false) small_sg_unknown_built)
      as (x & c1 & c2 & c3 & _ & _ & _ & _ & _ & _ & _ & _ & Hkl & _).
    exists (small_sg_graph unknown_kl_type false), x.
    split; [exact small_sg_unknown_built|]. rewrite Hkl. reflexivity.
Qed.

(* ================================================================== *)
(** * Part 10: further properties of the two classes *)
(* ================================================================== *)

(** ** The batches of [encode] and [get_log_likelihood] *)

Lemma num_steps_bounds (n bs k : nat) :
  1 <= bs -> num_steps_of n bs = Ok k -> n <= k * bs /\ (k = 0 \/ (k - 1) * bs < n).
Proof.
  intros Hbs. unfold num_steps_of.
  replace (bs =? 0) with false by (symmetry; apply Nat.eqb_neq; lia).
  pose proof (Nat.div_mod_eq n bs) as Hdm.
  pose proof (Nat.mod_upper_bound n bs ltac:(lia)) as Hmod.
  destruct (n mod bs =? 0) eqn:E; intros H; inversion H; subst k; clear H.
  - apply Nat.eqb_eq in E. split; [nia|].
    destruct (n / bs) as [|q] eqn:Eq; [now left|right]. nia.
  - apply Nat.eqb_neq in E. split; [nia|]. right. nia.
Qed.

Lemma length_slice {A} (a b : nat) (l : list A) :
  length (slice a b l) = Nat.min (b - a) (length l - a).
Proof. unfold slice. now rewrite length_firstn, length_skipn. Qed.

(** The loop of [encode] cuts the inputs into consecutive batches: put
    end to end they are the inputs, no batch is empty, and every batch
    but the last holds [batch_size] samples. *)
Theorem batches_cover_inputs {A} (inputs : list A) (batch_size num_steps : nat) :
  1 <= batch_size ->
  num_steps_of (length inputs) batch_size = Ok num_steps ->
  let batch := fun i => slice (i * batch_size) ((i + 1) * batch_size) inputs in
  concat (map batch (seq 0 num_steps)) = inputs
  /\ (forall i, i < num_steps -> 1 <= length (batch i) <= batch_size)
  /\ (forall i, S i < num_steps -> length (batch i) = batch_size).
Proof.
  intros Hbs Hk. cbn zeta.
  destruct (num_steps_bounds (length inputs) batch_size num_steps Hbs Hk) as [Hcov Hlast].
  split; [|split].
  - rewrite concat_slices. now apply firstn_all2.
  - intros i Hi. rewrite length_slice. destruct Hlast as [->|Hlast]; [lia|]. nia.
  - intros i Hi. rewrite length_slice. destruct Hlast as [->|Hlast]; [lia|]. nia.
Qed.

Lemma small_batches_cover_inputs :
  concat (map (fun i => slice (i * 2) ((i + 1) * 2) [1; 2; 3; 4; 5]) (seq 0 3))
  = [1; 2; 3; 4; 5]
  /\ length (slice (2 * 2) ((2 + 1) * 2) [1; 2; 3; 4; 5]) = 1.
Proof.
  destruct (@batches_cover_inputs nat [1; 2; 3; 4; 5] 2 3) as (Hc & _ & _).
  - lia.
  - reflexivity.
  - split; [exact Hc|reflexivity].
Defined.

(** A batch size of 0 makes the division of the first line raise; with no
    input at all the loop runs no step and [np.concatenate] raises. *)
Theorem batch_loops_reject_zero_batch_size_and_empty_input :
  (forall tf g s inputs, VQ_VAE.encode tf g s inputs 0 = Raise ZeroDivisionError)
  /\ (forall tf g s inputs, SG_VAE.encode tf g s inputs 0 = Raise ZeroDivisionError)
  /\ (forall tf g s data,
        SG_VAE.get_log_likelihood tf g s data 0 = Raise ZeroDivisionError)
  /\ (forall tf g s batch_size,
        VQ_VAE.encode tf g s [] (S batch_size) = Raise ValueError)
  /\ (forall tf g s batch_size,
        SG_VAE.encode tf g s [] (S batch_size) = Raise ValueError)
  /\ (forall tf g s batch_size,
        SG_VAE.get_log_likelihood tf g s [] (S batch_size) = Raise ValueError).
Proof.
  assert (H0 : forall bs, num_steps_of 0 (S bs) = Ok 0).
  { intros bs. unfold num_steps_of. cbn [Nat.eqb length].
    now rewrite Nat.Div0.mod_0_l, Nat.Div0.div_0_l. }
  repeat split; intros; try reflexivity.
  - unfold VQ_VAE.encode. cbn [length]. now rewrite H0.
  - unfold SG_VAE.encode, SG_VAE.encode_with. cbn [length]. now rewrite H0.
  - unfold SG_VAE.get_log_likelihood. cbn [length]. now rewrite H0.
Qed.

(** ** Tensors that two runs compute alike *)

Lemma opkind_eqb_sides (k k' : opkind) :
  decoder_side k = false -> decoder_side k' = true -> opkind_eqb k k' = false.
Proof.
  intros Hk Hk'. destruct k; try discriminate Hk.
  - destruct ds as [|e0 ds]; [discriminate Hk|].
    destruct k'; try reflexivity. destruct ds0 as [|e1 ds1]; [|discriminate Hk'].
    cbn [opkind_eqb list_eqb]. apply Bool.andb_false_r.
  - destruct k'; try reflexivity. discriminate Hk'.
Qed.

Lemma lookup_decoder_side (feed : list (node * value)) (k : opkind) (ins : list node) :
  feeds_encoder_side feed = true -> decoder_side k = true ->
  lookup_feed feed (Op k ins) = None.
Proof.
  unfold feeds_encoder_side, lookup_feed. intros Hf Hk.
  induction feed as [|[y v] feed IH]; [reflexivity|].
  cbn [forallb fst] in Hf. apply andb_prop in Hf as [Hy Hf]. cbn [find fst].
  destruct y as [n|n|k0 ins0]; try discriminate Hy.
  - cbn [node_eqb]. now apply IH.
  - apply Bool.negb_true_iff in Hy. cbn [node_eqb].
    rewrite (opkind_eqb_sides k0 k Hy Hk). cbn [andb]. now apply IH.
Qed.

Lemma lookup_variable (feed : list (node * value)) (n : string) :
  feeds_encoder_side feed = true -> lookup_feed feed (Var n) = None.
Proof.
  unfold feeds_encoder_side, lookup_feed. intros Hf.
  induction feed as [|[y v] feed IH]; [reflexivity|].
  cbn [forallb fst] in Hf. apply andb_prop in Hf as [Hy Hf]. cbn [find fst].
  destruct y as [m|m|k0 ins0]; try discriminate Hy; cbn [node_eqb]; now apply IH.
Qed.

Lemma eval_fed (tf : library) (s : session) (feed : list (node * value)) (y : node)
    (v : value) :
  lookup_feed feed y = Some v -> eval tf s feed y = Some v.
Proof. intros H. destruct y; cbn [eval]; now rewrite H. Qed.

Lemma op_value_no_draw (tf : library) (rn rn' : rng) (k : opkind) (vs : list value) :
  draws k = false -> op_value tf rn k vs = op_value tf rn' k vs.
Proof. intros H. destruct k; try discriminate H; reflexivity. Qed.

Lemma is_layer_decoder_side (k : opkind) : is_layer k = true -> decoder_side k = true.
Proof. destruct k; try discriminate; reflexivity. Qed.

Lemma is_wrapper_decoder_side (k : opkind) : is_wrapper k = true -> decoder_side k = true.
Proof. destruct k; try discriminate; reflexivity. Qed.

Lemma is_layer_no_draw (k : opkind) : is_layer k = true -> draws k = false.
Proof. destruct k; try discriminate; reflexivity. Qed.

Lemma is_wrapper_no_draw (k : opkind) : is_wrapper k = true -> draws k = false.
Proof. destruct k; try discriminate; reflexivity. Qed.

Section Agreement.

Variable tf : library.
Variables s1 s2 : session.
Variables feed1 feed2 : list (node * value).

Hypothesis feed1_ok : feeds_encoder_side feed1 = true.
Hypothesis feed2_ok : feeds_encoder_side feed2 = true.

Lemma agree_Op (k : opkind) (ins : list node) :
  decoder_side k = true ->
  draws k = false \/ noise s1 = noise s2 ->
  Forall (fun y => eval tf s1 feed1 y = eval tf s2 feed2 y) ins ->
  eval tf s1 feed1 (Op k ins) = eval tf s2 feed2 (Op k ins).
Proof.
  intros Hk Hd H.
  rewrite !eval_Op by (now apply lookup_decoder_side).
  rewrite (mapM_ext (eval tf s1 feed1) (eval tf s2 feed2) ins)
    by (intros y Hy; rewrite Forall_forall in H; now apply H).
  destruct (mapM (eval tf s2 feed2) ins) as [vs|]; [|reflexivity].
  destruct Hd as [Hd|Hd]; [now apply op_value_no_draw|now rewrite Hd].
Qed.

Lemma agree_Var (n : string) :
  variables s1 n = variables s2 n ->
  eval tf s1 feed1 (Var n) = eval tf s2 feed2 (Var n).
Proof.
  intros H. rewrite !eval_Var by (now apply lookup_variable). now rewrite H.
Qed.

Lemma agree_wrapper (k : opkind) (x : node) :
  is_wrapper k = true ->
  eval tf s1 feed1 x = eval tf s2 feed2 x ->
  eval tf s1 feed1 (Op k [x]) = eval tf s2 feed2 (Op k [x]).
Proof.
  intros Hk Hx. apply agree_Op.
  - now apply is_wrapper_decoder_side.
  - left. now apply is_wrapper_no_draw.
  - now constructor.
Qed.

Lemma agree_layer_step (pre : string) (x : node) (c : collections) (x' : node)
    (c' : collections) :
  (forall n, String.prefix pre n = true -> variables s1 n = variables s2 n) ->
  layer_step pre x c x' c' ->
  eval tf s1 feed1 x = eval tf s2 feed2 x ->
  eval tf s1 feed1 x' = eval tf s2 feed2 x'.
Proof.
  intros Hv (k & kn & bn & rl & Hk & Hkn & Hbn & -> & _) Hx. apply agree_Op.
  - now apply is_layer_decoder_side.
  - left. now apply is_layer_no_draw.
  - apply Forall_cons; [exact Hx|].
    apply Forall_cons; [apply agree_Var; now apply Hv|].
    apply Forall_cons; [apply agree_Var; now apply Hv|constructor].
Qed.

(** The output of the decoder of [VQ_VAE] is decided by its input and by
    the variables under ["model/decoder"]. *)
Lemma vq_decoder_agrees (reg : Q -> option (node -> option node)) (self : VQ_VAE.config)
    (input : node) (c : collections) (lg fl out : node) (c' : collections) :
  (forall n, String.prefix "model/decoder" n = true -> variables s1 n = variables s2 n) ->
  eval tf s1 feed1 input = eval tf s2 feed2 input ->
  VQ_VAE.build_decoder reg self input c = Ok ((lg, fl, out), c') ->
  eval tf s1 feed1 out = eval tf s2 feed2 out.
Proof.
  intros Hv Hin Hb.
  apply (@vq_decoder_invariant reg self
           (fun x _ => eval tf s1 feed1 x = eval tf s2 feed2 x)
           (fun k x _ => agree_wrapper k x)
           input c lg fl out c'); [|exact Hin|exact Hb].
  intros x c0 x' c0'. now apply agree_layer_step.
Qed.

End Agreement.

(** ** [VQ_VAE]: [encode], [decode] and [predict] on a built model *)

(** The tensors [encode], [decode] and [predict] run or feed. *)
Lemma vq_run_graph (reg : Q -> option (node -> option node)) (self : VQ_VAE.config)
    (g : VQ_VAE.graph) :
  VQ_VAE.build_all reg self = Ok g ->
  exists pe0 c1 c2 lg fl c3,
    VQ_VAE.build_encoder reg self (Placeholder "input_pl") empty_collections = Ok (pe0, c1)
    /\ VQ_VAE.build_middle self pe0 c1
       = Ok ({| VQ_VAE.m_embeds := VQ_VAE.embeds g;
                VQ_VAE.m_pred_embeds := VQ_VAE.pred_embeds g;
                VQ_VAE.m_diff := VQ_VAE.diff g; VQ_VAE.m_norm := VQ_VAE.norm g;
                VQ_VAE.m_classes := VQ_VAE.classes g;
                VQ_VAE.m_collected_embeds := VQ_VAE.collected_embeds g;
                VQ_VAE.m_flat_collected_embeds := VQ_VAE.flat_collected_embeds g |}, c2)
    /\ VQ_VAE.build_decoder reg self (VQ_VAE.flat_collected_embeds g) c2
       = Ok ((lg, fl, VQ_VAE.output_t g), c3)
    /\ VQ_VAE.input_pl g = Placeholder "input_pl"
    /\ VQ_VAE.pred_embeds g
       = Op (kReshape Infer (VQ_VAE.latent_size self) [VQ_VAE.embedding_size self]) [pe0]
    /\ VQ_VAE.classes g
       = Op (kArgMin 2)
            [Op (kNorm 3) [VQ_VAE.embedding_difference (VQ_VAE.pred_embeds g)
                                                       (Var embeddings_name)]]
    /\ VQ_VAE.flat_collected_embeds g
       = Op (kReshape Infer (VQ_VAE.latent_size self * VQ_VAE.embedding_size self) [])
            [Op kGather [Var embeddings_name; VQ_VAE.classes g]].
Proof.
  intros Hb.
  destruct (@vq_build_all_inv reg self g Hb)
    as (pe0 & c1 & m & c2 & [[lg fl] out] & c3 & cf & He & Hm & Hd & Ht
        & Hin & Hcl & Hpe & Hem & Hco & Hout & Hfl).
  cbn [snd] in Hout. subst out.
  pose proof Hm as Hm'. unfold VQ_VAE.build_middle, bind, add_trainable, ret in Hm'.
  inversion Hm' as [[Hmm Hc2]]. clear Hm'.
  assert (Hdi : VQ_VAE.diff g = VQ_VAE.m_diff m /\ VQ_VAE.norm g = VQ_VAE.m_norm m).
  { unfold VQ_VAE.build_training in Ht. destruct (VQ_VAE.output_t g) eqn:Eo.
    all: apply bind_Ok in Ht as (c & c' & Hc & Ht);
      apply bind_Ok in Ht as (eg & c'' & Heg & Ht);
      destruct (apply_gradients _ _) as [st|e]; [|discriminate];
      unfold ret in Ht; inversion Ht; split; reflexivity. }
  destruct Hdi as [Hdi Hno].
  exists pe0, c1, c2, lg, fl, c3.
  rewrite Hem, Hpe, Hdi, Hno, Hcl, Hco, Hfl, Hin.
  split; [exact He|]. split; [rewrite Hm; destruct m; reflexivity|].
  rewrite <- Hfl. split; [rewrite Hfl; exact Hd|]. rewrite Hfl.
  rewrite <- Hmm. cbn [VQ_VAE.m_pred_embeds VQ_VAE.m_classes VQ_VAE.m_flat_collected_embeds].
  repeat split; reflexivity.
Qed.

Section VQRun.

Variable tf : library.
Variable s : session.
Variable reg : Q -> option (node -> option node).
Variable self : VQ_VAE.config.
Variable g : VQ_VAE.graph.
Variable codebook : list (list R).

Hypothesis latent_pos : 0 < VQ_VAE.latent_size self.
Hypothesis embedding_pos : 0 < VQ_VAE.embedding_size self.
Hypothesis codebook_size : length codebook = VQ_VAE.num_embeddings self.
Hypothesis codebook_shape : mat_shape (VQ_VAE.embedding_size self) codebook.
Hypothesis embeds_value : variables s "model/middle/embeddings" = mat codebook.
Hypothesis built : VQ_VAE.build_all reg self = Ok g.

(** The codebook vectors of a batch of codes, one row per sample. *)
Lemma codes_shape (codes : list (list nat)) :
  Forall (fun row => length row = VQ_VAE.latent_size self
                     /\ Forall (fun a => a < VQ_VAE.num_embeddings self) row) codes ->
  cube_shape (VQ_VAE.latent_size self) (VQ_VAE.embedding_size self)
             (map (map (fun a => nth a codebook [])) codes).
Proof.
  intros H. unfold cube_shape. apply Forall_map. eapply Forall_impl; [|exact H].
  intros row [Hl Hr]. rewrite length_map. split; [exact Hl|].
  apply Forall_map. eapply Forall_impl; [|exact Hr]. intros a Ha. cbn beta.
  pose proof codebook_shape as Hc. unfold mat_shape in Hc. rewrite Forall_forall in Hc.
  apply Hc, nth_In. now rewrite codebook_size.
Qed.

(** Whatever else is fed, with [classes] fed the decoder receives the
    codebook vectors of the codes, put end to end. *)
Lemma eval_collected_from_classes (feed : list (node * value)) (codes : list (list nat)) :
  feeds_encoder_side feed = true ->
  lookup_feed feed (VQ_VAE.classes g) = Some (VI (mat codes)) ->
  Forall (fun row => length row = VQ_VAE.latent_size self
                     /\ Forall (fun a => a < VQ_VAE.num_embeddings self) row) codes ->
  eval tf s feed (Op kGather [Var embeddings_name; VQ_VAE.classes g])
  = Some (VF (cube (map (map (fun a => nth a codebook [])) codes)))
  /\ eval tf s feed (VQ_VAE.flat_collected_embeds g)
     = Some (VF (mat (map (fun row => concat (map (fun a => nth a codebook []) row))
                          codes))).
Proof.
  intros Hf Hl Hc.
  destruct (vq_run_graph reg self g built)
    as (pe0 & c1 & c2 & lg & fl & c3 & _ & _ & _ & _ & _ & _ & Hfl).
  assert (Hg : eval tf s feed (Op kGather [Var embeddings_name; VQ_VAE.classes g])
               = Some (VF (cube (map (map (fun a => nth a codebook [])) codes)))).
  { rewrite eval_Op by (now apply lookup_decoder_side). cbn [mapM].
    rewrite eval_Var by (now apply lookup_variable).
    rewrite (eval_fed tf s feed _ _ Hl). unfold embeddings_name. rewrite embeds_value.
    cbn [op_value]. rewrite gather_value; [reflexivity|].
    eapply Forall_impl; [|exact Hc]. intros row [_ Hr]. now rewrite codebook_size. }
  split; [exact Hg|]. rewrite Hfl.
  rewrite eval_Op by (now apply lookup_decoder_side). cbn [mapM]. rewrite Hg.
  cbn [op_value].
  rewrite (@reshape_cube_to_mat R _ _ _ latent_pos embedding_pos (codes_shape codes Hc)).
  cbn [option_map]. now rewrite map_map.
Qed.

Lemma input_feed_ok (batch : list (tensor R)) :
  feeds_encoder_side [(Placeholder "input_pl", VF (Arr batch))] = true.
Proof. reflexivity. Qed.

Lemma classes_feed_ok (cls : list (list nat)) (n : nat) :
  feeds_encoder_side (VQ_VAE.classes_feed self g cls n) = true.
Proof.
  destruct (vq_run_graph reg self g built)
    as (pe0 & c1 & c2 & lg & fl & c3 & _ & _ & _ & _ & Hpe & Hcl & _).
  unfold VQ_VAE.classes_feed. rewrite Hcl, Hpe. reflexivity.
Qed.

Lemma classes_feed_lookup (cls : list (list nat)) (n : nat) :
  lookup_feed (VQ_VAE.classes_feed self g cls n) (VQ_VAE.classes g) = Some (VI (mat cls)).
Proof.
  unfold VQ_VAE.classes_feed, lookup_feed. cbn [find fst].
  now rewrite node_eqb_refl.
Qed.

Hypothesis dense_ok : dense_units tf.
Hypothesis codebook_pos : 0 < VQ_VAE.num_embeddings self.

Lemma nearest_codes_valid (preds : list (list (list R))) :
  cube_shape (VQ_VAE.latent_size self) (VQ_VAE.embedding_size self) preds ->
  Forall (fun row => length row = VQ_VAE.latent_size self
                     /\ Forall (fun a => a < VQ_VAE.num_embeddings self) row)
         (map (map (nearest codebook)) preds).
Proof.
  intros Hp. apply Forall_map. eapply Forall_impl; [|exact Hp].
  intros row [Hl _]. rewrite length_map. split; [exact Hl|].
  apply Forall_map. apply Forall_forall. intros p _. rewrite <- codebook_size.
  apply nearest_spec. intros H. pose proof codebook_size as Hs. rewrite H in Hs.
  simpl in Hs. lia.
Qed.

(** One [session.run] on a batch of inputs: the codes and the input of
    the decoder, from the predicted embeddings of every sample. *)
Lemma vq_values_of_batch :
  exists h : tensor R -> list R,
    forall batch,
      let preds := map (fun t => chunks_n (VQ_VAE.latent_size self)
                                          (VQ_VAE.embedding_size self) (h t)) batch in
      cube_shape (VQ_VAE.latent_size self) (VQ_VAE.embedding_size self) preds
      /\ eval tf s [(Placeholder "input_pl", VF (Arr batch))] (VQ_VAE.classes g)
         = Some (VI (mat (map (map (nearest codebook)) preds)))
      /\ eval tf s [(Placeholder "input_pl", VF (Arr batch))] (VQ_VAE.flat_collected_embeds g)
         = Some (VF (mat (map (@concat R) (collected codebook preds)))).
Proof.
  destruct (vq_run_graph reg self g built)
    as (pe0 & c1 & c2 & lg & fl & c3 & He & Hm & _).
  destruct (@vq_encoder_samplewise tf s reg self (Placeholder "input_pl") eq_refl
              dense_ok _ _ _ He) as (h & Hlen & Hh).
  exists h. intros batch preds.
  assert (Hshape : cube_shape (VQ_VAE.latent_size self)
                              (VQ_VAE.embedding_size self) preds).
  { apply Forall_forall. intros row Hrow. apply in_map_iff in Hrow as (t & <- & _).
    now apply chunks_n_shape. }
  assert (Hpe : eval tf s [(Placeholder "input_pl", VF (Arr batch))] pe0
                = Some (VF (mat (map (@concat R) preds)))).
  { rewrite Hh. unfold preds. rewrite map_map. do 3 f_equal.
    apply map_ext. intros t. symmetry. now apply concat_chunks_n. }
  destruct (@eval_middle tf s [(Placeholder "input_pl", VF (Arr batch))] self codebook
              preds latent_pos embedding_pos codebook_size codebook_pos codebook_shape
              Hshape eq_refl embeds_value pe0 c1 Hpe)
    as (m' & c' & Hm' & _ & Hcls & _ & Hflat).
  rewrite Hm in Hm'. inversion Hm'; subst m'.
  cbn [VQ_VAE.m_classes VQ_VAE.m_flat_collected_embeds] in Hcls, Hflat.
  split; [exact Hshape|]. split; assumption.
Qed.

Lemma vq_encode_value (h : tensor R -> list R) :
  (forall batch,
     eval tf s [(Placeholder "input_pl", VF (Arr batch))] (VQ_VAE.classes g)
     = Some (VI (mat (map (map (nearest codebook))
                          (map (fun t => chunks_n (VQ_VAE.latent_size self)
                                                  (VQ_VAE.embedding_size self) (h t))
                               batch))))) ->
  forall inputs batch_size,
    inputs <> [] -> 1 <= batch_size ->
    VQ_VAE.encode tf g s inputs batch_size
    = Ok (mat (map (map (nearest codebook))
                   (map (fun t => chunks_n (VQ_VAE.latent_size self)
                                           (VQ_VAE.embedding_size self) (h t))
                        inputs))).
Proof.
  intros Hrun inputs bs Hne Hbs.
  destruct (vq_run_graph reg self g built)
    as (pe0 & c1 & c2 & lg & fl & c3 & _ & _ & _ & Hin & _).
  set (f := fun t => map (nearest codebook)
                       (chunks_n (VQ_VAE.latent_size self)
                                 (VQ_VAE.embedding_size self) (h t))).
  assert (Hrun' : forall batch,
             run tf s (VQ_VAE.classes g) [(VQ_VAE.input_pl g, VF (Arr batch))]
             = Ok (VI (mat (map f batch)))).
  { intros batch. unfold run. rewrite Hin, Hrun. now rewrite map_map. }
  unfold VQ_VAE.encode.
  destruct (@num_steps_covers (length inputs) bs Hbs) as (k & Hk & Hcov & Hpos).
  rewrite Hk. cbn [rbind].
  rewrite (@vq_encode_steps tf s g f inputs bs (seq 0 k) Hrun'). cbn [rbind].
  rewrite (@concatenate_batches self codebook latent_pos embedding_pos codebook_size
             codebook_pos _ _ f (fun i => slice (i * bs) ((i + 1) * bs) inputs)).
  - rewrite concat_slices, firstn_all2 by exact Hcov. now rewrite map_map.
  - apply Hpos. destruct inputs; [congruence|simpl; lia].
Qed.

(** Every code [encode] returns is a row index of the codebook: one row
    of [latent_size] codes below [num_embeddings] per input sample. *)
Theorem vq_encode_returns_valid_codes (inputs : list (tensor R)) (batch_size : nat) :
  inputs <> [] -> 1 <= batch_size ->
  exists codes,
    VQ_VAE.encode tf g s inputs batch_size = Ok (mat codes)
    /\ length codes = length inputs
    /\ Forall (fun row => length row = VQ_VAE.latent_size self
                          /\ Forall (fun a => a < VQ_VAE.num_embeddings self) row)
              codes.
Proof.
  intros Hne Hbs. destruct vq_values_of_batch as (h & Hh).
  eexists. split; [|split].
  - apply (vq_encode_value h); [|exact Hne|exact Hbs]. intros batch. apply Hh.
  - now rewrite !length_map.
  - apply nearest_codes_valid. apply (Hh inputs).
Qed.

(** Decoding the codes of a batch is reconstructing the batch:
    [decode(encode(inputs, batch_size))] returns what one run of
    [output_t] on the inputs themselves gives, first channel. *)
Theorem vq_decode_of_encode_reconstructs (inputs : list (tensor R)) (batch_size : nat) :
  inputs <> [] -> 1 <= batch_size ->
  exists codes,
    VQ_VAE.encode tf g s inputs batch_size = Ok (mat codes)
    /\ VQ_VAE.decode tf self g s codes
       = rbind (run tf s (VQ_VAE.output_t g) [(VQ_VAE.input_pl g, VF (Arr inputs))])
               VQ_VAE.first_channel.
Proof.
  intros Hne Hbs. destruct vq_values_of_batch as (h & Hh).
  destruct (vq_run_graph reg self g built)
    as (pe0 & c1 & c2 & lg & fl & c3 & _ & _ & Hd & Hin & _).
  eexists. split.
  - apply (vq_encode_value h); [|exact Hne|exact Hbs]. intros batch. apply Hh.
  - destruct (Hh inputs) as (Hshape & _ & Hflat).
    set (preds := map (fun t => chunks_n (VQ_VAE.latent_size self)
                                         (VQ_VAE.embedding_size self) (h t)) inputs) in *.
    set (codes := map (map (nearest codebook)) preds).
    assert (He : eval tf s (VQ_VAE.classes_feed self g codes (length codes))
                      (VQ_VAE.output_t g)
                 = eval tf s [(Placeholder "input_pl", VF (Arr inputs))]
                        (VQ_VAE.output_t g)).
    { eapply vq_decoder_agrees;
        [apply classes_feed_ok|apply input_feed_ok|reflexivity| |exact Hd].
      rewrite Hflat.
      destruct (eval_collected_from_classes _ _ (classes_feed_ok codes (length codes))
                  (classes_feed_lookup codes (length codes))
                  (nearest_codes_valid preds Hshape)) as [_ ->].
      unfold collected, codes. rewrite !map_map. do 3 f_equal.
      apply map_ext. intros row. now rewrite map_map. }
    unfold VQ_VAE.decode, run. rewrite Hin. fold codes. now rewrite He.
Qed.

End VQRun.

Lemma vq_output_agrees (tf : library) (reg : Q -> option (node -> option node))
    (self : VQ_VAE.config) (g : VQ_VAE.graph) (s1 s2 : session)
    (feed1 feed2 : list (node * value)) (v : value) :
  VQ_VAE.build_all reg self = Ok g ->
  variables s1 embeddings_name = variables s2 embeddings_name ->
  (forall n, String.prefix "model/decoder" n = true -> variables s1 n = variables s2 n) ->
  feeds_encoder_side feed1 = true -> feeds_encoder_side feed2 = true ->
  lookup_feed feed1 (VQ_VAE.classes g) = Some v ->
  lookup_feed feed2 (VQ_VAE.classes g) = Some v ->
  eval tf s1 feed1 (VQ_VAE.output_t g) = eval tf s2 feed2 (VQ_VAE.output_t g).
Proof.
  intros Hb He Hv Hf1 Hf2 Hl1 Hl2.
  destruct (vq_run_graph reg self g Hb)
    as (pe0 & c1 & c2 & lg & fl & c3 & _ & _ & Hd & _ & _ & _ & Hfl).
  eapply vq_decoder_agrees; [exact Hf1|exact Hf2|exact Hv| |exact Hd].
  rewrite Hfl.
  apply agree_Op; [assumption|assumption|reflexivity|now left|].
  apply Forall_cons; [|constructor].
  apply agree_Op; [assumption|assumption|reflexivity|now left|].
  apply Forall_cons; [now apply agree_Var|].
  apply Forall_cons; [|constructor].
  now rewrite (eval_fed tf s1 feed1 _ _ Hl1), (eval_fed tf s2 feed2 _ _ Hl2).
Qed.

(** [decode] and [predict] read the codebook and the variables of the
    decoder, nothing else: two sessions that agree on them return the
    same, whatever their encoders; and the zeros fed for [pred_embeds]
    are never read. *)
Theorem vq_decode_reads_codebook_and_decoder_only (tf : library)
    (reg : Q -> option (node -> option node)) (self : VQ_VAE.config) (g : VQ_VAE.graph)
    (s1 s2 : session) :
  VQ_VAE.build_all reg self = Ok g ->
  variables s1 embeddings_name = variables s2 embeddings_name ->
  (forall n, String.prefix "model/decoder" n = true -> variables s1 n = variables s2 n) ->
  (forall cls, VQ_VAE.decode tf self g s1 cls = VQ_VAE.decode tf self g s2 cls)
  /\ (forall np num_samples,
        VQ_VAE.predict tf self g s1 np num_samples
        = VQ_VAE.predict tf self g s2 np num_samples)
  /\ (forall cls,
        VQ_VAE.decode tf self g s1 cls
        = rbind (run tf s1 (VQ_VAE.output_t g) [(VQ_VAE.classes g, VI (mat cls))])
                VQ_VAE.first_channel).
Proof.
  intros Hb He Hv.
  assert (Hrun : forall cls n,
             run tf s1 (VQ_VAE.output_t g) (VQ_VAE.classes_feed self g cls n)
             = run tf s2 (VQ_VAE.output_t g) (VQ_VAE.classes_feed self g cls n)).
  { intros cls n. unfold run.
    rewrite (vq_output_agrees tf reg self g s1 s2 _ _ (VI (mat cls)) Hb He Hv
               (classes_feed_ok reg self g Hb cls n) (classes_feed_ok reg self g Hb cls n)
               (classes_feed_lookup self g cls n) (classes_feed_lookup self g cls n)).
    reflexivity. }
  split; [|split].
  - intros cls. unfold VQ_VAE.decode. now rewrite Hrun.
  - intros np n. unfold VQ_VAE.predict.
    destruct (randint tf np 0 (VQ_VAE.num_embeddings self) n (VQ_VAE.latent_size self));
      [|reflexivity].
    cbn [rbind]. now rewrite Hrun.
  - intros cls. unfold VQ_VAE.decode, run.
    destruct (vq_run_graph reg self g Hb)
      as (pe0 & c1 & c2 & lg & fl & c3 & _ & _ & _ & _ & _ & Hcl & _).
    rewrite (vq_output_agrees tf reg self g s1 s1 _
               [(VQ_VAE.classes g, VI (mat cls))] (VI (mat cls)) Hb eq_refl
               (fun n _ => eq_refl) (classes_feed_ok reg self g Hb cls (length cls))).
    + reflexivity.
    + rewrite Hcl. reflexivity.
    + apply classes_feed_lookup.
    + unfold lookup_feed. cbn [find fst]. now rewrite node_eqb_refl.
Qed.

(** The classes [predict] draws are codes: [latent_size] row indices of
    the codebook per sample, which [tf.gather] finds in the codebook.  A
    model without any codebook row cannot draw a code: [predict] raises
    [ValueError] as soon as one is asked for. *)
Theorem vq_predict_draws_valid_codes (tf : library) (reg : Q -> option (node -> option node))
    (self : VQ_VAE.config) (g : VQ_VAE.graph) (s : session) (codebook : list (list R))
    (np : rng) (num_samples : nat) :
  length codebook = VQ_VAE.num_embeddings self ->
  variables s "model/middle/embeddings" = mat codebook ->
  VQ_VAE.build_all reg self = Ok g ->
  (VQ_VAE.num_embeddings self = 0 ->
   0 < num_samples -> 0 < VQ_VAE.latent_size self ->
   VQ_VAE.predict tf self g s np num_samples = Raise ValueError)
  /\ forall outputs cls,
       VQ_VAE.predict tf self g s np num_samples = Ok (outputs, cls) ->
       length cls = num_samples
       /\ Forall (fun row => length row = VQ_VAE.latent_size self
                             /\ Forall (fun a => a < VQ_VAE.num_embeddings self) row) cls
       /\ eval tf s (VQ_VAE.classes_feed self g cls num_samples) (VQ_VAE.collected_embeds g)
          = Some (VF (cube (map (map (fun a => nth a codebook [])) cls))).
Proof.
  intros Hsize Hemb Hb. split.
  - intros H0 Hn Hl. unfold VQ_VAE.predict, randint. rewrite H0.
    replace (num_samples * VQ_VAE.latent_size self =? 0) with false;
      [reflexivity|]. symmetry. apply Nat.eqb_neq. nia.
  - intros outputs cls H. unfold VQ_VAE.predict in H.
    destruct (randint tf np 0 (VQ_VAE.num_embeddings self) num_samples
                      (VQ_VAE.latent_size self)) as [cls'|e] eqn:Hr; [|discriminate].
    cbn [rbind] in H.
    destruct (run tf s (VQ_VAE.output_t g) _) as [o|e]; [|discriminate].
    cbn [rbind] in H. destruct (VQ_VAE.first_channel o) as [o'|e]; [|discriminate].
    cbn [rbind] in H. injection H as _ Hc. subst cls'.
    destruct (randint_rows _ _ _ _ _ _ Hr) as [Hlen Hrows].
    assert (Hvalid : Forall (fun row => length row = VQ_VAE.latent_size self
                               /\ Forall (fun a => a < VQ_VAE.num_embeddings self) row)
                            cls).
    { eapply Forall_impl; [|exact Hrows]. intros row [Hl Hr']. split; [exact Hl|].
      eapply Forall_impl; [|exact Hr']. intros a Ha. cbn beta in Ha. lia. }
    split; [exact Hlen|]. split; [exact Hvalid|].
    destruct (@vq_built_graph reg self g Hb)
      as (pe0 & c1 & lg & fl & out & c3 & eg & _ & _ & _ & _ & Hco & _).
    rewrite Hco.
    rewrite eval_Op
      by (apply lookup_decoder_side; [now apply (classes_feed_ok reg self g Hb)|reflexivity]).
    cbn [mapM].
    rewrite eval_Var by (apply lookup_variable; now apply (classes_feed_ok reg self g Hb)).
    rewrite (eval_fed tf s _ _ _ (classes_feed_lookup self g cls num_samples)).
    unfold embeddings_name. rewrite Hemb. cbn [op_value].
    rewrite gather_value; [reflexivity|].
    eapply Forall_impl; [|exact Hvalid]. intros row [_ Hr']. now rewrite Hsize.
Qed.

(** ** The variables [VQ_VAE.step_op] updates *)

Lemma encoder_scope_not_decoder (n : string) :
  String.prefix "model/encoder" n = true -> String.prefix "model/decoder" n = false.
Proof.
  intros H. destruct (String.prefix "model/decoder" n) eqn:E; [|reflexivity].
  destruct (prefix_comparable _ _ _ H E); discriminate.
Qed.

Lemma vq_encoder_scope (reg : Q -> option (node -> option node)) (self : VQ_VAE.config)
    (input : node) (c : collections) (pe0 : node) (c' : collections) :
  Forall (fun n => String.prefix "model/encoder" n = true) (trainable_variables c) ->
  VQ_VAE.build_encoder reg self input c = Ok (pe0, c') ->
  Forall (fun n => String.prefix "model/encoder" n = true) (trainable_variables c').
Proof.
  apply (@vq_encoder_invariant reg self
           (fun _ c0 => Forall (fun n => String.prefix "model/encoder" n = true)
                               (trainable_variables c0))).
  - intros k x c0 _ H. exact H.
  - intros x c0 x' c0' (k & kn & bn & rl & _ & Hkn & Hbn & _ & Ht & _) H.
    rewrite Ht. apply Forall_app. split; [exact H|]. now repeat constructor.
Qed.

Lemma vq_decoder_scope (reg : Q -> option (node -> option node)) (self : VQ_VAE.config)
    (input : node) (c : collections) (lg fl out : node) (c' : collections) :
  VQ_VAE.build_decoder reg self input c = Ok ((lg, fl, out), c') ->
  exists dec,
    trainable_variables c' = trainable_variables c ++ dec
    /\ Forall (fun n => String.prefix "model/decoder" n = true) dec.
Proof.
  intros H.
  apply (@vq_decoder_invariant reg self
           (fun _ c0 => exists dec,
                trainable_variables c0 = trainable_variables c ++ dec
                /\ Forall (fun n => String.prefix "model/decoder" n = true) dec))
    in H; [tauto|auto| |].
  - intros x c0 x' c0' (k & kn & bn & rl & _ & Hkn & Hbn & _ & Ht & _) (dec & Hd & Hf).
    exists (dec ++ [kn; bn]). split; [now rewrite Ht, Hd, app_assoc|].
    apply Forall_app. split; [exact Hf|]. now repeat constructor.
  - exists []. split; [now rewrite app_nil_r|constructor].
Qed.

Lemma vq_decoder_reaches_vars (reg : Q -> option (node -> option node)) (self : VQ_VAE.config)
    (input : node) (c : collections) (lg fl out : node) (c' : collections) :
  decoder_vars_reached input c ->
  VQ_VAE.build_decoder reg self input c = Ok ((lg, fl, out), c') ->
  decoder_vars_reached fl c'.
Proof.
  intros Hin H.
  apply (@vq_decoder_invariant reg self decoder_vars_reached) in H; [tauto| | |exact Hin].
  - intros k x c0 Hk Hx v Hv Hp. apply reaches_wrapper; [exact Hk|now apply Hx].
  - intros x c0 x' c0' Hstep Hx v Hv Hp.
    destruct (in_dec string_dec v (trainable_variables c0)) as [Hold|Hnew].
    + eapply reaches_layer; [exact Hstep|now apply Hx].
    + eapply new_variables_reached; eassumption.
Qed.

Lemma total_loss_reaches (self : VQ_VAE.config) (out left right reg_l t : node) (g : node) :
  (forall g', gradients_from out t g' <> None) ->
  gradients_from (VQ_VAE.total_loss self out left right reg_l) t g <> None.
Proof.
  intros H. unfold VQ_VAE.total_loss.
  reach_step. left. reach_step. left. reach_step. left. apply H.
Qed.

Lemma filter_all {A} (f : A -> bool) (l : list A) :
  Forall (fun x => f x = true) l -> filter f l = l.
Proof. induction 1 as [|x l Hx _ IH]; [reflexivity|]. cbn. now rewrite Hx, IH. Qed.

Lemma filter_none {A} (f : A -> bool) (l : list A) :
  Forall (fun x => f x = false) l -> filter f l = [].
Proof. induction 1 as [|x l Hx _ IH]; [reflexivity|]. cbn. now rewrite Hx. Qed.

Lemma encoder_entries_variables (self : VQ_VAE.config) (pe rl : node) (gz : option node)
    (vars : list node) (eg : list (option node * node)) :
  Forall2 (encoder_entry self pe rl gz) vars eg ->
  map snd eg = vars /\ Forall (fun gv => fst gv <> None) eg.
Proof.
  induction 1 as [|v gv vars eg (a & b & _ & _ & ->) _ [IH1 IH2]].
  - split; [reflexivity|constructor].
  - split; [cbn; now rewrite IH1|]. constructor; [discriminate|exact IH2].
Qed.

Lemma vq_global_step (reg : Q -> option (node -> option node)) (self : VQ_VAE.config)
    (g : VQ_VAE.graph) :
  VQ_VAE.build_all reg self = Ok g -> VQ_VAE.global_step g = Var "global_step".
Proof.
  intros Hb.
  destruct (@vq_build_all_inv reg self g Hb)
    as (pe0 & c1 & m & c2 & [[lg fl] out] & c3 & cf & _ & _ & _ & Ht & _).
  unfold VQ_VAE.build_training in Ht.
  apply bind_Ok in Ht as (c & c' & Hc & Ht).
  apply bind_Ok in Ht as (eg & c'' & Heg & Ht).
  destruct (apply_gradients _ _) as [st|e]; [|discriminate].
  unfold ret in Ht. now inversion Ht.
Qed.

(** [step_op] is given every trainable variable of the model exactly as
    often as the collection holds it, each with a gradient, none with
    [None]; [global_step] is not among the variables it is given. *)
Theorem vq_step_op_updates_every_trainable_variable (reg : Q -> option (node -> option node))
    (self : VQ_VAE.config) (g : VQ_VAE.graph) :
  VQ_VAE.build_all reg self = Ok g ->
  exists md c rate gvs,
    VQ_VAE.build_network reg self (Placeholder "input_pl") empty_collections = Ok (md, c)
    /\ VQ_VAE.step_op g = ApplyGradients rate gvs
    /\ Permutation (map snd gvs) (map Var (trainable_variables c))
    /\ Forall (fun gv => fst gv <> None) gvs
    /\ ~ In (VQ_VAE.global_step g) (map snd gvs).
Proof.
  intros Hb.
  destruct (@vq_build_all_inv reg self g Hb)
    as (pe0 & c1 & m & c2 & [[lg fl] out] & c3 & cf & He & Hm & Hd & _
        & _ & _ & _ & _ & _ & _ & Hflm).
  destruct (@vq_built_graph reg self g Hb)
    as (pe0' & c1' & lg' & fl' & out' & c3' & eg & He' & Hd' & _ & Hem & Hco & _ & Hol
        & Hll & _ & _ & Hloss & Heg & Hst).
  rewrite He in He'. inversion He'; subst pe0' c1'. clear He'.
  assert (Hc2 : c2 = {| trainable_variables := trainable_variables c1 ++ [embeddings_name];
                        regularization_losses := regularization_losses c1 |}).
  { unfold VQ_VAE.build_middle, bind, add_trainable, ret in Hm. now inversion Hm. }
  rewrite Hflm, <- Hc2, Hd in Hd'. inversion Hd'; subst lg' fl' out' c3'. clear Hd'.
  pose proof (vq_encoder_scope reg self _ empty_collections _ _ (Forall_nil _) He) as Henc.
  destruct (vq_decoder_scope reg self _ _ _ _ _ _ Hd) as (dec & Hc3 & Hdec).
  rewrite Hc2 in Hc3. cbn [trainable_variables] in Hc3.
  assert (Hdv : trainable_in "model/decoder" c3 = map Var dec).
  { unfold trainable_in. rewrite Hc3, !filter_app. cbn [filter].
    rewrite (filter_none (String.prefix "model/decoder") (trainable_variables c1)),
            (filter_all (String.prefix "model/decoder") dec); [reflexivity|exact Hdec|].
    eapply Forall_impl; [|exact Henc]. intros n. apply encoder_scope_not_decoder. }
  assert (Hev : trainable_in "model/encoder" c3 = map Var (trainable_variables c1)).
  { unfold trainable_in. rewrite Hc3, !filter_app. cbn [filter].
    rewrite (filter_all (String.prefix "model/encoder") (trainable_variables c1)),
            (filter_none (String.prefix "model/encoder") dec);
      [now rewrite !app_nil_r|eapply Forall_impl; [|exact Hdec]|exact Henc].
    intros n. apply decoder_not_encoder. }
  rewrite Hev in Heg. rewrite Hdv in Hst.
  destruct (encoder_entries_variables _ _ _ _ _ _ Heg) as [Hsnd Hsome].
  exists (m, (lg, fl, out)), c3. eexists. eexists.
  split; [|split; [exact Hst|split; [|split]]].
  - unfold VQ_VAE.build_network, bind. rewrite He, Hm, Hd. reflexivity.
  - rewrite !map_app, map_map, Hsnd. cbn [map snd]. rewrite map_id, Hem, Hc3, !map_app.
    cbn [map]. apply Permutation_app_comm.
  - apply Forall_app. split; [|apply Forall_app; split; [exact Hsome|]].
    + apply Forall_map. apply Forall_forall. intros v Hname. cbn [fst].
      apply in_map_iff in Hname as (name & <- & Hname).
      rewrite Hloss. unfold gradients. apply total_loss_reaches. intros g1.
      rewrite Hol. apply output_loss_reaches. intros g2.
      assert (Hbase : decoder_vars_reached (VQ_VAE.m_flat_collected_embeds m) c2).
      { intros v Hv Hp. rewrite Hc2 in Hv. cbn [trainable_variables] in Hv.
        apply in_app_or in Hv as [Hv|[<-|[]]]; [|discriminate Hp].
        rewrite Forall_forall in Henc. apply Henc in Hv.
        apply encoder_scope_not_decoder in Hv. congruence. }
      apply (vq_decoder_reaches_vars reg self _ _ _ _ _ _ Hbase Hd name).
      * rewrite Hc3. apply in_or_app. now right.
      * rewrite Forall_forall in Hdec. now apply Hdec.
    + constructor; [|constructor]. cbn [fst]. rewrite Hll, Hco, Hem. unfold gradients.
      destruct (left_loss_reaches_codebook (VQ_VAE.pred_embeds g) (VQ_VAE.classes g)
                  (Op kOnesLike [VQ_VAE.left_loss (VQ_VAE.pred_embeds g)
                                   (Op kGather [Var embeddings_name; VQ_VAE.classes g])]))
        as [ins ->]. discriminate.
  - rewrite (vq_global_step reg self g Hb).
    rewrite !map_app, map_map, Hsnd. cbn [map snd]. rewrite map_id, Hem.
    intros Hin. apply in_app_or in Hin as [Hin|Hin];
      [|apply in_app_or in Hin as [Hin|[Hin|[]]]].
    + apply in_map_iff in Hin as (n & Hn & Hin). inversion Hn; subst n.
      rewrite Forall_forall in Hdec. now apply Hdec in Hin.
    + apply in_map_iff in Hin as (n & Hn & Hin). inversion Hn; subst n.
      rewrite Forall_forall in Henc. now apply Henc in Hin.
    + discriminate Hin.
Qed.

(** ** The regularization losses of a built network *)

Lemma layer_is_added (pre scope type_name : string) (k : opkind) (x : node)
    (r : option (node -> option node)) (c : collections) (x' : node) (c' : collections) :
  String.prefix pre scope = true -> is_layer k = true ->
  layer scope type_name k x r c = Ok (x', c') ->
  layer_added r pre x c x' c'.
Proof.
  intros Hp Hk H. rewrite layer_Ok in H. inversion H; subst. clear H.
  exists k, (kernel_name scope type_name), (bias_name scope type_name).
  repeat split; try reflexivity; try assumption;
    unfold kernel_name, bias_name; now apply prefix_append.
Qed.

Lemma conv_body_added (pre : string) (filters sizes strides : list nat)
    (scope : nat -> string) (relu : nat -> bool) (r : option (node -> option node))
    (transpose : bool) (x : node) (idx : nat) (c : collections) (x' : node)
    (c' : collections) :
  String.prefix pre (scope idx) = true ->
  bind (index filters idx) (fun f =>
  bind (index sizes idx) (fun sz =>
  bind (index strides idx) (fun t =>
    if transpose then conv2d_transpose (scope idx) x f sz t (relu idx) r
    else conv2d (scope idx) x f sz t (relu idx) r))) c = Ok (x', c') ->
  layer_added r pre x c x' c'.
Proof.
  intros Hp H. bind_inv H. bind_inv H. bind_inv H.
  apply index_Ok in Ha as [_ ->]. apply index_Ok in Ha0 as [_ ->].
  apply index_Ok in Ha1 as [_ ->].
  destruct transpose; unfold conv2d, conv2d_transpose in H;
    (eapply layer_is_added; [exact Hp| |exact H]); reflexivity.
Qed.

Section SGNetwork.

Variable reg : Q -> option (node -> option node).
Variable self : SG_VAE.config.
Variable P : node -> collections -> Prop.

Hypothesis P_wrapper :
  forall k x c, is_wrapper k = true -> P x c -> P (Op k [x]) c.
Hypothesis P_layer :
  forall pre x c x' c',
    layer_added (reg (SG_VAE.weight_decay self)) pre x c x' c' -> P x c -> P x' c'.

Lemma sg_encoder_layers (input : node) (c : collections) (x : node) (c' : collections) :
  P input c ->
  SG_VAE.build_encoder reg self input c = Ok (x, c') ->
  P x c'.
Proof.
  intros Hin H. unfold SG_VAE.build_encoder in H.
  bind_inv H.
  eapply for_each_invariant2; [| |exact H].
  { intros x0 i c2 x' c2' _ Hx Hb. eapply P_layer; [|exact Hx].
    eapply (layer_is_added "model/encoder"); [| |exact Hb]; reflexivity. }
  apply P_wrapper; [reflexivity|].
  eapply for_each_invariant2; [| |exact Ha].
  { intros x0 i c2 x' c2' _ Hx Hb. eapply P_layer; [|exact Hx].
    eapply (conv_body_added "model/encoder" _ _ _
              (fun idx => ("model/encoder/conv" ++ format_d (idx + 1))%string)
              (fun _ => true) _ false); [reflexivity|exact Hb]. }
  apply P_wrapper; [reflexivity|exact Hin].
Qed.

Lemma sg_decoder_layers (input : node) (c : collections) (lg fl out : node)
    (c' : collections) :
  P input c ->
  SG_VAE.build_decoder reg self input c = Ok ((lg, fl, out), c') ->
  P lg c' /\ P fl c' /\ P out c'.
Proof.
  intros Hin H. unfold SG_VAE.build_decoder in H.
  bind_inv H. bind_inv H.
  assert (Ha1 : P a0 c1).
  { eapply for_each_invariant2; [| |exact Ha0].
    { intros x i c2 x' c2' _ Hx Hb. eapply P_layer; [|exact Hx].
      eapply (conv_body_added "model/decoder" _ _ _
                (fun idx => ("model/decoder/conv" ++ format_d (idx + 1))%string)
                (fun idx => negb (idx =? length (SG_VAE.decoder_filters self) - 1))
                _ true); [reflexivity|exact Hb]. }
    apply P_wrapper; [reflexivity|].
    eapply for_each_invariant2; [| |exact Ha].
    { intros x i c2 x' c2' _ Hx Hb. eapply P_layer; [|exact Hx].
      eapply (layer_is_added "model/decoder"); [| |exact Hb]; reflexivity. }
    exact Hin. }
  destruct (pyval_eqb _ SG_VAE.SIGMOID_CROSS_ENTROPY); ret_inv H;
    repeat split; repeat (apply P_wrapper; [reflexivity|]); assumption.
Qed.

End SGNetwork.

(** [SG_VAE.build_training] sums the regularization losses with
    [tf.add_n] without looking whether there is any.  When the layers
    register no loss for their kernels (there is no kernel regularizer,
    or it returns [None]), a network that has been built has an empty
    collection of regularization losses, [build_training] raises
    [ValueError] on it, and [build_all] never returns a graph. *)
Theorem sg_build_all_needs_a_regularizer (reg : Q -> option (node -> option node))
    (self : SG_VAE.config) :
  (forall w, kernel_losses (reg (SG_VAE.weight_decay self)) w = []) ->
  (forall g, SG_VAE.build_all reg self <> Ok g)
  /\ (forall md c,
        SG_VAE.build_network reg self empty_collections = Ok (md, c) ->
        regularization_losses c = []
        /\ SG_VAE.build_training self (fst md) (snd md) c = Raise ValueError).
Proof.
  intros Hno.
  assert (Hstep : forall pre x0 c0 x' c0',
             layer_added (reg (SG_VAE.weight_decay self)) pre x0 c0 x' c0' ->
             regularization_losses c0 = [] -> regularization_losses c0' = []).
  { intros pre x0 c0 x' c0' (k & kn & bn & _ & _ & _ & _ & _ & Hr) H0.
    rewrite Hr, H0, Hno. reflexivity. }
  assert (Hnet : forall md c,
             SG_VAE.build_network reg self empty_collections = Ok (md, c) ->
             regularization_losses c = []
             /\ SG_VAE.build_training self (fst md) (snd md) c = Raise ValueError).
  { intros md c Hn. unfold SG_VAE.build_network in Hn.
    apply bind_Ok in Hn as (x & c1 & He & Hn).
    apply bind_Ok in Hn as (m & c2 & Hm & Hn).
    apply bind_Ok in Hn as ([[lg fl] out] & c3 & Hd & Hn).
    ret_inv Hn. cbn [fst snd].
    apply (sg_encoder_layers reg self (fun _ c => regularization_losses c = [])
             (fun _ _ _ _ H => H) Hstep) in He; [|reflexivity].
    unfold SG_VAE.build_middle, bind, dense in Hm. rewrite layer_Ok in Hm.
    unfold ret in Hm. inversion Hm; subst m c2. clear Hm.
    apply (sg_decoder_layers reg self (fun _ c => regularization_losses c = [])
             (fun _ _ _ _ H => H) Hstep) in Hd;
      [|cbn [regularization_losses]; now rewrite He, Hno].
    destruct Hd as (Hc & _). split; [exact Hc|].
    unfold SG_VAE.build_training, bind, get_collections. cbn [fst snd].
    rewrite Hc. reflexivity. }
  split; [|exact Hnet].
  intros g Hb. unfold SG_VAE.build_all in Hb. unfold bind at 1 in Hb.
  destruct (SG_VAE.build_network reg self empty_collections) as [[md c]|e] eqn:Hn;
    [|discriminate].
  destruct (Hnet md c eq_refl) as [_ Ht]. rewrite Ht in Hb. discriminate.
Qed.

Section VQNetwork.

Variable reg : Q -> option (node -> option node).
Variable self : VQ_VAE.config.
Variable P : node -> collections -> Prop.

Hypothesis P_wrapper :
  forall k x c, is_wrapper k = true -> P x c -> P (Op k [x]) c.
Hypothesis P_layer :
  forall pre x c x' c',
    layer_added (reg (VQ_VAE.weight_decay self)) pre x c x' c' -> P x c -> P x' c'.

Lemma vq_encoder_layers (input : node) (c : collections) (pe0 : node) (c' : collections) :
  P input c ->
  VQ_VAE.build_encoder reg self input c = Ok (pe0, c') ->
  P pe0 c'.
Proof.
  intros Hin H. unfold VQ_VAE.build_encoder in H.
  bind_inv H. bind_inv H.
  eapply P_layer; [eapply (layer_is_added "model/encoder"); [| |exact H]; reflexivity|].
  eapply for_each_invariant2; [| |exact Ha0].
  { intros x i c2 x' c2' _ Hx Hb. eapply P_layer; [|exact Hx].
    eapply (layer_is_added "model/encoder"); [| |exact Hb]; reflexivity. }
  apply P_wrapper; [reflexivity|].
  eapply for_each_invariant2; [| |exact Ha].
  { intros x i c2 x' c2' _ Hx Hb. eapply P_layer; [|exact Hx].
    eapply (conv_body_added "model/encoder" _ _ _
              (fun idx => ("model/encoder/conv" ++ format_d (idx + 1))%string)
              (fun _ => true) _ false); [reflexivity|exact Hb]. }
  apply P_wrapper; [reflexivity|exact Hin].
Qed.

Lemma vq_decoder_layers (input : node) (c : collections) (lg fl out : node)
    (c' : collections) :
  P input c ->
  VQ_VAE.build_decoder reg self input c = Ok ((lg, fl, out), c') ->
  P lg c' /\ P fl c' /\ P out c'.
Proof.
  intros Hin H. unfold VQ_VAE.build_decoder in H.
  bind_inv H. bind_inv H.
  assert (Ha1 : P a0 c1).
  { eapply for_each_invariant2; [| |exact Ha0].
    { intros x i c2 x' c2' _ Hx Hb. eapply P_layer; [|exact Hx].
      eapply (conv_body_added "model/decoder" _ _ _
                (fun idx => ("model/decoder/conv" ++ format_d (idx + 1))%string)
                (fun idx => negb (idx =? length (VQ_VAE.decoder_filters self) - 1))
                _ true); [reflexivity|exact Hb]. }
    apply P_wrapper; [reflexivity|].
    eapply for_each_invariant2; [| |exact Ha].
    { intros x i c2 x' c2' _ Hx Hb. eapply P_layer; [|exact Hx].
      eapply (layer_is_added "model/decoder"); [| |exact Hb]; reflexivity. }
    exact Hin. }
  destruct (pyval_eqb _ VQ_VAE.SIGMOID_CROSS_ENTROPY);
    [|destruct (pyval_eqb _ VQ_VAE.L2)]; ret_inv H;
    repeat split; repeat (apply P_wrapper; [reflexivity|]); assumption.
Qed.

End VQNetwork.

(** [VQ_VAE.build_training] looks at the regularization losses before
    it sums them.  In a [VQ_VAE] built with layers that register no loss
    for their kernels (there is no kernel regularizer, or it returns
    [None]), [reg_loss_t] is the constant 0.0 and [loss_t] is worth
    [output_loss + beta1 * left_loss + beta2 * right_loss]. *)
Theorem vq_reg_loss_without_regularizer (reg : Q -> option (node -> option node))
    (self : VQ_VAE.config) (g : VQ_VAE.graph) :
  (forall w, kernel_losses (reg (VQ_VAE.weight_decay self)) w = []) ->
  VQ_VAE.build_all reg self = Ok g ->
  VQ_VAE.reg_loss_t g = Op kZero []
  /\ forall tf s feed o l r,
       feeds_placeholders feed = true ->
       eval tf s feed (VQ_VAE.output_loss_t g) = Some (VF (Sc o)) ->
       eval tf s feed (VQ_VAE.left_loss_t g) = Some (VF (Sc l)) ->
       eval tf s feed (VQ_VAE.right_loss_t g) = Some (VF (Sc r)) ->
       eval tf s feed (VQ_VAE.loss_t g)
       = Some (VF (Sc (o + Q2R (VQ_VAE.beta1 self) * l
                       + Q2R (VQ_VAE.beta2 self) * r)%R)).
Proof.
  intros Hno Hb.
  destruct (@vq_build_all_inv reg self g Hb)
    as (pe0 & c1 & m & c2 & [[lg fl] out] & c3 & cf & He & Hm & Hd & Ht & _).
  destruct (@vq_build_training_inv self _ _ _ _ _ _ _ _ _ Ht)
    as (_ & _ & _ & Hreg & Hloss & _).
  assert (Hstep : forall pre x0 c0 x' c0',
             layer_added (reg (VQ_VAE.weight_decay self)) pre x0 c0 x' c0' ->
             regularization_losses c0 = [] -> regularization_losses c0' = []).
  { intros pre x0 c0 x' c0' (k & kn & bn & _ & _ & _ & _ & _ & Hr) H0.
    rewrite Hr, H0, Hno. reflexivity. }
  assert (Hnone : regularization_losses c3 = []).
  { apply (vq_decoder_layers reg self (fun _ c => regularization_losses c = [])
             (fun _ _ _ _ H => H) Hstep) in Hd; [tauto|].
    unfold VQ_VAE.build_middle, bind, add_trainable, ret in Hm.
    inversion Hm. cbn [regularization_losses].
    apply (vq_encoder_layers reg self (fun _ c => regularization_losses c = [])
             (fun _ _ _ _ H => H) Hstep) in He; [exact He|reflexivity]. }
  assert (Hz : VQ_VAE.reg_loss_t g = Op kZero []).
  { rewrite Hreg, Hnone. reflexivity. }
  split; [exact Hz|].
  intros tf s feed o l r Hf Ho Hl Hrl. rewrite Hloss.
  rewrite (@eval_total_loss tf s feed self _ _ _ _ o l r 0%R Hf Ho Hl Hrl).
  - do 3 f_equal. apply Rplus_0_r.
  - rewrite Hz.
    rewrite eval_Op by (apply lookup_feed_placeholders; [assumption|reflexivity]).
    reflexivity.
Qed.

(** ** The further properties on the small models *)

(** The codes of the two small inputs, one batch per input. *)
Lemma small_vq_encode_codes :
  exists codes,
    VQ_VAE.encode small_library small_vq_graph small_session small_inputs 1
    = Ok (mat codes)
    /\ length codes = length small_inputs
    /\ Forall (fun row => length row = VQ_VAE.latent_size small_vq
                          /\ Forall (fun a => a < VQ_VAE.num_embeddings small_vq) row)
              codes.
Proof.
  apply (vq_encode_returns_valid_codes small_library small_session kernel_penalty
           small_vq small_vq_graph small_codebook).
  - simpl. lia.
  - simpl. lia.
  - reflexivity.
  - repeat constructor.
  - reflexivity.
  - exact small_vq_built.
  - exact small_dense_units.
  - simpl. lia.
  - discriminate.
  - lia.
Defined.

(** Decoding the codes of the two small inputs reconstructs them. *)
Lemma small_vq_round_trip :
  exists codes,
    VQ_VAE.encode small_library small_vq_graph small_session small_inputs 2
    = Ok (mat codes)
    /\ VQ_VAE.decode small_library small_vq small_vq_graph small_session codes
       = rbind (run small_library small_session (VQ_VAE.output_t small_vq_graph)
                    [(VQ_VAE.input_pl small_vq_graph, VF (Arr small_inputs))])
               VQ_VAE.first_channel.
Proof.
  apply (vq_decode_of_encode_reconstructs small_library small_session kernel_penalty
           small_vq small_vq_graph small_codebook).
  - simpl. lia.
  - simpl. lia.
  - reflexivity.
  - repeat constructor.
  - reflexivity.
  - exact small_vq_built.
  - exact small_dense_units.
  - simpl. lia.
  - discriminate.
  - lia.
Defined.

(** Training the encoder changes nothing in what [decode] and [predict]
    return. *)
Lemma small_vq_decode_after_training :
  VQ_VAE.decode small_library small_vq small_vq_graph small_session [[0]; [1]]
  = VQ_VAE.decode small_library small_vq small_vq_graph small_session_trained [[0]; [1]]
  /\ VQ_VAE.predict small_library small_vq small_vq_graph small_session (Rng 0) 2
     = VQ_VAE.predict small_library small_vq small_vq_graph small_session_trained
         (Rng 0) 2.
Proof.
  destruct (vq_decode_reads_codebook_and_decoder_only small_library kernel_penalty
              small_vq small_vq_graph small_session small_session_trained)
    as (Hd & Hp & _).
  - exact small_vq_built.
  - reflexivity.
  - intros n Hn. unfold small_session_trained, small_session, variables.
    destruct (String.eqb n embeddings_name); [reflexivity|].
    now rewrite (decoder_not_encoder n Hn).
  - split; [apply Hd|apply Hp].
Defined.

(** The codes drawn by [predict] for two samples, and the codebook
    vectors read for them. *)
Lemma small_vq_predict_codes :
  exists outputs,
    VQ_VAE.predict small_library small_vq small_vq_graph small_session (Rng 0) 2
    = Ok (outputs, [[0]; [1]])
    /\ eval small_library small_session
            (VQ_VAE.classes_feed small_vq small_vq_graph [[0]; [1]] 2)
            (VQ_VAE.collected_embeds small_vq_graph)
       = Some (VF (cube [[[0%R]]; [[1%R]]])).
Proof.
  assert (Hp : { outputs | VQ_VAE.predict small_library small_vq small_vq_graph
                             small_session (Rng 0) 2 = Ok (outputs, [[0]; [1]]) }).
  { eexists. vm_compute. reflexivity. }
  destruct Hp as [outputs Hp]. exists outputs. split; [exact Hp|].
  destruct (vq_predict_draws_valid_codes small_library kernel_penalty small_vq
              small_vq_graph small_session small_codebook (Rng 0) 2
              eq_refl eq_refl small_vq_built) as [_ H].
  destruct (H outputs [[0]; [1]] Hp) as (_ & _ & He). exact He.
Defined.

(** The update of the small [VQ_VAE] names each of its nine trainable
    variables once. *)
Lemma small_vq_step_op_variables :
  exists md c rate gvs,
    VQ_VAE.build_network kernel_penalty small_vq (Placeholder "input_pl")
      empty_collections = Ok (md, c)
    /\ VQ_VAE.step_op small_vq_graph = ApplyGradients rate gvs
    /\ Permutation (map snd gvs) (map Var (trainable_variables c))
    /\ Forall (fun gv => fst gv <> None) gvs
    /\ ~ In (VQ_VAE.global_step small_vq_graph) (map snd gvs).
Proof.
  exact (vq_step_op_updates_every_trainable_variable kernel_penalty small_vq
           small_vq_graph small_vq_built).
Defined.

(** The small [SG_VAE] is built with a kernel regularizer; without one
    its network is built and [build_training] raises. *)
Lemma small_sg_needs_a_regularizer :
  SG_VAE.build_all kernel_penalty (small_sg SG_VAE.RELAXED false)
  = Ok (small_sg_graph SG_VAE.RELAXED false)
  /\ exists md c,
       SG_VAE.build_network (fun _ => None) (small_sg SG_VAE.RELAXED false)
         empty_collections = Ok (md, c)
       /\ regularization_losses c = []
       /\ SG_VAE.build_training (small_sg SG_VAE.RELAXED false) (fst md) (snd md) c
          = Raise ValueError.
Proof.
  split; [exact (small_sg_built false)|].
  assert (Hn : { mdc | SG_VAE.build_network (fun _ => None) (small_sg SG_VAE.RELAXED false)
                         empty_collections = Ok mdc }).
  { eexists. vm_compute. reflexivity. }
  destruct Hn as [[md c] Hn]. exists md, c. split; [exact Hn|].
  destruct (sg_build_all_needs_a_regularizer (fun _ => None)
              (small_sg SG_VAE.RELAXED false) (fun _ => eq_refl)) as [_ H].
  exact (H md c Hn).
Defined.

(** The small [VQ_VAE] built without a kernel regularizer has the
    constant 0.0 for [reg_loss_t]. *)
Lemma small_vq_without_regularizer :
  exists g,
    VQ_VAE.build_all (fun _ => None) small_vq = Ok g
    /\ VQ_VAE.reg_loss_t g = Op kZero [].
Proof.
  assert (Hg : { g | VQ_VAE.build_all (fun _ => None) small_vq = Ok g }).
  { eexists. vm_compute. reflexivity. }
  destruct Hg as [g Hg]. exists g. split; [exact Hg|].
  destruct (vq_reg_loss_without_regularizer (fun _ => None) small_vq g
              (fun _ => eq_refl) Hg) as [Hz _].
  exact Hz.
Defined.
